(** * nobrainer.host: the [deploy] command of [cli/bin/cli.js]

    A shallow embedding of [deployCommand] and of the helpers it calls
    ([run], [runSSH]), followed by the properties of the deploy pipeline:
    app detection, port assignment, orphan clean-up, certificate issuance,
    nginx configuration rendering and activation. *)

From Stdlib Require Import NArith Bool Ascii String Decimal Lia.
From Stdlib Require Import List Permutation Sorted.
Import ListNotations.
Local Open Scope N_scope.
Local Open Scope list_scope.

(* ================================================================= *)
(** ** JavaScript strings and arrays *)

Module JS.

(** A JavaScript string is a sequence of UTF-16 code units. *)
Definition code_unit := N.
Definition jsstring := list code_unit.

(** An ASCII literal of the source text. *)
Definition lit (s : string) : jsstring :=
  map N_of_ascii (list_ascii_of_string s).

Definition dquote : code_unit := 34.
Definition newline : code_unit := 10.

(** [===] on strings. *)
Fixpoint eqb (a b : jsstring) : bool :=
  match a, b with
  | [], [] => true
  | x :: a', y :: b' => (x =? y) && eqb a' b'
  | _, _ => false
  end.

(** [a < b] on strings: code unit by code unit, a proper prefix first. *)
Fixpoint ltb (a b : jsstring) : bool :=
  match a, b with
  | _, [] => false
  | [], _ :: _ => true
  | x :: a', y :: b' =>
      if x <? y then true else if y <? x then false else ltb a' b'
  end.

(** [s.startsWith(p)] *)
Fixpoint startsWith (s p : jsstring) {struct p} : bool :=
  match p, s with
  | [], _ => true
  | y :: p', x :: s' => (x =? y) && startsWith s' p'
  | _ :: _, [] => false
  end.

(** [arr.includes(x)] on an array of strings. *)
Definition includes (arr : list jsstring) (x : jsstring) : bool :=
  existsb (eqb x) arr.

(** [arr.sort()] without a comparator: ascending by [ltb]; elements that
    compare equal keep their order. *)
Fixpoint insert (x : jsstring) (l : list jsstring) : list jsstring :=
  match l with
  | [] => [x]
  | y :: l' => if ltb y x then y :: insert x l' else x :: l
  end.

Fixpoint sort (l : list jsstring) : list jsstring :=
  match l with
  | [] => []
  | x :: l' => insert x (sort l')
  end.

(** [arr.filter(p)] where the callback may throw: the first exception
    aborts the traversal. *)
Fixpoint filter_throwing {A} (p : A -> option bool) (l : list A)
  : option (list A) :=
  match l with
  | [] => Some []
  | x :: l' =>
      match p x with
      | None => None
      | Some b =>
          match filter_throwing p l' with
          | None => None
          | Some r => Some (if b then x :: r else r)
          end
      end
  end.

(** The [replace] of [runSSH]: a backslash in front of every double
    quote. *)
Definition escape_dquotes (s : jsstring) : jsstring :=
  flat_map (fun u => if u =? dquote then [92; dquote] else [u]) s.

(** Decimal rendering of a non-negative integer, as in [`${port}`]. *)
Fixpoint digits (d : Decimal.uint) : jsstring :=
  match d with
  | Nil => []
  | D0 d => 48 :: digits d
  | D1 d => 49 :: digits d
  | D2 d => 50 :: digits d
  | D3 d => 51 :: digits d
  | D4 d => 52 :: digits d
  | D5 d => 53 :: digits d
  | D6 d => 54 :: digits d
  | D7 d => 55 :: digits d
  | D8 d => 56 :: digits d
  | D9 d => 57 :: digits d
  end.

Definition toString (n : N) : jsstring := digits (N.to_uint n).

(** A text given line by line, each line followed by a newline. *)
Definition unlines (ls : list jsstring) : jsstring :=
  flat_map (fun l => l ++ [newline]) ls.

End JS.

Import JS.

(* ================================================================= *)
(** ** File names as bytes

    On disk a name is the UTF-8 encoding of the string that
    [readdirSync] returns.  These two functions are only used to state
    what byte-wise order means. *)

Module Utf8.

Definition is_high (u : code_unit) : bool := (0xD800 <=? u) && (u <=? 0xDBFF).
Definition is_low (u : code_unit) : bool := (0xDC00 <=? u) && (u <=? 0xDFFF).

(** Code points of a string: a surrogate pair is one code point, a lone
    surrogate is replaced by U+FFFD. *)
Fixpoint code_points (s : jsstring) : list N :=
  match s with
  | [] => []
  | u :: t =>
      match t with
      | v :: r =>
          if is_high u && is_low v
          then (0x10000 + (u - 0xD800) * 0x400 + (v - 0xDC00)) :: code_points r
          else (if is_high u || is_low u then 0xFFFD else u) :: code_points t
      | [] => [if is_high u || is_low u then 0xFFFD else u]
      end
  end.

Definition encode_point (c : N) : list N :=
  if c <? 0x80 then [c]
  else if c <? 0x800 then [0xC0 + c / 0x40; 0x80 + c mod 0x40]
  else if c <? 0x10000 then
    [0xE0 + c / 0x1000; 0x80 + (c / 0x40) mod 0x40; 0x80 + c mod 0x40]
  else
    [0xF0 + c / 0x40000; 0x80 + (c / 0x1000) mod 0x40;
     0x80 + (c / 0x40) mod 0x40; 0x80 + c mod 0x40].

Definition bytes (s : jsstring) : list N := flat_map encode_point (code_points s).

(** Byte-wise lexicographic order of two names. *)
Definition bytes_le (a b : jsstring) : Prop := JS.ltb (bytes b) (bytes a) = false.

Definition ascii_only (s : jsstring) : Prop := Forall (fun u => u < 0x80) s.

End Utf8.

(* ================================================================= *)
(** ** The working directory *)

(** What [deployCommand] can observe of an entry of [process.cwd()]. *)
Inductive node :=
| Directory (children : list jsstring)
    (** [statSync(..).isDirectory()] holds; [children] are the names [c]
        for which [existsSync(path.join(cwd, name, c))] holds *)
| NonDirectory
    (** [statSync] succeeds, [isDirectory()] is false *)
| Dangling.
    (** listed by [readdirSync], but [statSync] throws (a symbolic link
        whose target is missing) *)

(** The entries of the working directory, in the order [readdirSync]
    lists them. *)
Definition folder := list (jsstring * node).

Definition readdirSync (cwd : folder) : list jsstring := map fst cwd.

Fixpoint lookup (cwd : folder) (f : jsstring) : option node :=
  match cwd with
  | [] => None
  | (g, n) :: rest => if JS.eqb f g then Some n else lookup rest f
  end.

(** [fs.statSync(path.join(cwd, f)).isDirectory()]; [None] when it throws. *)
Definition statSync_isDirectory (cwd : folder) (f : jsstring) : option bool :=
  match lookup cwd f with
  | Some (Directory _) => Some true
  | Some NonDirectory => Some false
  | Some Dangling | None => None
  end.

(** [fs.existsSync(path.join(cwd, app, file))] *)
Definition existsSync_in (cwd : folder) (app file : jsstring) : bool :=
  match lookup cwd app with
  | Some (Directory children) => includes children file
  | _ => false
  end.

(* ================================================================= *)
(** ** Step 2: detecting apps *)

Definition system_folders : list jsstring :=
  [lit "node_modules"; lit "server-setup"; lit "_root"].

Definition is_app_entry (cwd : folder) (f : jsstring) : option bool :=
  match statSync_isDirectory cwd f with
  | None => None
  | Some isDirectory =>
      Some (isDirectory && negb (startsWith f (lit ".")) && negb (includes system_folders f))
  end.

Definition allApps (cwd : folder) : option (list jsstring) :=
  option_map JS.sort (filter_throwing (is_app_entry cwd) (readdirSync cwd)).

Definition dockerApps (cwd : folder) (allApps : list jsstring) : list jsstring :=
  filter (fun app => existsSync_in cwd app (lit "docker-compose.yml")) allApps.

Definition staticApps (allApps dockerApps : list jsstring) : list jsstring :=
  filter (fun app => negb (includes dockerApps app)) allApps.

(* ================================================================= *)
(** ** Step 7: the nginx configuration *)

(** The initial value of [nginxConfig]: the HTTP server and the server of
    the root domain. *)
Definition http_server (domain : jsstring) : list jsstring :=
  [ lit "# HTTP - ACME challenges and redirect to HTTPS";
    lit "server {";
    lit "    listen 80;";
    lit "    listen [::]:80;";
    lit "    server_name *." ++ domain ++ lit " " ++ domain ++ lit ";";
    lit "    location /.well-known/acme-challenge/ { root /var/www/acme-challenge; }";
    lit "    location / { return 301 https://\$host\$request_uri; }";
    lit "}" ].

Definition root_server (domain : jsstring) : list jsstring :=
  [ lit "# Root domain";
    lit "server {";
    lit "    listen 443 ssl http2;";
    lit "    listen [::]:443 ssl http2;";
    lit "    server_name " ++ domain ++ lit ";";
    lit "    ssl_certificate /etc/letsencrypt/live/" ++ domain ++ lit "/fullchain.pem;";
    lit "    ssl_certificate_key /etc/letsencrypt/live/" ++ domain ++ lit "/privkey.pem;";
    lit "    ssl_protocols TLSv1.2 TLSv1.3;";
    lit "    ssl_prefer_server_ciphers off;";
    lit "    root /var/www/apps/_root;";
    lit "    index index.html;";
    lit "    location / { try_files \$uri \$uri/ =404; }";
    lit "}" ].

(** The text appended for a Docker app. *)
Definition docker_server (app domain : jsstring) (port : N) : list jsstring :=
  [ [];
    lit "# Docker app - " ++ app ++ lit " -> port " ++ toString port;
    lit "server {";
    lit "    listen 443 ssl http2;";
    lit "    listen [::]:443 ssl http2;";
    lit "    server_name " ++ app ++ lit "." ++ domain ++ lit ";";
    lit "    ssl_certificate /etc/letsencrypt/live/" ++ app ++ lit "." ++ domain ++ lit "/fullchain.pem;";
    lit "    ssl_certificate_key /etc/letsencrypt/live/" ++ app ++ lit "." ++ domain ++ lit "/privkey.pem;";
    lit "    ssl_protocols TLSv1.2 TLSv1.3;";
    lit "    ssl_prefer_server_ciphers off;";
    lit "    location / {";
    lit "        proxy_pass http://127.0.0.1:" ++ toString port ++ lit ";";
    lit "        proxy_http_version 1.1;";
    lit "        proxy_set_header Upgrade \$http_upgrade;";
    lit "        proxy_set_header Connection 'upgrade';";
    lit "        proxy_set_header Host \$host;";
    lit "        proxy_set_header X-Real-IP \$remote_addr;";
    lit "        proxy_set_header X-Forwarded-For \$proxy_add_x_forwarded_for;";
    lit "        proxy_set_header X-Forwarded-Proto \$scheme;";
    lit "        proxy_cache_bypass \$http_upgrade;";
    lit "    }";
    lit "}" ].

(** The text appended for a static app. *)
Definition static_server (app domain : jsstring) : list jsstring :=
  [ [];
    lit "# Static app - " ++ app;
    lit "server {";
    lit "    listen 443 ssl http2;";
    lit "    listen [::]:443 ssl http2;";
    lit "    server_name " ++ app ++ lit "." ++ domain ++ lit ";";
    lit "    ssl_certificate /etc/letsencrypt/live/" ++ app ++ lit "." ++ domain ++ lit "/fullchain.pem;";
    lit "    ssl_certificate_key /etc/letsencrypt/live/" ++ app ++ lit "." ++ domain ++ lit "/privkey.pem;";
    lit "    ssl_protocols TLSv1.2 TLSv1.3;";
    lit "    ssl_prefer_server_ciphers off;";
    lit "    root /var/www/apps/" ++ app ++ lit ";";
    lit "    index index.html index.htm;";
    lit "    add_header X-Frame-Options " ++ [dquote] ++ lit "SAMEORIGIN" ++ [dquote] ++ lit " always;";
    lit "    add_header X-Content-Type-Options " ++ [dquote] ++ lit "nosniff" ++ [dquote] ++ lit " always;";
    lit "    gzip on;";
    lit "    gzip_types text/plain text/css application/json application/javascript text/xml application/xml;";
    lit "    location / { try_files \$uri \$uri/ /index.html =404; }";
    lit "    location ~* \.(js|css|png|jpg|jpeg|gif|ico|svg|woff|woff2|ttf|eot)$ {";
    lit "        expires 30d;";
    lit "        add_header Cache-Control " ++ [dquote] ++ lit "public, immutable" ++ [dquote] ++ lit ";";
    lit "    }";
    lit "}" ].

(** The loop over [allApps]: [nginxConfig += ...] with the running [port]. *)
Fixpoint append_servers (domain : jsstring) (dockerApps apps : list jsstring)
    (nginxConfig : jsstring) (port : N) : jsstring :=
  match apps with
  | [] => nginxConfig
  | app :: rest =>
      if includes dockerApps app
      then append_servers domain dockerApps rest
             (nginxConfig ++ unlines (docker_server app domain port)) (port + 1)
      else append_servers domain dockerApps rest
             (nginxConfig ++ unlines (static_server app domain)) port
  end.

Definition nginxConfig (domain : jsstring) (allApps dockerApps : list jsstring) : jsstring :=
  append_servers domain dockerApps allApps
    (unlines (http_server domain ++ root_server domain)) 3000.

(** The same loop, read as the sequence of [server] blocks it emits. *)
Inductive server_block :=
| Http (domain : jsstring)
| Root (domain : jsstring)
| Proxy (app domain : jsstring) (port : N)
| Static (app domain : jsstring).

Definition block_lines (b : server_block) : list jsstring :=
  match b with
  | Http domain => http_server domain
  | Root domain => root_server domain
  | Proxy app domain port => docker_server app domain port
  | Static app domain => static_server app domain
  end.

Fixpoint app_blocks (domain : jsstring) (dockerApps apps : list jsstring) (port : N)
  : list server_block :=
  match apps with
  | [] => []
  | app :: rest =>
      if includes dockerApps app
      then Proxy app domain port :: app_blocks domain dockerApps rest (port + 1)
      else Static app domain :: app_blocks domain dockerApps rest port
  end.

Definition config_blocks (domain : jsstring) (allApps dockerApps : list jsstring)
  : list server_block :=
  Http domain :: Root domain :: app_blocks domain dockerApps allApps 3000.

(** The port of each proxied app, in document order. *)
Definition proxied (bs : list server_block) : list (jsstring * N) :=
  flat_map (fun b => match b with Proxy app _ port => [(app, port)] | _ => [] end) bs.

(** The subject of an app: the name after [server_name], the name
    step 5 announces before it calls [ensure-cert.sh]. *)
Definition subject (app domain : jsstring) : jsstring := app ++ lit "." ++ domain.

(* ================================================================= *)
(** ** The commands handed to [execSync] *)

(** The remote commands [deployCommand] passes to [runSSH]. *)
Inductive remote_script :=
| ComposeUp (app : jsstring) (port : N)        (** step 3 *)
| StopOrphans                                  (** step 4 *)
| EnsureCert (app domain emailArg : jsstring)  (** step 5 *)
| FixPermissions                               (** step 6 *)
| Activate.                                    (** link, [nginx -t], reload *)

(** The commands [deployCommand] passes to [run], directly or through
    [runSSH]. *)
Inductive command :=
| Rsync (cwd sshHost : jsstring)               (** step 1 *)
| Scp (tmpConfigPath sshHost : jsstring)       (** upload of the configuration *)
| Ssh (sshHost : jsstring) (remoteCmd : remote_script).

Definition backslash : code_unit := 92.

Definition rsync_line (cwd sshHost : jsstring) : jsstring :=
  lit "rsync -avz --delete " ++ [backslash; newline] ++
  lit "    --exclude '.git' " ++ [backslash; newline] ++
  lit "    --exclude '.github' " ++ [backslash; newline] ++
  lit "    --exclude 'node_modules' " ++ [backslash; newline] ++
  lit "    --exclude '.env' " ++ [backslash; newline] ++
  lit "    --exclude '.DS_Store' " ++ [backslash; newline] ++
  lit "    -e " ++ [dquote] ++ lit "ssh -o StrictHostKeyChecking=no" ++ [dquote]
    ++ lit " " ++ [backslash; newline] ++
  lit "    " ++ [dquote] ++ cwd ++ lit "/" ++ [dquote] ++ lit " root@" ++ sshHost
    ++ lit ":/var/www/apps/".

Definition compose_up_script (app : jsstring) (port : N) : jsstring :=
  lit "cd /var/www/apps/" ++ app ++ lit " && PORT=" ++ toString port
    ++ lit " docker compose up -d --build --remove-orphans".

Definition stop_orphans_script : jsstring :=
  unlines
    [ [];
      lit "    PROJECTS=$(docker ps --format '{{.Labels}}' 2>/dev/null | grep -oP 'com.docker.compose.project=\K[^,]+' | sort -u || true)";
      lit "    for project in $PROJECTS; do";
      lit "      if [ ! -d " ++ [dquote] ++ lit "/var/www/apps/$project" ++ [dquote] ++ lit " ]; then";
      lit "        echo " ++ [dquote] ++ lit "Stopping orphaned: $project" ++ [dquote];
      lit "        docker compose -p " ++ [dquote] ++ lit "$project" ++ [dquote]
        ++ lit " down --remove-orphans 2>/dev/null || true";
      lit "      fi";
      lit "    done" ]
  ++ lit "  ".

Definition ensure_cert_script (app domain emailArg : jsstring) : jsstring :=
  lit "/usr/local/bin/ensure-cert.sh " ++ app ++ lit " " ++ domain ++ lit " " ++ emailArg.

Definition fix_permissions_script : jsstring :=
  unlines
    [ [];
      lit "    chmod 755 /etc/letsencrypt/live/ 2>/dev/null || true";
      lit "    chmod 755 /etc/letsencrypt/archive/ 2>/dev/null || true";
      lit "    find /etc/letsencrypt/archive/ -name " ++ [dquote] ++ lit "*.pem" ++ [dquote]
        ++ lit " -exec chmod 644 {} \; 2>/dev/null || true" ]
  ++ lit "  ".

Definition scp_line (tmpConfigPath sshHost : jsstring) : jsstring :=
  lit "scp -o StrictHostKeyChecking=no " ++ [dquote] ++ tmpConfigPath ++ [dquote]
    ++ lit " root@" ++ sshHost ++ lit ":/etc/nginx/sites-available/apps".

Definition activate_script : jsstring :=
  lit "ln -sf /etc/nginx/sites-available/apps /etc/nginx/sites-enabled/apps && nginx -t && systemctl reload nginx".

(** The command line [runSSH] builds from [remoteCmd]. *)
Definition ssh_line (sshHost remoteCmd : jsstring) : jsstring :=
  lit "ssh -o StrictHostKeyChecking=no root@" ++ sshHost ++ lit " "
    ++ [dquote] ++ escape_dquotes remoteCmd ++ [dquote].

Definition script_text (r : remote_script) : jsstring :=
  match r with
  | ComposeUp app port => compose_up_script app port
  | StopOrphans => stop_orphans_script
  | EnsureCert app domain emailArg => ensure_cert_script app domain emailArg
  | FixPermissions => fix_permissions_script
  | Activate => activate_script
  end.

Definition command_line (c : command) : jsstring :=
  match c with
  | Rsync cwd sshHost => rsync_line cwd sshHost
  | Scp tmpConfigPath sshHost => scp_line tmpConfigPath sshHost
  | Ssh sshHost remoteCmd => ssh_line sshHost (script_text remoteCmd)
  end.

(* ================================================================= *)
(** ** What the shell does with a double-quoted argument

    [execSync] hands its command line to [/bin/sh -c].  [runSSH] puts the
    remote command between double quotes, where the shell still performs
    parameter expansion and command substitution, and removes the
    backslash in front of a dollar sign, a backquote, a double quote or a
    backslash. *)

Module Sh.

(** The shell that interprets a text: the value of each variable (empty
    when unset) and the output of each command it may substitute. *)
Record shell := {
  getenv : jsstring -> jsstring;
  output_of : jsstring -> jsstring
}.

Definition in_range (lo hi u : code_unit) : bool := (lo <=? u) && (u <=? hi).

Definition is_name_start (u : code_unit) : bool :=
  in_range 65 90 u || in_range 97 122 u || (u =? 95).

Definition is_name_char (u : code_unit) : bool :=
  is_name_start u || in_range 48 57 u.

Inductive mode :=
| Plain
| Escaped                                  (** after a backslash *)
| Dollar                                   (** after [$] *)
| Name (acc : jsstring)                    (** inside [$name] *)
| Braced (acc : jsstring)                  (** inside [${name}] *)
| Command (depth : nat) (acc : jsstring).  (** inside [$(...)] *)

Definition plain (u : code_unit) : jsstring * mode :=
  if u =? 92 then ([], Escaped)
  else if u =? 36 then ([], Dollar)
  else ([u], Plain).

(** Expansion of the text between two double quotes.  Backquotes do not
    occur in the commands of this program and are left alone. *)
Fixpoint expand (sh : shell) (m : mode) (s : jsstring) : jsstring :=
  match s with
  | [] =>
      match m with
      | Plain => []
      | Escaped => [92]
      | Dollar => [36]
      | Name acc => getenv sh (List.rev acc)
      | Braced _ | Command _ _ => []
      end
  | u :: r =>
      match m with
      | Plain => fst (plain u) ++ expand sh (snd (plain u)) r
      | Escaped =>
          if (u =? 36) || (u =? 96) || (u =? 34) || (u =? 92)
          then u :: expand sh Plain r
          else if u =? newline then expand sh Plain r
          else 92 :: u :: expand sh Plain r
      | Dollar =>
          if u =? 40 then expand sh (Command 0 []) r
          else if u =? 123 then expand sh (Braced []) r
          else if is_name_start u then expand sh (Name [u]) r
          else 36 :: fst (plain u) ++ expand sh (snd (plain u)) r
      | Name acc =>
          if is_name_char u then expand sh (Name (u :: acc)) r
          else getenv sh (List.rev acc) ++ fst (plain u) ++ expand sh (snd (plain u)) r
      | Braced acc =>
          if u =? 125 then getenv sh (List.rev acc) ++ expand sh Plain r
          else expand sh (Braced (u :: acc)) r
      | Command depth acc =>
          if u =? 41 then
            match depth with
            | O => output_of sh (List.rev acc) ++ expand sh Plain r
            | S d => expand sh (Command d (u :: acc)) r
            end
          else if u =? 40 then expand sh (Command (S depth) (u :: acc)) r
          else expand sh (Command depth (u :: acc)) r
      end
  end.

(** Splitting at a separator; [acc] is the current piece, reversed. *)
Fixpoint split_at (sep : code_unit -> bool) (acc : jsstring) (s : jsstring)
  : list jsstring :=
  match s with
  | [] => [List.rev acc]
  | u :: r => if sep u then List.rev acc :: split_at sep [] r
              else split_at sep (u :: acc) r
  end.

Definition lines (s : jsstring) : list jsstring :=
  split_at (fun u => u =? newline) [] s.

Definition is_blank (u : code_unit) : bool :=
  (u =? 32) || (u =? 9) || (u =? newline).

(** Field splitting of an unquoted expansion. *)
Definition fields (s : jsstring) : list jsstring :=
  filter (fun f => negb (JS.eqb f [])) (split_at is_blank [] s).

Fixpoint strip_prefix (p s : jsstring) {struct p} : option jsstring :=
  match p, s with
  | [], _ => Some s
  | y :: p', x :: s' => if x =? y then strip_prefix p' s' else None
  | _ :: _, [] => None
  end.

(** The part of [s] between the prefix [pre] and the suffix [post]. *)
Definition between (pre post s : jsstring) : option jsstring :=
  match strip_prefix pre s with
  | None => None
  | Some r => option_map (@List.rev _) (strip_prefix (List.rev post) (List.rev r))
  end.

Definition join_lines (ls : list jsstring) : jsstring :=
  match ls with
  | [] => []
  | l :: ls' => l ++ flat_map (fun x => newline :: x) ls'
  end.

End Sh.

(** The text the target receives from [runSSH(sshHost, remoteCmd)]: the
    argument of [ssh], expanded by the shell of the deploying machine. *)
Definition received (local : Sh.shell) (remoteCmd : jsstring) : jsstring :=
  Sh.expand local Sh.Plain (escape_dquotes remoteCmd).

(* ================================================================= *)
(** ** Step 4 on the target *)

(** What the script of step 4 observes on the target. *)
Record docker_host := {
  compose_projects : list jsstring;
    (** the lines [docker ps ... | grep ... | sort -u] prints *)
  is_directory : jsstring -> bool
    (** [[ -d path ]] *)
}.

Definition bind (x v : jsstring) (env : jsstring -> jsstring) : jsstring -> jsstring :=
  fun y => if JS.eqb y x then v else env y.

(** The shell of the target running a text of the shape of
    [stop_orphans_script]: the list of projects given to
    [docker compose -p ... down].  [None] when the text has another shape. *)
Definition run_stop_orphans (t : docker_host) (text : jsstring) : option (list jsstring) :=
  match Sh.lines text with
  | [_; l_assign; l_for; l_if; _; l_down; _; _; _] =>
      match Sh.strip_prefix (lit "    PROJECTS=") l_assign,
            Sh.between (lit "    for project in ") (lit "; do") l_for,
            Sh.between (lit "      if [ ! -d " ++ [dquote]) ([dquote] ++ lit " ]; then") l_if,
            Sh.between (lit "        docker compose -p " ++ [dquote])
                       ([dquote] ++ lit " down --remove-orphans 2>/dev/null || true") l_down with
      | Some value, Some words, Some tested, Some stopped =>
          let sh env := {| Sh.getenv := env;
                           Sh.output_of := fun _ => Sh.join_lines (compose_projects t) |} in
          let env0 := fun _ : jsstring => @nil code_unit in
          let env1 := bind (lit "PROJECTS") (Sh.expand (sh env0) Sh.Plain value) env0 in
          Some (flat_map
                  (fun project =>
                     let env2 := bind (lit "project") project env1 in
                     if is_directory t (Sh.expand (sh env2) Sh.Plain tested)
                     then []
                     else [Sh.expand (sh env2) Sh.Plain stopped])
                  (Sh.fields (Sh.expand (sh env1) Sh.Plain words)))
      | _, _, _, _ => None
      end
  | _ => None
  end.

(** Step 4 of a deploy: the projects stopped on the target. *)
Definition stop_orphans (local : Sh.shell) (t : docker_host) : option (list jsstring) :=
  run_stop_orphans t (received local stop_orphans_script).

(** The orphan set in the words of the specification: the running
    identities absent from the desired names. *)
Definition orphan_set_spec (running desired : list jsstring) : list jsstring :=
  filter (fun p => negb (includes desired p)) running.

(** A target whose directories under [/var/www/apps] are [dirs]. *)
Definition host_with (running dirs : list jsstring) : docker_host :=
  {| compose_projects := running;
     is_directory := fun path =>
       existsb (fun d => JS.eqb path (lit "/var/www/apps/" ++ d)) dirs |}.

(** A deploying machine whose environment defines neither [PROJECTS] nor
    [project] and on which [docker ps] prints nothing. *)
Definition plain_machine : Sh.shell :=
  {| Sh.getenv := fun _ => []; Sh.output_of := fun _ => [] |}.

(* ================================================================= *)
(** ** The deploy pipeline *)

(** The nginx side of the target: the file [/etc/nginx/sites-available/apps],
    the link [/etc/nginx/sites-enabled/apps] that points to it, and the
    configuration the running nginx has loaded. *)
Record target := {
  sites_available_apps : option jsstring;
  sites_enabled_apps : bool;
  loaded : option jsstring
}.

(** Everything a run of [deployCommand] reads from its environment. *)
Record world := {
  cwd_path : jsstring;                  (** [process.cwd()] *)
  cwd : folder;                         (** its entries *)
  now : N;                              (** [Date.now()] *)
  exits_zero : command -> bool;
    (** the child process of [execSync] exits with status 0; for
        [Activate]: the ssh session is opened and [ln -sf] succeeds *)
  nginx_t : option jsstring -> bool;
    (** [nginx -t], given the content of [sites-available/apps] *)
  reload_ok : bool                      (** [systemctl reload nginx] *)
}.

Inductive event :=
| Exec (c : command) (ok : bool)
| WriteFile (path content : jsstring)
| Unlink (path : jsstring).

Record state := {
  trace : list event;                      (** what the run did, oldest first *)
  tmp : list (jsstring * jsstring);        (** local files under [/tmp] *)
  server : target
}.

(** How a computation ends: normally, through [process.exit(code)], or
    with an uncaught exception. *)
Inductive result (A : Type) :=
| Returned (a : A)
| Exited (code : N)
| Uncaught.
Arguments Returned {A} a.
Arguments Exited {A} code.
Arguments Uncaught {A}.

Definition M (A : Type) : Type := state -> result A * state.

Definition ret {A} (a : A) : M A := fun s => (Returned a, s).

Definition bindM {A B} (m : M A) (k : A -> M B) : M B :=
  fun s =>
    match m s with
    | (Returned a, s') => k a s'
    | (Exited code, s') => (Exited code, s')
    | (Uncaught, s') => (Uncaught, s')
    end.

Notation "x <- m ;; k" := (bindM m (fun x => k))
  (at level 61, m at next level, right associativity).
Notation "m ;; k" := (bindM m (fun _ => k))
  (at level 61, right associativity).

Definition process_exit {A} (code : N) : M A := fun s => (Exited code, s).
Definition throw {A} : M A := fun s => (Uncaught, s).

Definition log (e : event) (s : state) : state :=
  {| trace := trace s ++ [e]; tmp := tmp s; server := server s |}.

Definition with_server (t : target) (s : state) : state :=
  {| trace := trace s; tmp := tmp s; server := t |}.

Fixpoint read_file (files : list (jsstring * jsstring)) (path : jsstring)
  : option jsstring :=
  match files with
  | [] => None
  | (p, content) :: rest => if JS.eqb path p then Some content else read_file rest path
  end.

(** The effect of a command on the target, and whether it succeeds. *)
Definition effect (w : world) (c : command) (s : state) : bool * target :=
  let t := server s in
  match c with
  | Scp tmpConfigPath _ =>
      match read_file (tmp s) tmpConfigPath with
      | Some content =>
          if exits_zero w c
          then (true, {| sites_available_apps := Some content;
                         sites_enabled_apps := sites_enabled_apps t;
                         loaded := loaded t |})
          else (false, t)
      | None => (false, t)
      end
  | Ssh _ Activate =>
      if exits_zero w c then
        let linked := {| sites_available_apps := sites_available_apps t;
                         sites_enabled_apps := true;
                         loaded := loaded t |} in
        if nginx_t w (sites_available_apps t) then
          if reload_ok w
          then (true, {| sites_available_apps := sites_available_apps t;
                         sites_enabled_apps := true;
                         loaded := sites_available_apps t |})
          else (false, linked)
        else (false, linked)
      else (false, t)
  | _ => (exits_zero w c, t)
  end.

(** [execSync(cmd, ...)]: [true] when it returns, [false] when it throws. *)
Definition execSync (w : world) (c : command) (s : state) : bool * state :=
  let (ok, t) := effect w c s in
  (ok, with_server t (log (Exec c ok) s)).

(** [run(cmd, { allowFail })] *)
Definition run (w : world) (c : command) (allowFail : bool) : M unit :=
  fun s =>
    let (ok, s') := execSync w c s in
    if ok then (Returned tt, s')
    else if allowFail then (Returned tt, s')
    else (Exited 1, s').

(** [runSSH(sshHost, remoteCmd, { allowFail })] *)
Definition runSSH (w : world) (sshHost : jsstring) (remoteCmd : remote_script)
    (allowFail : bool) : M unit :=
  run w (Ssh sshHost remoteCmd) allowFail.

Definition writeFileSync (path content : jsstring) : M unit :=
  fun s => (Returned tt,
            {| trace := trace s ++ [WriteFile path content];
               tmp := (path, content) :: tmp s;
               server := server s |}).

Definition unlinkSync (path : jsstring) : M unit :=
  fun s => (Returned tt,
            {| trace := trace s ++ [Unlink path];
               tmp := filter (fun f => negb (JS.eqb path (fst f))) (tmp s);
               server := server s |}).

(** [a || b] on strings that may be [null]. *)
Definition or_else (a : option jsstring) (b : jsstring) : jsstring :=
  match a with
  | Some (u :: r) => u :: r
  | _ => b
  end.

(** Step 3: the loop over [dockerApps]. *)
Fixpoint start_containers (w : world) (sshHost : jsstring)
    (dockerApps : list jsstring) (port : N) : M unit :=
  match dockerApps with
  | [] => ret tt
  | app :: rest =>
      runSSH w sshHost (ComposeUp app port) true ;;
      start_containers w sshHost rest (port + 1)
  end.

(** Step 5: the loop over [allApps]. *)
Fixpoint issue_certificates (w : world) (sshHost domain emailArg : jsstring)
    (allApps : list jsstring) : M unit :=
  match allApps with
  | [] => ret tt
  | app :: rest =>
      runSSH w sshHost (EnsureCert app domain emailArg) true ;;
      issue_certificates w sshHost domain emailArg rest
  end.

Definition tmpConfigPath (w : world) : jsstring :=
  lit "/tmp/nginx-apps-" ++ toString (now w) ++ lit ".conf".

Definition deployCommand (w : world) (domain server email : option jsstring) : M unit :=
  match domain with
  | None | Some [] => process_exit 1
  | Some domain =>
      let sshHost := or_else server domain in
      let emailArg := or_else email [] in
      (* Step 1 *)
      run w (Rsync (cwd_path w) sshHost) false ;;
      (* Step 2 *)
      match allApps (cwd w) with
      | None => throw
      | Some allApps =>
          let dockerApps := dockerApps (cwd w) allApps in
          (* Step 3 *)
          start_containers w sshHost dockerApps 3000 ;;
          (* Step 4 *)
          runSSH w sshHost StopOrphans true ;;
          (* Step 5 *)
          issue_certificates w sshHost domain emailArg allApps ;;
          (* Step 6 *)
          runSSH w sshHost FixPermissions false ;;
          (* Step 7 *)
          let nginxConfig := nginxConfig domain allApps dockerApps in
          writeFileSync (tmpConfigPath w) nginxConfig ;;
          run w (Scp (tmpConfigPath w) sshHost) false ;;
          unlinkSync (tmpConfigPath w) ;;
          runSSH w sshHost Activate false
      end
  end.

(** A run from a given state of the target. *)
Definition initial (t : target) : state :=
  {| trace := []; tmp := []; server := t |}.

Definition deploy (w : world) (domain server email : option jsstring) (t : target)
  : result unit * state :=
  deployCommand w domain server email (initial t).

(** ** Reading a trace *)

Definition executed (s : state) : list command :=
  flat_map (fun e => match e with Exec c _ => [c] | _ => [] end) (trace s).

(** The containers started, with the port each was given. *)
Definition started (s : state) : list (jsstring * N) :=
  flat_map (fun c => match c with Ssh _ (ComposeUp app port) => [(app, port)] | _ => [] end)
           (executed s).

(** The subjects for which certificate issuance was invoked. *)
Definition issued (s : state) : list jsstring :=
  flat_map (fun c => match c with
                     | Ssh _ (EnsureCert app domain _) => [subject app domain]
                     | _ => []
                     end)
           (executed s).

(** The documents written by step 7. *)
Definition rendered (s : state) : list jsstring :=
  flat_map (fun e => match e with WriteFile _ content => [content] | _ => [] end) (trace s).



(* ================================================================= *)
(** ** Vocabulary of the statements *)

(** A list paired with consecutive ports. *)
Fixpoint ports_from {A} (port : N) (l : list A) : list (A * N) :=
  match l with
  | [] => []
  | a :: r => (a, port) :: ports_from (port + 1) r
  end.

(** The text of a sequence of blocks. *)
Definition render (bs : list server_block) : jsstring :=
  flat_map (fun b => unlines (block_lines b)) bs.

(** The app a block was emitted for. *)
Definition app_of (b : server_block) : option jsstring :=
  match b with
  | Proxy app _ _ | Static app _ => Some app
  | Http _ | Root _ => None
  end.


(** Number of lines of a text that pass the test [p]. *)
Definition count (p : jsstring -> bool) (text : jsstring) : nat :=
  length (filter p (Sh.lines text)).

Definition one_line (s : jsstring) : Prop := ~ In newline s.

(** Order of the code units, the order of [sort]. *)
Definition units_le (a b : jsstring) : Prop := JS.ltb b a = false.

(** An entry of the working directory that step 2 keeps. *)
Definition app_directory (cwd : folder) (f : jsstring) : Prop :=
  (exists children, In (f, Directory children) cwd)
  /\ startsWith f (lit ".") = false
  /\ ~ In f system_folders.

(** The test of the [filter] callback of step 2, once [statSync] has
    returned. *)
Definition kept (cwd : folder) (f : jsstring) : bool :=
  match is_app_entry cwd f with Some b => b | None => false end.

Definition stattable (cwd : folder) : Prop :=
  forall f, ~ In (f, Dangling) cwd.

(** The events of steps 1 to 5 of a run that got past app detection. *)
Definition steps_1_to_5 (w : world) (sshHost domain emailArg : jsstring)
    (allApps dockerApps : list jsstring) : list event :=
  Exec (Rsync (cwd_path w) sshHost) true
  :: map (fun ap => Exec (Ssh sshHost (ComposeUp (fst ap) (snd ap)))
                         (exits_zero w (Ssh sshHost (ComposeUp (fst ap) (snd ap)))))
         (ports_from 3000 dockerApps)
  ++ Exec (Ssh sshHost StopOrphans) (exits_zero w (Ssh sshHost StopOrphans))
  :: map (fun app => Exec (Ssh sshHost (EnsureCert app domain emailArg))
                          (exits_zero w (Ssh sshHost (EnsureCert app domain emailArg))))
         allApps.

(** A command that leaves the nginx side of the target alone. *)
Definition plain_command (c : command) : bool :=
  match c with
  | Scp _ _ | Ssh _ Activate => false
  | _ => true
  end.

(** The state of a run that has gone through [events]. *)
Definition after (events : list event) (files : list (jsstring * jsstring))
    (t : target) : state :=
  {| trace := events; tmp := files; server := t |}.

(** The target once a run has uploaded [doc] and run the activation
    command. *)
Definition activated (w : world) (sshHost doc : jsstring) (t : target) : target :=
  if exits_zero w (Ssh sshHost Activate) then
    {| sites_available_apps := Some doc;
       sites_enabled_apps := true;
       loaded := if nginx_t w (Some doc) && reload_ok w then Some doc else loaded t |}
  else
    {| sites_available_apps := Some doc;
       sites_enabled_apps := sites_enabled_apps t;
       loaded := loaded t |}.

(** Every run of [deployCommand] in closed form: where it stops, what it
    has done by then, and the state of the target it leaves. *)
Definition summary (w : world) (domain srv email : option jsstring) (t : target)
  : result unit * state :=
  match domain with
  | None | Some [] => (Exited 1, initial t)
  | Some domain =>
      let sshHost := or_else srv domain in
      let emailArg := or_else email [] in
      if exits_zero w (Rsync (cwd_path w) sshHost) then
        match allApps (cwd w) with
        | None => (Uncaught, after [Exec (Rsync (cwd_path w) sshHost) true] [] t)
        | Some apps =>
            let docker := dockerApps (cwd w) apps in
            let doc := nginxConfig domain apps docker in
            let path := tmpConfigPath w in
            let front := steps_1_to_5 w sshHost domain emailArg apps docker in
            if exits_zero w (Ssh sshHost FixPermissions) then
              if exits_zero w (Scp path sshHost) then
                let activation :=
                  exits_zero w (Ssh sshHost Activate) && nginx_t w (Some doc) && reload_ok w in
                (if activation then Returned tt else Exited 1,
                 after (front ++ [Exec (Ssh sshHost FixPermissions) true;
                                  WriteFile path doc;
                                  Exec (Scp path sshHost) true;
                                  Unlink path;
                                  Exec (Ssh sshHost Activate) activation])
                       [] (activated w sshHost doc t))
              else
                (Exited 1,
                 after (front ++ [Exec (Ssh sshHost FixPermissions) true;
                                  WriteFile path doc;
                                  Exec (Scp path sshHost) false])
                       [(path, doc)] t)
            else
              (Exited 1,
               after (front ++ [Exec (Ssh sshHost FixPermissions) false]) [] t)
        end
      else (Exited 1, after [Exec (Rsync (cwd_path w) sshHost) false] [] t)
  end.

(* ================================================================= *)
(** ** Concrete inputs *)

Module Ex.

Definition example_com : jsstring := lit "example.com".

Definition compose : node := Directory [lit "docker-compose.yml"; lit "Dockerfile"].
Definition site : node := Directory [lit "index.html"].

(** The layout of the README: [abc], [myapi] and [xyz] are Docker apps,
    [blog] is static. *)
Definition readme_folder : folder :=
  [ (lit "xyz", compose);
    (lit ".git", Directory [lit "HEAD"]);
    (lit "blog", site);
    (lit "README.md", NonDirectory);
    (lit "_root", site);
    (lit "abc", compose);
    (lit "node_modules", Directory []);
    (lit "myapi", compose) ].

(** One static app. *)
Definition blog_folder : folder := [ (lit "blog", site); (lit "README.md", NonDirectory) ].

(** Two directories, named U+FF21 and U+1F600. *)
Definition fullwidth_A : jsstring := [0xFF21].
Definition grinning_face : jsstring := [0xD83D; 0xDE00].
Definition unicode_folder : folder := [ (fullwidth_A, site); (grinning_face, site) ].


Definition old_config : jsstring := unlines [lit "# previous deploy"].

Definition world_of (cwd : folder) (now : N) (exits_zero : command -> bool)
    (nginx_t : option jsstring -> bool) : world :=
  {| cwd_path := lit "/home/me/sites"; cwd := cwd; now := now;
     exits_zero := exits_zero; nginx_t := nginx_t; reload_ok := true |}.

(** Every command succeeds. *)
Definition calm (cwd : folder) : world :=
  world_of cwd 1700000000000 (fun _ => true) (fun _ => true).

(** Every command succeeds; [nginx -t] accepts the configuration of the
    previous deploy and no other. *)
Definition invalid_config (cwd : folder) : world :=
  world_of cwd 1700000000000 (fun _ => true)
    (fun file => match file with
                 | Some text => JS.eqb text old_config
                 | None => false
                 end).

(** The ssh session of step 6 cannot be opened. *)
Definition step6_unreachable (cwd : folder) : world :=
  world_of cwd 1700000000000
    (fun c => match c with Ssh _ FixPermissions => false | _ => true end)
    (fun _ => true).

(** Certificate issuance fails for [myapi], a container fails to start,
    at another time of day. *)
Definition flaky (cwd : folder) : world :=
  world_of cwd 1700000123456
    (fun c => match c with
              | Ssh _ (EnsureCert app _ _) => negb (JS.eqb app (lit "myapi"))
              | Ssh _ (ComposeUp app _) => negb (JS.eqb app (lit "xyz"))
              | _ => true
              end)
    (fun _ => true).


(** A target that has been deployed to before. *)
Definition deployed_before : target :=
  {| sites_available_apps := Some old_config;
     sites_enabled_apps := true;
     loaded := Some old_config |}.

(** A freshly set-up target. *)
Definition fresh : target :=
  {| sites_available_apps := None; sites_enabled_apps := false; loaded := None |}.

End Ex.

(* ================================================================= *)
(** ** The command line *)

(** [if (x)] on a string that may be [null]: neither [null] nor empty. *)
Definition truthy (x : option jsstring) : bool :=
  match x with
  | Some (_ :: _) => true
  | _ => false
  end.

Module Cli.

(** The object [parseArgs] returns. *)
Record parsed := {
  command : option jsstring;
  domain : option jsstring;
  server : option jsstring;
  email : option jsstring
}.

Definition set_command (c : jsstring) (result : parsed) : parsed :=
  {| command := Some c; domain := domain result;
     server := server result; email := email result |}.

Definition set_domain (v : jsstring) (result : parsed) : parsed :=
  {| command := command result; domain := Some v;
     server := server result; email := email result |}.

Definition set_server (v : jsstring) (result : parsed) : parsed :=
  {| command := command result; domain := domain result;
     server := Some v; email := email result |}.

Definition set_email (v : jsstring) (result : parsed) : parsed :=
  {| command := command result; domain := domain result;
     server := server result; email := Some v |}.

Definition is_command_word (arg : jsstring) : bool :=
  JS.eqb arg (lit "setup") || JS.eqb arg (lit "deploy")
  || JS.eqb arg (lit "github-workflow") || JS.eqb arg (lit "gh")
  || JS.eqb arg (lit "automate").

Definition canonical (arg : jsstring) : jsstring :=
  if JS.eqb arg (lit "gh") || JS.eqb arg (lit "automate")
  then lit "github-workflow" else arg.

Definition is_help (arg : jsstring) : bool :=
  JS.eqb arg (lit "--help") || JS.eqb arg (lit "-h").

(** The loop of [parseArgs] from the current argument on.  [value] is
    [args[i + 1]]; an option that takes it skips it ([++i]). *)
Fixpoint scan (args : list jsstring) (result : parsed) : parsed :=
  match args with
  | [] => result
  | arg :: rest =>
      if is_command_word arg then scan rest (set_command (canonical arg) result)
      else
        match rest with
        | value :: after =>
            if JS.eqb arg (lit "--domain") && truthy (Some value)
            then scan after (set_domain value result)
            else if JS.eqb arg (lit "--server") && truthy (Some value)
            then scan after (set_server value result)
            else if JS.eqb arg (lit "--email") && truthy (Some value)
            then scan after (set_email value result)
            else if is_help arg then scan rest (set_command (lit "help") result)
            else scan rest result
        | [] =>
            if is_help arg then set_command (lit "help") result else result
        end
  end.

Definition parseArgs (args : list jsstring) : parsed :=
  scan args {| command := None; domain := None; server := None; email := None |}.

(** What the main block does with [process.argv.slice(2)]: the function
    it calls and the arguments it passes. *)
Inductive invocation :=
| ShowHelp
| Setup (domain server email : option jsstring)
| Deploy (domain server email : option jsstring)
| GithubWorkflow (domain server email : option jsstring)
| UnknownCommand (command : jsstring).
    (** the last branch: error message, help, [process.exit(1)] *)

Definition main (argv : list jsstring) : invocation :=
  let args := parseArgs argv in
  match command args with
  | None | Some [] => ShowHelp
  | Some c =>
      if JS.eqb c (lit "help") then ShowHelp
      else if JS.eqb c (lit "setup")
      then Setup (domain args) (server args) (email args)
      else if JS.eqb c (lit "deploy")
      then Deploy (domain args) (server args) (email args)
      else if JS.eqb c (lit "github-workflow")
      then GithubWorkflow (domain args) (server args) (email args)
      else UnknownCommand c
  end.

(** An argument that makes the option before it take it as its value. *)
Definition takes_value (arg : jsstring) : bool :=
  JS.eqb arg (lit "--domain") || JS.eqb arg (lit "--server") || JS.eqb arg (lit "--email").

End Cli.

(* ================================================================= *)
(** ** The files of the repository being set up *)

Module Fs.

Inductive inode :=
| IsFile (content : jsstring)
| IsDir.

(** What is found at each path, relative to the working directory. *)
Definition files := jsstring -> option inode.

Definition existsSync (fs : files) (p : jsstring) : bool :=
  match fs p with
  | Some _ => true
  | None => false
  end.

Definition put (p : jsstring) (n : inode) (fs : files) : files :=
  fun q => if JS.eqb q p then Some n else fs q.

Definition slash : code_unit := 47.

(** What follows the first slash of a reversed path. *)
Fixpoint after_slash (reversed : jsstring) : option jsstring :=
  match reversed with
  | [] => None
  | u :: r => if u =? slash then Some r else after_slash r
  end.

(** [path.dirname(p)] for a relative path that ends in a name. *)
Definition dirname (p : jsstring) : jsstring :=
  match after_slash (List.rev p) with
  | Some r => List.rev r
  | None => lit "."
  end.

(** The directories on the way to [p], outermost first, [p] included;
    [acc] is the part of the path already read, reversed. *)
Fixpoint ancestors (acc p : jsstring) : list jsstring :=
  match p with
  | [] => [List.rev acc]
  | u :: r =>
      if u =? slash then List.rev acc :: ancestors (u :: acc) r
      else ancestors (u :: acc) r
  end.

Fixpoint make_dirs (ps : list jsstring) (fs : files) : files * bool :=
  match ps with
  | [] => (fs, true)
  | p :: r =>
      match fs p with
      | Some (IsFile _) => (fs, false)
      | Some IsDir => make_dirs r fs
      | None => make_dirs r (put p IsDir fs)
      end
  end.

(** [fs.mkdirSync(p, { recursive: true })]: the files afterwards, and
    [false] when it throws (a file stands where a directory is needed). *)
Definition mkdirSync_recursive (p : jsstring) (fs : files) : files * bool :=
  make_dirs (ancestors [] p) fs.

(** [fs.writeFileSync(p, content)]; [None] when it throws: the directory
    of [p] is missing or is a file, or [p] is a directory. *)
Definition writeFileSync (p content : jsstring) (fs : files) : option files :=
  match fs (dirname p) with
  | Some IsDir =>
      match fs p with
      | Some IsDir => None
      | _ => Some (put p (IsFile content) fs)
      end
  | _ => None
  end.

End Fs.

(* ================================================================= *)
(** ** The [github-workflow] command *)

Definition WORKFLOW_PATH : jsstring := lit ".github/workflows/deploy.yml".

Definition generateWorkflow (domain : jsstring) (server email : option jsstring) : jsstring :=
  let serverLine :=
    if truthy server
    then lit "server: ${{ secrets.SERVER || '" ++ or_else server [] ++ lit "' }}"
    else lit "server: ${{ secrets.SERVER || '' }}" in
  let emailLine :=
    if truthy email
    then lit "letsencrypt_email: ${{ secrets.LETSENCRYPT_EMAIL || '" ++ or_else email []
           ++ lit "' }}"
    else lit "letsencrypt_email: ${{ secrets.LETSENCRYPT_EMAIL || '' }}" in
  unlines
    [ lit "name: Deploy";
      lit "on:";
      lit "  push:";
      lit "    branches:";
      lit "      - main";
      lit "  workflow_dispatch:";
      [];
      lit "jobs:";
      lit "  deploy:";
      lit "    runs-on: ubuntu-latest";
      lit "    steps:";
      lit "      - uses: actions/checkout@v4";
      lit "      - uses: dvassallo/nobrainer.host@v1";
      lit "        with:";
      lit "          domain: ${{ secrets.DOMAIN || '" ++ domain ++ lit "' }}";
      lit "          " ++ serverLine;
      lit "          deploy_key: ${{ secrets.DEPLOY_KEY }}";
      lit "          " ++ emailLine ].

(** The calls of [console.log] and [console.error], with the values they
    interpolate. *)
Inductive output :=
| DomainRequired                       (** [Error: --domain is required] *)
| DomainAndEmailRequired               (** [Error: --domain and --email are required] *)
| Usage                                (** the usage line of the command *)
| CreatedDirectory (dir : jsstring)
| UpdatedFile (path : jsstring)
| CreatedFile (path : jsstring)
| NextSteps (domain server email sshHost : jsstring)
    (** the configuration and the next steps *)
| NextStepsInit (domain email : jsstring).
    (** the same, as [init] prints them *)

(** The outcome of a command that works on the repository: how it ends,
    the files it leaves and what it printed. *)
Record outcome := {
  ended : result unit;
  files_left : Fs.files;
  printed : list output
}.

Definition githubWorkflowCommand (domain server email : option jsstring) (fs : Fs.files)
  : outcome :=
  match domain with
  | None | Some [] =>
      {| ended := Exited 1; files_left := fs; printed := [DomainRequired; Usage] |}
  | Some domain =>
      let sshHost := or_else server domain in
      let workflowDir := Fs.dirname WORKFLOW_PATH in
      let made :=
        if Fs.existsSync fs workflowDir then (fs, true, [])
        else (Fs.mkdirSync_recursive workflowDir fs, [CreatedDirectory workflowDir]) in
      match made with
      | (fs1, false, _) => {| ended := Uncaught; files_left := fs1; printed := [] |}
      | (fs1, true, out1) =>
          let exists_ := Fs.existsSync fs1 WORKFLOW_PATH in
          let workflow := generateWorkflow domain server email in
          match Fs.writeFileSync WORKFLOW_PATH workflow fs1 with
          | None => {| ended := Uncaught; files_left := fs1; printed := out1 |}
          | Some fs2 =>
              {| ended := Returned tt;
                 files_left := fs2;
                 printed := out1
                   ++ [ if exists_ then UpdatedFile WORKFLOW_PATH
                        else CreatedFile WORKFLOW_PATH;
                        NextSteps domain (or_else server (lit "(using domain)"))
                          (or_else email (lit "(not set)")) sshHost ] |}
          end
      end
  end.

(* ================================================================= *)
(** ** The [setup] command *)

(** The two commands [setupCommand] runs. *)
Inductive setup_step :=
| CopySetupFiles (setupScript nginxConf server : jsstring)
| RunSetupScript (server domain emailArg : jsstring).

(** [path.join(root, a, b)] for a resolved [root]. *)
Definition join3 (root a b : jsstring) : jsstring :=
  (if JS.eqb root (lit "/") then [] else root) ++ lit "/" ++ a ++ lit "/" ++ b.

Definition setup_line (c : setup_step) : jsstring :=
  match c with
  | CopySetupFiles setupScript nginxConf server =>
      lit "scp -o StrictHostKeyChecking=no " ++ [dquote] ++ setupScript ++ [dquote]
        ++ lit " " ++ [dquote] ++ nginxConf ++ [dquote]
        ++ lit " root@" ++ server ++ lit ":/tmp/"
  | RunSetupScript server domain emailArg =>
      ssh_line server
        (lit "chmod +x /tmp/setup.sh && /tmp/setup.sh " ++ domain ++ lit " " ++ emailArg)
  end.

(** What [setupCommand] reads from its environment: the root of the
    installed package, whether [server-setup/setup.sh] is found there,
    and the exit status of each command. *)
Record setup_world := {
  moduleRoot : jsstring;
  has_setup_script : bool;
  setup_exits_zero : setup_step -> bool
}.

(** [run(cmd)] followed by the rest of the function; [done] are the
    commands already run, with their outcome. *)
Definition run_then (sw : setup_world) (c : setup_step)
    (done : list (setup_step * bool))
    (rest : list (setup_step * bool) -> result unit * list (setup_step * bool))
  : result unit * list (setup_step * bool) :=
  if setup_exits_zero sw c then rest (done ++ [(c, true)])
  else (Exited 1, done ++ [(c, false)]).

Definition setupCommand (sw : setup_world) (domain server email : option jsstring)
  : result unit * list (setup_step * bool) :=
  if negb (truthy domain) then (Exited 1, [])
  else if negb (truthy server) then (Exited 1, [])
  else
    let domain := or_else domain [] in
    let server := or_else server [] in
    let emailArg := or_else email [] in
    let setupScript := join3 (moduleRoot sw) (lit "server-setup") (lit "setup.sh") in
    let nginxConf := join3 (moduleRoot sw) (lit "server-setup") (lit "nginx-apps.conf") in
    if negb (has_setup_script sw) then (Exited 1, [])
    else
      run_then sw (CopySetupFiles setupScript nginxConf server) []
        (fun done =>
           run_then sw (RunSetupScript server domain emailArg) done
             (fun done => (Returned tt, done))).

(* ================================================================= *)
(** ** The [init] command line (the first [cli.js]) *)

Module Init.

Record parsed := {
  command : option jsstring;
  domain : option jsstring;
  email : option jsstring
}.

Definition set_command (c : jsstring) (result : parsed) : parsed :=
  {| command := Some c; domain := domain result; email := email result |}.

Definition set_domain (v : jsstring) (result : parsed) : parsed :=
  {| command := command result; domain := Some v; email := email result |}.

Definition set_email (v : jsstring) (result : parsed) : parsed :=
  {| command := command result; domain := domain result; email := Some v |}.

Fixpoint scan (args : list jsstring) (result : parsed) : parsed :=
  match args with
  | [] => result
  | arg :: rest =>
      if JS.eqb arg (lit "init") then scan rest (set_command (lit "init") result)
      else
        match rest with
        | value :: after =>
            if JS.eqb arg (lit "--domain") && truthy (Some value)
            then scan after (set_domain value result)
            else if JS.eqb arg (lit "--email") && truthy (Some value)
            then scan after (set_email value result)
            else if Cli.is_help arg then scan rest (set_command (lit "help") result)
            else scan rest result
        | [] =>
            if Cli.is_help arg then set_command (lit "help") result else result
        end
  end.

Definition parseArgs (args : list jsstring) : parsed :=
  scan args {| command := None; domain := None; email := None |}.

Inductive invocation :=
| ShowHelp
| RunInit (domain email : option jsstring)
| UnknownCommand (command : jsstring).

Definition main (argv : list jsstring) : invocation :=
  let args := parseArgs argv in
  match command args with
  | None | Some [] => ShowHelp
  | Some c =>
      if JS.eqb c (lit "help") then ShowHelp
      else if JS.eqb c (lit "init") then RunInit (domain args) (email args)
      else UnknownCommand c
  end.

Definition generateWorkflow (domain email : jsstring) : jsstring :=
  unlines
    [ lit "name: Deploy";
      lit "on:";
      lit "  push:";
      lit "    branches:";
      lit "      - main";
      lit "  workflow_dispatch:";
      [];
      lit "jobs:";
      lit "  deploy:";
      lit "    runs-on: ubuntu-latest";
      lit "    steps:";
      lit "      - uses: actions/checkout@v4";
      lit "      - uses: dvassallo/nobrainer.host@v1";
      lit "        with:";
      lit "          domain: ${{ secrets.DOMAIN || '" ++ domain ++ lit "' }}";
      lit "          deploy_key: ${{ secrets.DEPLOY_KEY }}";
      lit "          letsencrypt_email: ${{ secrets.LETSENCRYPT_EMAIL || '" ++ email
        ++ lit "' }}" ].

Definition init (domain email : option jsstring) (fs : Fs.files) : outcome :=
  if negb (truthy domain) || negb (truthy email) then
    {| ended := Exited 1; files_left := fs; printed := [DomainAndEmailRequired; Usage] |}
  else
    let domain := or_else domain [] in
    let email := or_else email [] in
    let workflowDir := Fs.dirname WORKFLOW_PATH in
    let made :=
      if Fs.existsSync fs workflowDir then (fs, true, [])
      else (Fs.mkdirSync_recursive workflowDir fs, [CreatedDirectory workflowDir]) in
    match made with
    | (fs1, false, _) => {| ended := Uncaught; files_left := fs1; printed := [] |}
    | (fs1, true, out1) =>
        let exists_ := Fs.existsSync fs1 WORKFLOW_PATH in
        let workflow := generateWorkflow domain email in
        match Fs.writeFileSync WORKFLOW_PATH workflow fs1 with
        | None => {| ended := Uncaught; files_left := fs1; printed := out1 |}
        | Some fs2 =>
            {| ended := Returned tt;
               files_left := fs2;
               printed := out1
                 ++ [ if exists_ then UpdatedFile WORKFLOW_PATH
                      else CreatedFile WORKFLOW_PATH;
                      NextStepsInit domain email ] |}
        end
    end.

End Init.

(* ================================================================= *)
(** ** Vocabulary of the further statements *)

(** [v] is the argument that directly follows an occurrence of [flag]. *)
Definition follows (flag v : jsstring) (argv : list jsstring) : Prop :=
  exists before after, argv = before ++ flag :: v :: after.

(** The last argument, when there is one, is no option waiting for its
    value. *)
Definition complete (argv : list jsstring) : Prop :=
  match List.rev argv with
  | [] => True
  | last :: _ => Cli.takes_value last = false
  end.

Definition known_commands : list (option jsstring) :=
  [None; Some (lit "setup"); Some (lit "deploy"); Some (lit "github-workflow");
   Some (lit "help")].

(** What [Cli.scan] keeps true of the object it fills: the command is a
    known one, and an option holds a non-empty argument that directly
    follows its flag among the arguments read so far. *)
Definition filled (seen : list jsstring) (result : Cli.parsed) : Prop :=
  In (Cli.command result) known_commands
  /\ (forall v, Cli.domain result = Some v -> v <> [] /\ follows (lit "--domain") v seen)
  /\ (forall v, Cli.server result = Some v -> v <> [] /\ follows (lit "--server") v seen)
  /\ (forall v, Cli.email result = Some v -> v <> [] /\ follows (lit "--email") v seen).

Definition github_dir : jsstring := lit ".github".
Definition workflows_dir : jsstring := lit ".github/workflows".

(** Nothing stands in the way of [.github/workflows/deploy.yml]: no
    file where one of its directories has to be, no directory in its
    place. *)
Definition unobstructed (fs : Fs.files) : bool :=
  match fs WORKFLOW_PATH with
  | Some Fs.IsDir => false
  | _ =>
      match fs workflows_dir with
      | Some (Fs.IsFile _) => false
      | Some Fs.IsDir => true
      | None =>
          match fs github_dir with
          | Some (Fs.IsFile _) => false
          | _ => true
          end
      end
  end.

(** A command left [p] as it was, or made the directory that was
    missing there. *)
Definition kept_or_made (before after : Fs.files) (p : jsstring) : Prop :=
  after p = before p
  \/ (before p = None /\ after p = Some Fs.IsDir
      /\ (p = github_dir \/ p = workflows_dir)).

(** What is left once the directory of the workflow is there: the file
    is written unless a directory stands in its place. *)
Definition finish_workflow (workflow : jsstring) (last : output) (fs : Fs.files)
    (out : list output) : outcome :=
  match fs WORKFLOW_PATH with
  | Some Fs.IsDir => {| ended := Uncaught; files_left := fs; printed := out |}
  | found =>
      {| ended := Returned tt;
         files_left := Fs.put WORKFLOW_PATH (Fs.IsFile workflow) fs;
         printed := out ++ [ match found with
                             | Some _ => UpdatedFile WORKFLOW_PATH
                             | None => CreatedFile WORKFLOW_PATH
                             end; last ] |}
  end.

(** The outcome of [githubWorkflowCommand] and of [init], once their
    arguments are accepted, in closed form. *)
Definition writes_workflow (workflow : jsstring) (last : output) (fs : Fs.files)
  : outcome :=
  match fs workflows_dir with
  | Some (Fs.IsFile _) => {| ended := Uncaught; files_left := fs; printed := [] |}
  | Some Fs.IsDir => finish_workflow workflow last fs []
  | None =>
      match fs github_dir with
      | Some (Fs.IsFile _) => {| ended := Uncaught; files_left := fs; printed := [] |}
      | Some Fs.IsDir =>
          finish_workflow workflow last (Fs.put workflows_dir Fs.IsDir fs)
            [CreatedDirectory workflows_dir]
      | None =>
          finish_workflow workflow last
            (Fs.put workflows_dir Fs.IsDir (Fs.put github_dir Fs.IsDir fs))
            [CreatedDirectory workflows_dir]
      end
  end.

Module Sample.

(** A repository without a [.github] directory. *)
Definition bare : Fs.files :=
  fun p => if JS.eqb p (lit "README.md") then Some (Fs.IsFile (lit "# sites")) else None.

Definition server_ip : jsstring := lit "203.0.113.7".
Definition mail : jsstring := lit "me@example.com".

(** An installed package with its setup files; both commands succeed. *)
Definition installed : setup_world :=
  {| moduleRoot := lit "/usr/lib/node_modules/nobrainer.host";
     has_setup_script := true;
     setup_exits_zero := fun _ => true |}.

End Sample.

(** What [Init.scan] keeps true of the object it fills. *)
Definition init_filled (result : Init.parsed) : Prop :=
  In (Init.command result) [None; Some (lit "init"); Some (lit "help")]
  /\ (forall v, Init.domain result = Some v -> v <> [])
  /\ (forall v, Init.email result = Some v -> v <> []).

(** A text the shell leaves as it is between double quotes: no dollar
    sign and no backquote, and a backslash only in front of a code unit
    in front of which the shell keeps it. *)
Fixpoint quiet (s : jsstring) : bool :=
  match s with
  | [] => true
  | u :: r =>
      if u =? 92 then
        match r with
        | [] => false
        | v :: r' =>
            negb ((v =? 36) || (v =? 96) || (v =? 34) || (v =? 92) || (v =? newline))
            && quiet r'
        end
      else negb ((u =? 36) || (u =? 96)) && quiet r
  end.

(** The pieces of a remote command that come from the working directory
    and the command line. *)
Definition names_of (r : remote_script) : list jsstring :=
  match r with
  | ComposeUp app _ => [app]
  | EnsureCert app domain emailArg => [app; domain; emailArg]
  | StopOrphans | FixPermissions | Activate => []
  end.

(* ================================================================= *)
(** ** Reading the written texts back

    What the document and the command lines say, read off their text
    as nginx and the shell find it. *)

(** [needle] occurs in [text]. *)
Fixpoint occurs_in (needle text : jsstring) : bool :=
  startsWith text needle
  || match text with
     | [] => false
     | _ :: rest => occurs_in needle rest
     end.

(** The lines by which a [server] block answers for [app] and hands
    its requests to [port]: from [server_name] down to [proxy_pass]. *)
Definition proxies_to (app domain : jsstring) (port : N) : jsstring :=
  unlines
    [ lit "    server_name " ++ app ++ lit "." ++ domain ++ lit ";";
      lit "    ssl_certificate /etc/letsencrypt/live/" ++ app ++ lit "." ++ domain
        ++ lit "/fullchain.pem;";
      lit "    ssl_certificate_key /etc/letsencrypt/live/" ++ app ++ lit "." ++ domain
        ++ lit "/privkey.pem;";
      lit "    ssl_protocols TLSv1.2 TLSv1.3;";
      lit "    ssl_prefer_server_ciphers off;";
      lit "    location / {";
      lit "        proxy_pass http://127.0.0.1:" ++ toString port ++ lit ";" ].

(** The part of a command line that starts the containers of [app]
    with [PORT] set to [port]; the name is quoted as [runSSH] quotes it. *)
Definition starts_on (app : jsstring) (port : N) : jsstring :=
  lit "cd /var/www/apps/" ++ escape_dquotes app ++ lit " && PORT=" ++ toString port
    ++ lit " docker compose up -d --build --remove-orphans".

(** What a [server] block of the document says: the arguments of its
    [listen], [server_name], [proxy_pass] and [root] directives. *)
Record server_read := {
  listens : list jsstring;
  named : option jsstring;
  passes_to : option jsstring;
  serves : option jsstring
}.

Definition nothing_read : server_read :=
  {| listens := []; named := None; passes_to := None; serves := None |}.

(** The argument of a directive: what stands between its name, indented
    as the templates indent it, and the semicolon that ends the line. *)
Definition argument (start line : jsstring) : option jsstring :=
  Sh.between start (lit ";") line.

Definition read_line (line : jsstring) (b : server_read) : server_read :=
  match argument (lit "    listen ") line with
  | Some x =>
      {| listens := listens b ++ [x]; named := named b;
         passes_to := passes_to b; serves := serves b |}
  | None =>
  match argument (lit "    server_name ") line with
  | Some x =>
      {| listens := listens b; named := Some x;
         passes_to := passes_to b; serves := serves b |}
  | None =>
  match argument (lit "        proxy_pass ") line with
  | Some x =>
      {| listens := listens b; named := named b;
         passes_to := Some x; serves := serves b |}
  | None =>
  match argument (lit "    root ") line with
  | Some x =>
      {| listens := listens b; named := named b;
         passes_to := passes_to b; serves := Some x |}
  | None => b
  end end end end.

(** The [server] blocks of a text, line by line: a block opens at a line
    [server {] and closes at the next line [}]; [current] is the block being
    read. *)
Fixpoint read_servers (current : option server_read) (lines : list jsstring)
  : list server_read :=
  match lines with
  | [] => []
  | line :: rest =>
      match current with
      | None =>
          if JS.eqb line (lit "server {")
          then read_servers (Some nothing_read) rest
          else read_servers None rest
      | Some b =>
          if JS.eqb line (lit "}")
          then b :: read_servers None rest
          else read_servers (Some (read_line line b)) rest
      end
  end.

Definition servers_read (text : jsstring) : list server_read :=
  read_servers None (Sh.lines text).

(** The blocks that hand their requests on: name and target. *)
Definition proxies_read (text : jsstring) : list (jsstring * jsstring) :=
  flat_map (fun b => match named b, passes_to b with
                     | Some name, Some target => [(name, target)]
                     | _, _ => []
                     end)
           (servers_read text).

(** The target of [proxy_pass] for a port of this machine. *)
Definition local_port (port : N) : jsstring := lit "http://127.0.0.1:" ++ toString port.

Definition secured : list jsstring := [lit "443 ssl http2"; lit "[::]:443 ssl http2"].

(** What the reading of a block of the loop has to be. *)
Definition read_of (b : server_block) : server_read :=
  match b with
  | Http domain =>
      {| listens := [lit "80"; lit "[::]:80"];
         named := Some (lit "*." ++ domain ++ lit " " ++ domain);
         passes_to := None; serves := None |}
  | Root domain =>
      {| listens := secured; named := Some domain;
         passes_to := None; serves := Some (lit "/var/www/apps/_root") |}
  | Proxy app domain port =>
      {| listens := secured; named := Some (subject app domain);
         passes_to := Some (local_port port); serves := None |}
  | Static app domain =>
      {| listens := secured; named := Some (subject app domain);
         passes_to := None; serves := Some (lit "/var/www/apps/" ++ app) |}
  end.

(** The block read for [app] is a secured block of its own name, a
    forwarding one when the app is a Docker app and a file-serving one
    otherwise. *)
Definition reads_as (domain : jsstring) (dockerApps : list jsstring)
    (app : jsstring) (b : server_read) : Prop :=
  listens b = secured
  /\ named b = Some (subject app domain)
  /\ if includes dockerApps app
     then (exists port, passes_to b = Some (local_port port)) /\ serves b = None
     else passes_to b = None /\ serves b = Some (lit "/var/www/apps/" ++ app).

Module Odd.

(** A directory whose name holds a line break. *)
Definition name : jsstring := lit "a" ++ [newline] ++ lit "server {".
Definition folder_with_break : folder := [ (name, Ex.site) ].

End Odd.


(* ================================================================= *)
(** * Properties *)

(** ** Strings and arrays *)

Section Strings.

Lemma eqb_eq (a b : jsstring) : JS.eqb a b = true <-> a = b.
Proof.
  revert b; induction a as [|x a IH]; intros [|y b]; simpl; split; try easy.
  - intros H. apply andb_true_iff in H as [Hx Hab].
    apply N.eqb_eq in Hx. apply IH in Hab. congruence.
  - intros H. injection H as -> ->. rewrite N.eqb_refl. simpl. now apply IH.
Qed.

Lemma eqb_refl (a : jsstring) : JS.eqb a a = true.
Proof. now apply eqb_eq. Qed.

Lemma eqb_neq (a b : jsstring) : JS.eqb a b = false <-> a <> b.
Proof.
  split.
  - intros H E. apply eqb_eq in E. congruence.
  - intros H. destruct (JS.eqb a b) eqn:E; [|reflexivity].
    apply eqb_eq in E. contradiction.
Qed.

Lemma includes_In (l : list jsstring) (x : jsstring) :
  includes l x = true <-> In x l.
Proof.
  unfold includes. rewrite existsb_exists. split.
  - intros (y & Hy & E). apply eqb_eq in E. now subst.
  - intros H. exists x. split; [assumption | apply eqb_refl].
Qed.

Lemma includes_not_In (l : list jsstring) (x : jsstring) :
  includes l x = false <-> ~ In x l.
Proof.
  rewrite <- includes_In. destruct (includes l x); split; congruence.
Qed.

Lemma ltb_asym (a b : jsstring) : JS.ltb a b = true -> JS.ltb b a = false.
Proof.
  revert b; induction a as [|x a IH]; intros [|y b]; simpl; try easy.
  destruct (x <? y) eqn:Hxy, (y <? x) eqn:Hyx; try easy.
  - apply N.ltb_lt in Hxy, Hyx. lia.
  - apply IH.
Qed.

Lemma ltb_trans (a b c : jsstring) :
  JS.ltb a b = true -> JS.ltb b c = true -> JS.ltb a c = true.
Proof.
  revert b c; induction a as [|x a IH]; intros [|y b] [|z c]; simpl; try easy.
  destruct (x <? y) eqn:Hxy, (y <? x) eqn:Hyx,
           (y <? z) eqn:Hyz, (z <? y) eqn:Hzy,
           (x <? z) eqn:Hxz, (z <? x) eqn:Hzx; try easy;
    repeat match goal with
           | H : (_ <? _) = true |- _ => apply N.ltb_lt in H
           | H : (_ <? _) = false |- _ => apply N.ltb_ge in H
           end; try lia.
  apply IH.
Qed.

(** Two strings that do not precede one another are the same string. *)
Lemma ltb_total (a b : jsstring) :
  JS.ltb a b = false -> JS.ltb b a = false -> a = b.
Proof.
  revert b; induction a as [|x a IH]; intros [|y b]; simpl; try easy.
  destruct (x <? y) eqn:Hxy, (y <? x) eqn:Hyx; try easy.
  apply N.ltb_ge in Hxy, Hyx. intros H1 H2.
  assert (x = y) by lia. subst. f_equal. now apply IH.
Qed.

Lemma units_le_trans (a b c : jsstring) :
  units_le a b -> units_le b c -> units_le a c.
Proof.
  unfold units_le. intros Hab Hbc.
  destruct (JS.ltb c a) eqn:Hca; [|reflexivity].
  destruct (JS.ltb a b) eqn:Hlt.
  - rewrite (ltb_trans c a b Hca Hlt) in Hbc. discriminate.
  - assert (a = b) by now apply ltb_total. subst. congruence.
Qed.

Lemma insert_perm (x : jsstring) (l : list jsstring) :
  Permutation (JS.insert x l) (x :: l).
Proof.
  induction l as [|y l IH]; simpl; [reflexivity|].
  destruct (JS.ltb y x); [|reflexivity].
  rewrite IH. apply perm_swap.
Qed.

Lemma sort_perm (l : list jsstring) : Permutation (JS.sort l) l.
Proof.
  induction l as [|x l IH]; simpl; [reflexivity|].
  rewrite insert_perm. now constructor.
Qed.

Lemma insert_hd (x y : jsstring) (l : list jsstring) :
  units_le y x -> HdRel units_le y l -> HdRel units_le y (JS.insert x l).
Proof.
  intros Hyx Hl. destruct l as [|z l]; simpl.
  - now constructor.
  - destruct (JS.ltb z x); constructor; [now inversion Hl | assumption].
Qed.

Lemma insert_sorted (x : jsstring) (l : list jsstring) :
  Sorted units_le l -> Sorted units_le (JS.insert x l).
Proof.
  induction 1 as [|y l Hs IH Hd]; simpl.
  - repeat constructor.
  - destruct (JS.ltb y x) eqn:Hyx.
    + constructor; [assumption|].
      apply insert_hd; [|assumption]. now apply ltb_asym.
    + constructor; [now constructor|]. now constructor.
Qed.

Lemma sort_sorted (l : list jsstring) : Sorted units_le (JS.sort l).
Proof.
  induction l as [|x l IH]; simpl; [constructor | now apply insert_sorted].
Qed.

(** The result of [sort] is in order, every element before all the
    later ones. *)
Lemma sort_strongly_sorted (l : list jsstring) : StronglySorted units_le (JS.sort l).
Proof.
  apply Sorted_StronglySorted; [|apply sort_sorted].
  intros a b c. apply units_le_trans.
Qed.

Lemma StronglySorted_impl (R R' : jsstring -> jsstring -> Prop) (l : list jsstring) :
  (forall a b, In a l -> In b l -> R a b -> R' a b) ->
  StronglySorted R l -> StronglySorted R' l.
Proof.
  intros HR Hs. induction Hs as [|a l Hs IH Hall]; [constructor|].
  constructor.
  - apply IH. intros; apply HR; simpl; auto.
  - rewrite Forall_forall in *. intros b Hb. apply HR; simpl; auto.
Qed.

Lemma filter_throwing_total {A} (p : A -> option bool) (l : list A) :
  (forall x, In x l -> p x <> None) ->
  filter_throwing p l
  = Some (filter (fun x => match p x with Some b => b | None => false end) l).
Proof.
  induction l as [|x l IH]; simpl; intros H; [reflexivity|].
  destruct (p x) as [b|] eqn:Hp.
  - rewrite IH by (intros; apply H; auto). reflexivity.
  - exfalso. apply (H x); auto.
Qed.


End Strings.

(** ** Names as bytes *)

Section Bytes.

Lemma ascii_not_surrogate (u : code_unit) :
  u < 0x80 -> Utf8.is_high u = false /\ Utf8.is_low u = false.
Proof.
  intros H. unfold Utf8.is_high, Utf8.is_low. split;
    apply andb_false_iff; left; apply N.leb_gt; lia.
Qed.

Lemma ascii_code_points (s : jsstring) :
  Utf8.ascii_only s -> Utf8.code_points s = s.
Proof.
  induction 1 as [|u t Hu Ht IH]; [reflexivity|].
  destruct (ascii_not_surrogate u Hu) as [Hh Hl].
  change (Utf8.code_points (u :: t)) with
    (match t with
     | v :: r =>
         if Utf8.is_high u && Utf8.is_low v
         then (0x10000 + (u - 0xD800) * 0x400 + (v - 0xDC00)) :: Utf8.code_points r
         else (if Utf8.is_high u || Utf8.is_low u then 0xFFFD else u) :: Utf8.code_points t
     | [] => [if Utf8.is_high u || Utf8.is_low u then 0xFFFD else u]
     end).
  rewrite Hh, Hl. simpl. destruct t; [reflexivity|]. now rewrite IH.
Qed.

(** An ASCII name is its own UTF-8 encoding. *)
Lemma ascii_bytes (s : jsstring) : Utf8.ascii_only s -> Utf8.bytes s = s.
Proof.
  intros H. unfold Utf8.bytes. rewrite (ascii_code_points s H).
  induction H as [|u t Hu Ht IH]; [reflexivity|].
  simpl. unfold Utf8.encode_point at 1.
  apply N.ltb_lt in Hu. rewrite Hu. simpl. now rewrite IH.
Qed.

End Bytes.

(** ** Step 2: detecting apps *)

Section Detection.

Variable cwd : folder.

Lemma lookup_In (f : jsstring) (n : node) : lookup cwd f = Some n -> In (f, n) cwd.
Proof.
  induction cwd as [|[g m] rest IH]; simpl; [easy|].
  destruct (JS.eqb f g) eqn:E.
  - apply eqb_eq in E. intros [= ->]. left. now subst.
  - intros H. right. now apply IH.
Qed.

Lemma In_lookup (f : jsstring) (n : node) :
  NoDup (readdirSync cwd) -> In (f, n) cwd -> lookup cwd f = Some n.
Proof.
  unfold readdirSync.
  induction cwd as [|[g m] rest IH]; simpl; [easy|].
  intros Hnd [E | Hin]; inversion Hnd as [|? ? Hnotin Hnd']; subst.
  - injection E as -> ->. now rewrite eqb_refl.
  - destruct (JS.eqb f g) eqn:E.
    + apply eqb_eq in E. subst. exfalso. apply Hnotin.
      now apply (in_map fst) in Hin.
    + now apply IH.
Qed.

Lemma is_app_entry_total (f : jsstring) :
  stattable cwd -> In f (readdirSync cwd) -> is_app_entry cwd f <> None.
Proof.
  intros Hst Hin. unfold readdirSync in Hin. apply in_map_iff in Hin as ([g n] & <- & Hin).
  unfold is_app_entry, statSync_isDirectory. simpl.
  destruct (lookup cwd g) as [[ | | ]|] eqn:El; try easy.
  - apply lookup_In in El. now apply Hst in El.
  - exfalso. clear Hst. induction cwd as [|[h m] rest IH]; simpl in *; [easy|].
    destruct (JS.eqb g h) eqn:E; [easy|].
    destruct Hin as [[= -> ->] | Hin]; [now rewrite eqb_refl in E | auto].
Qed.

Lemma kept_spec (f : jsstring) :
  NoDup (readdirSync cwd) ->
  In f (readdirSync cwd) /\ kept cwd f = true <-> app_directory cwd f.
Proof.
  intros Hnd. unfold kept, is_app_entry, statSync_isDirectory, app_directory. split.
  - intros [_ H].
    destruct (lookup cwd f) as [[children| | ]|] eqn:El; try discriminate.
    apply andb_true_iff in H as [H H3]. apply andb_true_iff in H as [_ H2].
    apply negb_true_iff in H2, H3. repeat split.
    + exists children. now apply lookup_In.
    + assumption.
    + now apply includes_not_In.
  - intros ((children & Hin) & Hdot & Hsys). split.
    + unfold readdirSync. now apply (in_map fst) in Hin.
    + rewrite (In_lookup _ _ Hnd Hin). rewrite Hdot.
      apply includes_not_In in Hsys. now rewrite Hsys.
Qed.

Lemma allApps_returns :
  stattable cwd ->
  allApps cwd = Some (JS.sort (filter (kept cwd) (readdirSync cwd))).
Proof.
  intros Hst. unfold allApps.
  rewrite filter_throwing_total; [reflexivity|].
  intros f Hf. now apply is_app_entry_total.
Qed.


Lemma dockerApps_spec (apps : list jsstring) (app : jsstring) :
  NoDup (readdirSync cwd) ->
  (forall f, In f apps -> app_directory cwd f) ->
  In app (dockerApps cwd apps) <->
  In app apps /\ exists children,
    In (app, Directory children) cwd /\ In (lit "docker-compose.yml") children.
Proof.
  intros Hnd Happs. unfold dockerApps. rewrite filter_In. unfold existsSync_in.
  split; intros [Hin H]; split; try assumption.
  - destruct (lookup cwd app) as [[children| | ]|] eqn:El; try discriminate.
    exists children. split; [now apply lookup_In | now apply includes_In].
  - destruct H as (children & Hc & Hf).
    rewrite (In_lookup _ _ Hnd Hc). now apply includes_In.
Qed.

Lemma staticApps_spec (apps : list jsstring) (app : jsstring) :
  In app (staticApps apps (dockerApps cwd apps)) <->
  In app apps /\ ~ In app (dockerApps cwd apps).
Proof.
  unfold staticApps. rewrite filter_In, negb_true_iff, includes_not_In. reflexivity.
Qed.

(** Membership in [dockerApps], as the loop of step 7 tests it, is the
    test of the [filter] that built [dockerApps]. *)
Lemma includes_dockerApps (apps : list jsstring) (app : jsstring) :
  In app apps ->
  includes (dockerApps cwd apps) app = existsSync_in cwd app (lit "docker-compose.yml").
Proof.
  intros Hin. destruct (existsSync_in cwd app (lit "docker-compose.yml")) eqn:E.
  - apply includes_In. unfold dockerApps. now apply filter_In.
  - apply includes_not_In. unfold dockerApps. rewrite filter_In. intros [_ H]. congruence.
Qed.

End Detection.

(** C8, as amended.  For every working directory (its names distinct)
    whose entries can all be examined by [statSync], step 2 returns: [allApps] holds exactly the
    directories whose name does not start with a dot and is none of
    [node_modules], [server-setup], [_root], each once, in the order of
    their UTF-16 code units, which is the byte-wise order of the names
    when the names are ASCII; [dockerApps] holds exactly the apps whose
    directory directly contains [docker-compose.yml], [staticApps] the
    others; entries that are not directories are left out without error. *)
Theorem C8_classifier (cwd : folder) :
  NoDup (readdirSync cwd) ->
  stattable cwd ->
  exists apps,
    allApps cwd = Some apps
    /\ NoDup apps
    /\ (forall f, In f apps <-> app_directory cwd f)
    /\ StronglySorted units_le apps
    /\ (Forall Utf8.ascii_only apps -> StronglySorted Utf8.bytes_le apps)
    /\ (forall app, In app (dockerApps cwd apps) <->
          In app apps /\ exists children,
            In (app, Directory children) cwd /\ In (lit "docker-compose.yml") children)
    /\ (forall app, In app (staticApps apps (dockerApps cwd apps)) <->
          In app apps /\ ~ In app (dockerApps cwd apps))
    /\ (forall f, In (f, NonDirectory) cwd -> ~ In f apps).
Proof.
  intros Hnd Hst. exists (JS.sort (filter (kept cwd) (readdirSync cwd))).
  assert (Hmem : forall f, In f (JS.sort (filter (kept cwd) (readdirSync cwd)))
                           <-> app_directory cwd f).
  { intros f. rewrite <- (kept_spec cwd f Hnd), <- filter_In.
    split; apply Permutation_in; [|symmetry]; apply sort_perm. }
  split; [now apply allApps_returns|].
  split.
  { apply (Permutation_NoDup (l := filter (kept cwd) (readdirSync cwd))).
    - symmetry. apply sort_perm.
    - now apply NoDup_filter. }
  split; [exact Hmem|].
  split; [apply sort_strongly_sorted|].
  split.
  { intros Hascii. apply (StronglySorted_impl units_le); [|apply sort_strongly_sorted].
    intros a b Ha Hb. unfold units_le, Utf8.bytes_le.
    rewrite Forall_forall in Hascii.
    now rewrite !ascii_bytes by auto. }
  split.
  { intros app. apply dockerApps_spec; [assumption|]. intros f. apply Hmem. }
  split; [intros app; apply staticApps_spec|].
  intros f Hf Hin. apply Hmem in Hin as ((children & Hc) & _).
  apply (In_lookup cwd _ _ Hnd) in Hf, Hc. congruence.
Qed.

Lemma C8_classifier_witness :
  exists apps,
    allApps Ex.readme_folder = Some apps
    /\ NoDup apps
    /\ (forall f, In f apps <-> app_directory Ex.readme_folder f)
    /\ StronglySorted units_le apps
    /\ (Forall Utf8.ascii_only apps -> StronglySorted Utf8.bytes_le apps)
    /\ (forall app, In app (dockerApps Ex.readme_folder apps) <->
          In app apps /\ exists children,
            In (app, Directory children) Ex.readme_folder
            /\ In (lit "docker-compose.yml") children)
    /\ (forall app, In app (staticApps apps (dockerApps Ex.readme_folder apps)) <->
          In app apps /\ ~ In app (dockerApps Ex.readme_folder apps))
    /\ (forall f, In (f, NonDirectory) Ex.readme_folder -> ~ In f apps).
Proof.
  apply (C8_classifier Ex.readme_folder).
  - vm_compute. repeat constructor; simpl; intuition discriminate.
  - intros f Hin. vm_compute in Hin. intuition discriminate.
Defined.

(** C8, as stated, fails: the directories named U+FF21 and U+1F600 come
    out as U+1F600, U+FF21, the order of their code units (D83D before
    FF21), while the bytes of the names are in the other order (EF BC A1
    before F0 9F 98 80). *)
Lemma C8_not_bytewise :
  allApps Ex.unicode_folder = Some [Ex.grinning_face; Ex.fullwidth_A]
  /\ Utf8.bytes Ex.grinning_face = [0xF0; 0x9F; 0x98; 0x80]
  /\ Utf8.bytes Ex.fullwidth_A = [0xEF; 0xBC; 0xA1]
  /\ ~ Sorted Utf8.bytes_le [Ex.grinning_face; Ex.fullwidth_A].
Proof.
  repeat split; try reflexivity.
  intros H. inversion H as [|a l Hs Hd]; subst.
  inversion Hd as [|b l' Hle]; subst.
  vm_compute in Hle. discriminate.
Qed.

(** ** Step 7: the blocks of the configuration *)

Section Blocks.

Variable domain : jsstring.
Variable docker : list jsstring.

Lemma unlines_app (a b : list jsstring) : unlines (a ++ b) = unlines a ++ unlines b.
Proof. unfold unlines. apply flat_map_app. Qed.

Lemma render_app (a b : list server_block) : render (a ++ b) = render a ++ render b.
Proof. unfold render. apply flat_map_app. Qed.

Lemma append_servers_render (apps : list jsstring) (text : jsstring) (port : N) :
  append_servers domain docker apps text port
  = text ++ render (app_blocks domain docker apps port).
Proof.
  revert text port. induction apps as [|app rest IH]; intros text port; simpl.
  - now rewrite app_nil_r.
  - destruct (includes docker app); rewrite IH; unfold render; simpl;
      now rewrite <- app_assoc.
Qed.

(** The document is the text of its blocks, in order. *)
Lemma nginxConfig_render (apps : list jsstring) :
  nginxConfig domain apps docker
  = render (config_blocks domain apps docker).
Proof.
  unfold nginxConfig, config_blocks. rewrite append_servers_render, unlines_app.
  unfold render. simpl. now rewrite <- app_assoc.
Qed.

Lemma proxied_app_blocks (apps : list jsstring) (port : N) :
  proxied (app_blocks domain docker apps port)
  = ports_from port (filter (includes docker) apps).
Proof.
  revert port. induction apps as [|app rest IH]; intros port; simpl; [reflexivity|].
  destruct (includes docker app); simpl; now rewrite IH.
Qed.


Lemma app_blocks_apps (apps : list jsstring) (port : N) :
  map app_of (app_blocks domain docker apps port) = map Some apps.
Proof.
  revert port. induction apps as [|app rest IH]; intros port; simpl; [reflexivity|].
  destruct (includes docker app); simpl; now rewrite IH.
Qed.

Lemma ports_from_In {A} (l : list A) (port : N) (a : A) (p : N) :
  In (a, p) (ports_from port l) -> In a l /\ port <= p.
Proof.
  revert port. induction l as [|b r IH]; intros port; simpl; [easy|].
  intros [[= -> ->] | H].
  - split; [now left | lia].
  - apply IH in H as [H1 H2]. split; [now right | lia].
Qed.

Lemma ports_from_fst {A} (l : list A) (port : N) : map fst (ports_from port l) = l.
Proof.
  revert port. induction l as [|b r IH]; intros port; simpl; [reflexivity|].
  now rewrite IH.
Qed.

(** The ports are consecutive: the [i]-th paired element gets [port + i]. *)
Lemma ports_from_nth {A} (l : list A) (port : N) (i : nat) (a : A) :
  nth_error l i = Some a ->
  nth_error (ports_from port l) i = Some (a, port + N.of_nat i).
Proof.
  revert port i. induction l as [|b r IH]; intros port [|i]; simpl; try easy.
  - intros [= ->]. now rewrite N.add_0_r.
  - intros H. rewrite (IH (port + 1) i H). do 2 f_equal. lia.
Qed.

End Blocks.

Lemma filter_dockerApps (cwd : folder) (apps : list jsstring) :
  filter (includes (dockerApps cwd apps)) apps = dockerApps cwd apps.
Proof.
  unfold dockerApps at 2. apply filter_ext_in. intros app Hin.
  now apply includes_dockerApps.
Qed.

(** ** The lines of the configuration *)

Section Lines.

Lemma split_at_line (sep : code_unit -> bool) (l acc rest : jsstring) (u : code_unit) :
  (forall x, In x l -> sep x = false) -> sep u = true ->
  Sh.split_at sep acc (l ++ u :: rest)
  = (List.rev acc ++ l) :: Sh.split_at sep [] rest.
Proof.
  intros Hl Hu. revert acc. induction l as [|x l IH]; intros acc; simpl.
  - now rewrite Hu, app_nil_r.
  - rewrite (Hl x) by now left.
    rewrite IH by (intros; apply Hl; now right).
    simpl. now rewrite <- app_assoc.
Qed.

Lemma lines_unlines (ls : list jsstring) :
  Forall one_line ls -> Sh.lines (unlines ls) = ls ++ [[]].
Proof.
  unfold Sh.lines. induction 1 as [|l ls Hl Hls IH]; [reflexivity|].
  unfold unlines in *. simpl. rewrite <- app_assoc. simpl.
  rewrite split_at_line.
  - simpl. now rewrite IH.
  - intros x Hx. apply N.eqb_neq. intros ->. now apply Hl.
  - reflexivity.
Qed.

Lemma one_line_app (a b : jsstring) : one_line a -> one_line b -> one_line (a ++ b).
Proof. unfold one_line. rewrite in_app_iff. tauto. Qed.

Lemma one_line_literal (s : jsstring) :
  existsb (N.eqb newline) s = false -> one_line s.
Proof.
  intros H Hin. assert (existsb (N.eqb newline) s = true); [|congruence].
  apply existsb_exists. exists newline. split; [assumption | apply N.eqb_refl].
Qed.

Lemma one_line_digits (d : Decimal.uint) : one_line (JS.digits d).
Proof.
  unfold one_line. induction d; simpl; intros H; try easy;
    destruct H as [H | H]; try discriminate; auto.
Qed.

Lemma one_line_toString (n : N) : one_line (toString n).
Proof. apply one_line_digits. Qed.

Lemma render_unlines (bs : list server_block) :
  render bs = unlines (flat_map block_lines bs).
Proof.
  unfold render. induction bs as [|b bs IH]; simpl; [reflexivity|].
  now rewrite unlines_app, IH.
Qed.

End Lines.

Ltac one_line :=
  first [ assumption
        | apply one_line_literal; vm_compute; reflexivity
        | apply one_line_toString
        | apply one_line_app; [one_line | one_line] ].

Section LineCount.

Variable domain : jsstring.
Variable docker : list jsstring.
Hypothesis domain_one_line : one_line domain.

Lemma block_one_line (b : server_block) :
  match app_of b with Some app => one_line app | None => True end ->
  match b with Http d | Root d | Proxy _ d _ | Static _ d => d = domain end ->
  Forall one_line (block_lines b).
Proof.
  destruct b as [d|d|app d port|app d]; simpl; intros Happ ->;
    repeat (apply Forall_cons; [one_line|]); apply Forall_nil.
Qed.

Lemma app_blocks_one_line (apps : list jsstring) (port : N) :
  Forall one_line apps ->
  Forall one_line (flat_map block_lines (app_blocks domain docker apps port)).
Proof.
  intros H. revert port.
  induction H as [|app rest Happ Hrest IH]; intros port; cbn [app_blocks].
  - constructor.
  - destruct (includes docker app); cbn [flat_map]; apply Forall_app; split;
      try apply IH.
    + now apply (block_one_line (Proxy app domain port)).
    + now apply (block_one_line (Static app domain)).
Qed.

Lemma config_one_line (apps : list jsstring) :
  Forall one_line apps ->
  Forall one_line (flat_map block_lines (config_blocks domain apps docker)).
Proof.
  intros H. unfold config_blocks. cbn [flat_map].
  apply Forall_app; split; [now apply (block_one_line (Http domain))|].
  apply Forall_app; split; [now apply (block_one_line (Root domain))|].
  now apply app_blocks_one_line.
Qed.

(** Counting the lines that pass a test [p], block by block. *)
Variable p : jsstring -> bool.
Variables in_http in_root in_proxy in_static : nat.
Hypothesis p_empty : p [] = false.
Hypothesis p_http : length (filter p (http_server domain)) = in_http.
Hypothesis p_root : length (filter p (root_server domain)) = in_root.
Hypothesis p_proxy :
  forall app port, length (filter p (docker_server app domain port)) = in_proxy.
Hypothesis p_static :
  forall app, length (filter p (static_server app domain)) = in_static.

Lemma count_app_blocks (apps : list jsstring) (port : N) :
  length (filter p (flat_map block_lines (app_blocks domain docker apps port)))
  = (in_proxy * length (filter (includes docker) apps)
     + in_static * length (filter (fun app => negb (includes docker app)) apps))%nat.
Proof.
  revert port. induction apps as [|app rest IH]; intros port;
    cbn [app_blocks filter]; [simpl; lia|].
  destruct (includes docker app); cbn [flat_map negb length block_lines];
    rewrite filter_app, length_app, IH, ?p_proxy, ?p_static; lia.
Qed.

Lemma count_config (apps : list jsstring) :
  Forall one_line apps ->
  count p (nginxConfig domain apps docker)
  = (in_http + in_root
     + in_proxy * length (filter (includes docker) apps)
     + in_static * length (filter (fun app => negb (includes docker app)) apps))%nat.
Proof.
  intros H. unfold count.
  rewrite nginxConfig_render, render_unlines, lines_unlines by now apply config_one_line.
  rewrite filter_app, length_app. cbn [filter]. rewrite p_empty.
  unfold config_blocks. cbn [flat_map block_lines length].
  rewrite !filter_app, !length_app, count_app_blocks, p_http, p_root. lia.
Qed.

End LineCount.

Lemma filter_partition_length {A} (f : A -> bool) (l : list A) :
  (length (filter f l) + length (filter (fun a => negb (f a)) l))%nat = length l.
Proof.
  induction l as [|a l IH]; simpl; [reflexivity|].
  destruct (f a); simpl; lia.
Qed.

(** ** Runs of the pipeline *)

Arguments nginxConfig : simpl never.
Arguments tmpConfigPath : simpl never.
Arguments dockerApps : simpl never.
Arguments allApps : simpl never.

Section Runs.

Variable w : world.

Lemma run_plain (c : command) (allowFail : bool) (s : state) :
  plain_command c = true ->
  run w c allowFail s
  = (if exits_zero w c || allowFail then Returned tt else Exited 1,
     after (trace s ++ [Exec c (exits_zero w c)]) (tmp s) (server s)).
Proof.
  intros Hc. unfold run, execSync.
  assert (E : effect w c s = (exits_zero w c, server s)).
  { destruct c as [| |h []]; try discriminate; reflexivity. }
  rewrite E. destruct (exits_zero w c), allowFail; reflexivity.
Qed.

Lemma start_containers_run (sshHost : jsstring) (apps : list jsstring) (port : N) (s : state) :
  start_containers w sshHost apps port s
  = (Returned tt,
     after (trace s
            ++ map (fun ap => Exec (Ssh sshHost (ComposeUp (fst ap) (snd ap)))
                                   (exits_zero w (Ssh sshHost (ComposeUp (fst ap) (snd ap)))))
                   (ports_from port apps))
           (tmp s) (server s)).
Proof.
  revert port s. induction apps as [|app rest IH]; intros port s.
  - simpl. rewrite app_nil_r. now destruct s.
  - cbn [start_containers ports_from map]. unfold bindM, runSSH.
    rewrite run_plain by reflexivity. rewrite orb_true_r, IH.
    unfold after. cbn [trace tmp server fst snd]. now rewrite <- app_assoc.
Qed.

Lemma issue_certificates_run (sshHost domain emailArg : jsstring)
    (apps : list jsstring) (s : state) :
  issue_certificates w sshHost domain emailArg apps s
  = (Returned tt,
     after (trace s
            ++ map (fun app => Exec (Ssh sshHost (EnsureCert app domain emailArg))
                                    (exits_zero w (Ssh sshHost (EnsureCert app domain emailArg))))
                   apps)
           (tmp s) (server s)).
Proof.
  revert s. induction apps as [|app rest IH]; intros s.
  - simpl. rewrite app_nil_r. now destruct s.
  - cbn [issue_certificates map]. unfold bindM, runSSH.
    rewrite run_plain by reflexivity. rewrite orb_true_r, IH.
    unfold after. cbn [trace tmp server]. now rewrite <- app_assoc.
Qed.

Variables (u : code_unit) (r : jsstring).
Variables (srv email : option jsstring) (t : target).

Let domain := u :: r.
Let sshHost := or_else srv domain.
Let emailArg := or_else email [].

Lemma deploy_sync_fails :
  exits_zero w (Rsync (cwd_path w) sshHost) = false ->
  deploy w (Some domain) srv email t
  = (Exited 1, after [Exec (Rsync (cwd_path w) sshHost) false] [] t).
Proof.
  intros Hsync. unfold deploy, deployCommand, domain.
  unfold bindM. rewrite run_plain by reflexivity.
  fold domain. fold sshHost. rewrite Hsync. reflexivity.
Qed.

Lemma deploy_throws :
  exits_zero w (Rsync (cwd_path w) sshHost) = true ->
  allApps (cwd w) = None ->
  deploy w (Some domain) srv email t
  = (Uncaught, after [Exec (Rsync (cwd_path w) sshHost) true] [] t).
Proof.
  intros Hsync Hall. unfold deploy, deployCommand, domain.
  unfold bindM. rewrite run_plain by reflexivity.
  fold domain. fold sshHost. rewrite Hsync, Hall. reflexivity.
Qed.

Variable apps : list jsstring.
Hypothesis sync_ok : exits_zero w (Rsync (cwd_path w) sshHost) = true.
Hypothesis detected : allApps (cwd w) = Some apps.

Let docker := dockerApps (cwd w) apps.
Let doc := nginxConfig domain apps docker.
Let path := tmpConfigPath w.
Let front := steps_1_to_5 w sshHost domain emailArg apps docker.

(** The run up to step 6. *)
Lemma deploy_front :
  deploy w (Some domain) srv email t
  = (runSSH w sshHost FixPermissions false ;;
     writeFileSync path doc ;;
     run w (Scp path sshHost) false ;;
     unlinkSync path ;;
     runSSH w sshHost Activate false) (after front [] t).
Proof.
  unfold deploy, deployCommand, domain.
  fold domain. fold sshHost. fold emailArg.
  unfold bindM at 1. rewrite run_plain by reflexivity. rewrite sync_ok, detected.
  cbn [orb]. fold docker. fold doc. fold path.
  unfold bindM at 1. rewrite start_containers_run.
  unfold bindM at 1. unfold runSSH at 1. rewrite run_plain by reflexivity.
  rewrite orb_true_r.
  unfold bindM at 1. rewrite issue_certificates_run.
  unfold after, initial. cbn [trace tmp server app].
  unfold front, steps_1_to_5. now rewrite <- app_assoc.
Qed.

Lemma deploy_fix_fails :
  exits_zero w (Ssh sshHost FixPermissions) = false ->
  deploy w (Some domain) srv email t
  = (Exited 1, after (front ++ [Exec (Ssh sshHost FixPermissions) false]) [] t).
Proof.
  intros Hfix. rewrite deploy_front.
  unfold bindM at 1. unfold runSSH at 1. rewrite run_plain by reflexivity.
  rewrite Hfix. reflexivity.
Qed.

Hypothesis fix_ok : exits_zero w (Ssh sshHost FixPermissions) = true.

Lemma deploy_scp_fails :
  exits_zero w (Scp path sshHost) = false ->
  deploy w (Some domain) srv email t
  = (Exited 1,
     after (front ++ [Exec (Ssh sshHost FixPermissions) true;
                      WriteFile path doc;
                      Exec (Scp path sshHost) false])
           [(path, doc)] t).
Proof.
  intros Hscp. rewrite deploy_front.
  unfold bindM at 1. unfold runSSH at 1. rewrite run_plain by reflexivity.
  rewrite fix_ok. cbn [orb].
  unfold bindM, writeFileSync, run, execSync, effect, after, log, with_server.
  cbn [trace tmp server read_file]. rewrite eqb_refl, Hscp.
  cbn [trace tmp server]. now rewrite <- !app_assoc.
Qed.

(** Whether [ln -sf ... && nginx -t && systemctl reload nginx] succeeds
    once [doc] has been uploaded. *)
Let activation := exits_zero w (Ssh sshHost Activate) && nginx_t w (Some doc) && reload_ok w.

Lemma deploy_activates :
  exits_zero w (Scp path sshHost) = true ->
  deploy w (Some domain) srv email t
  = (if activation then Returned tt else Exited 1,
     after (front ++ [Exec (Ssh sshHost FixPermissions) true;
                      WriteFile path doc;
                      Exec (Scp path sshHost) true;
                      Unlink path;
                      Exec (Ssh sshHost Activate) activation])
           [] (activated w sshHost doc t)).
Proof.
  intros Hscp. rewrite deploy_front.
  unfold bindM at 1. unfold runSSH at 1. rewrite run_plain by reflexivity.
  rewrite fix_ok. cbn [orb].
  unfold bindM, writeFileSync, unlinkSync, runSSH, run, execSync, effect,
    after, log, with_server.
  cbn [trace tmp server read_file]. rewrite eqb_refl, Hscp.
  cbn [trace tmp server filter fst negb sites_available_apps sites_enabled_apps loaded].
  rewrite eqb_refl. cbn [negb].
  unfold activation, activated.
  destruct (exits_zero w (Ssh sshHost Activate)), (nginx_t w (Some doc)), (reload_ok w);
    cbn [andb trace tmp server]; now rewrite <- !app_assoc.
Qed.

End Runs.

(** Every run of [deployCommand] is the one [summary] describes. *)
Lemma deploy_summary (w : world) (domain srv email : option jsstring) (t : target) :
  deploy w domain srv email t = summary w domain srv email t.
Proof.
  destruct domain as [[|u r]|]; try reflexivity.
  unfold summary.
  destruct (exits_zero w (Rsync (cwd_path w) (or_else srv (u :: r)))) eqn:Hsync;
    [|now apply deploy_sync_fails].
  destruct (allApps (cwd w)) as [apps|] eqn:Hall; [|now apply deploy_throws].
  cbv zeta.
  destruct (exits_zero w (Ssh (or_else srv (u :: r)) FixPermissions)) eqn:Hfix;
    [|now apply deploy_fix_fails].
  destruct (exits_zero w (Scp (tmpConfigPath w) (or_else srv (u :: r)))) eqn:Hscp.
  - now apply deploy_activates.
  - now apply deploy_scp_fails.
Qed.

(** ** Reading the trace of a run *)

Section Views.

Variable w : world.
Variables sshHost domain emailArg : jsstring.
Variables apps docker : list jsstring.
Variable tail : list event.
Variable files : list (jsstring * jsstring).
Variable t : target.

Let front := steps_1_to_5 w sshHost domain emailArg apps docker.

Lemma flat_map_map {A B C} (f : B -> list C) (g : A -> B) (l : list A) :
  flat_map f (map g l) = flat_map (fun a => f (g a)) l.
Proof. induction l as [|a l IH]; simpl; [reflexivity | now rewrite IH]. Qed.

Lemma flat_map_nil {A B} (l : list A) : flat_map (fun _ => @nil B) l = [].
Proof. induction l as [|a l IH]; simpl; auto. Qed.

Lemma flat_map_singleton {A B} (f : A -> B) (l : list A) :
  flat_map (fun a => [f a]) l = map f l.
Proof. induction l as [|a l IH]; simpl; [reflexivity | now rewrite IH]. Qed.

Lemma executed_front :
  executed (after (front ++ tail) files t)
  = Rsync (cwd_path w) sshHost
    :: map (fun ap => Ssh sshHost (ComposeUp (fst ap) (snd ap))) (ports_from 3000 docker)
    ++ Ssh sshHost StopOrphans
    :: map (fun app => Ssh sshHost (EnsureCert app domain emailArg)) apps
    ++ executed (after tail files t).
Proof.
  unfold executed, after, front, steps_1_to_5. cbn [trace].
  rewrite flat_map_app. cbn [flat_map app].
  rewrite flat_map_app, !flat_map_map. cbn [flat_map app].
  rewrite flat_map_map, !flat_map_singleton, <- !app_assoc. reflexivity.
Qed.

Lemma started_front :
  started (after (front ++ tail) files t)
  = ports_from 3000 docker ++ started (after tail files t).
Proof.
  unfold started. rewrite executed_front. cbn [flat_map app].
  rewrite flat_map_app, flat_map_map. cbn [flat_map app].
  rewrite flat_map_app, flat_map_map, flat_map_nil. cbn [app].
  f_equal. induction (ports_from 3000 docker) as [|[a p] l IH]; simpl; congruence.
Qed.

Lemma issued_front :
  issued (after (front ++ tail) files t)
  = map (fun app => subject app domain) apps ++ issued (after tail files t).
Proof.
  unfold issued. rewrite executed_front. cbn [flat_map app].
  rewrite flat_map_app, flat_map_map, flat_map_nil. cbn [flat_map app].
  rewrite flat_map_app, flat_map_map, flat_map_singleton. reflexivity.
Qed.

Lemma rendered_front :
  rendered (after (front ++ tail) files t) = rendered (after tail files t).
Proof.
  unfold rendered, after, front, steps_1_to_5. cbn [trace].
  rewrite flat_map_app. cbn [flat_map app].
  rewrite flat_map_app, !flat_map_map. cbn [flat_map app].
  now rewrite flat_map_map, !flat_map_nil.
Qed.

End Views.

(** What a run that wrote a configuration has done. *)
Lemma run_renders (w : world) (domain srv email : option jsstring) (t : target)
    (doc : jsstring) :
  In doc (rendered (snd (deploy w domain srv email t))) ->
  exists d apps,
    domain = Some d
    /\ allApps (cwd w) = Some apps
    /\ rendered (snd (deploy w domain srv email t))
       = [nginxConfig d apps (dockerApps (cwd w) apps)]
    /\ started (snd (deploy w domain srv email t))
       = ports_from 3000 (dockerApps (cwd w) apps)
    /\ issued (snd (deploy w domain srv email t))
       = map (fun app => subject app d) apps.
Proof.
  rewrite deploy_summary. unfold summary.
  destruct domain as [[|u r]|]; try (simpl; tauto).
  destruct (exits_zero w (Rsync _ _)); [|simpl; tauto].
  destruct (allApps (cwd w)) as [apps|]; [|simpl; tauto].
  cbv zeta.
  destruct (exits_zero w (Ssh _ FixPermissions)).
  - intros _. exists (u :: r), apps.
    destruct (exits_zero w (Scp _ _)); cbn [snd];
      rewrite rendered_front, started_front, issued_front;
      cbn; rewrite !app_nil_r; auto.
  - cbn [snd]. rewrite rendered_front. simpl. tauto.
Qed.

(** C6.  The configuration a run writes is [nginxConfig] of the root
    domain, [allApps] and [dockerApps], and of nothing else: two runs on
    the same working directory for the same domain write the same text,
    whatever the clock, the ssh host, the e-mail address, the state of the
    target and the outcome of each command. *)
Theorem C6_config_function_of_inputs (w1 w2 : world) (domain srv1 srv2 email1 email2 : option jsstring)
    (t1 t2 : target) (doc1 doc2 : jsstring) :
  cwd w1 = cwd w2 ->
  In doc1 (rendered (snd (deploy w1 domain srv1 email1 t1))) ->
  In doc2 (rendered (snd (deploy w2 domain srv2 email2 t2))) ->
  doc1 = doc2
  /\ exists d apps,
       domain = Some d /\ allApps (cwd w1) = Some apps
       /\ doc1 = nginxConfig d apps (dockerApps (cwd w1) apps).
Proof.
  intros Hcwd H1 H2.
  destruct (run_renders _ _ _ _ _ _ H1) as (d1 & apps1 & E1 & A1 & R1 & _).
  destruct (run_renders _ _ _ _ _ _ H2) as (d2 & apps2 & E2 & A2 & R2 & _).
  rewrite R1 in H1. rewrite R2 in H2.
  destruct H1 as [<- | []]. destruct H2 as [<- | []].
  rewrite <- Hcwd in *. rewrite E1 in E2. injection E2 as <-.
  rewrite A1 in A2. injection A2 as <-.
  split; [reflexivity|]. now exists d1, apps1.
Qed.

Lemma C6_config_function_of_inputs_witness :
  nginxConfig Ex.example_com [lit "abc"; lit "blog"; lit "myapi"; lit "xyz"]
    [lit "abc"; lit "myapi"; lit "xyz"]
  = nginxConfig Ex.example_com [lit "abc"; lit "blog"; lit "myapi"; lit "xyz"]
      [lit "abc"; lit "myapi"; lit "xyz"]
  /\ exists d apps,
       Some Ex.example_com = Some d
       /\ allApps (cwd (Ex.calm Ex.readme_folder)) = Some apps
       /\ nginxConfig Ex.example_com [lit "abc"; lit "blog"; lit "myapi"; lit "xyz"]
            [lit "abc"; lit "myapi"; lit "xyz"]
          = nginxConfig d apps (dockerApps (cwd (Ex.calm Ex.readme_folder)) apps).
Proof.
  apply (C6_config_function_of_inputs
           (Ex.calm Ex.readme_folder) (Ex.flaky Ex.readme_folder)
           (Some Ex.example_com)
           None (Some (lit "203.0.113.7")) None (Some (lit "me@example.com"))
           Ex.fresh Ex.deployed_before).
  - reflexivity.
  - vm_compute. left. reflexivity.
  - vm_compute. left. reflexivity.
Defined.

(** ** Steps 5 to 7 *)

Lemma subject_longer (app domain : jsstring) : subject app domain <> domain.
Proof.
  intros H. apply (f_equal (@length _)) in H.
  unfold subject in H. rewrite !length_app in H. simpl in H. lia.
Qed.

Lemma root_not_a_subject (domain : jsstring) (apps : list jsstring) :
  ~ In domain (map (fun app => subject app domain) apps).
Proof.
  intros H. apply in_map_iff in H as (app & H & _). now apply subject_longer in H.
Qed.




(** C4, as amended.  In every run that gets past step 2, certificate
    issuance is invoked once per app, static or Docker, for
    [<app>.<domain>], in the order of [allApps]; the root domain is not
    among the subjects. *)
Theorem C4_issuance_per_app (w : world) (domain : jsstring)
    (srv email : option jsstring) (t : target) (apps : list jsstring) :
  domain <> [] ->
  exits_zero w (Rsync (cwd_path w) (or_else srv domain)) = true ->
  allApps (cwd w) = Some apps ->
  issued (snd (deploy w (Some domain) srv email t))
  = map (fun app => subject app domain) apps
  /\ ~ In domain (issued (snd (deploy w (Some domain) srv email t))).
Proof.
  intros Hd Hsync Hall.
  assert (H : issued (snd (deploy w (Some domain) srv email t))
              = map (fun app => subject app domain) apps).
  { rewrite deploy_summary. unfold summary.
    destruct domain as [|u r]; [contradiction|].
    rewrite Hsync, Hall. cbv zeta.
    destruct (exits_zero w (Ssh _ FixPermissions)); [destruct (exits_zero w (Scp _ _))|];
      cbn [snd]; rewrite issued_front; cbn; now rewrite app_nil_r. }
  split; [exact H|]. rewrite H. apply root_not_a_subject.
Qed.

Lemma C4_issuance_per_app_witness :
  issued (snd (deploy (Ex.calm Ex.readme_folder) (Some Ex.example_com) None None Ex.fresh))
  = map (fun app => subject app Ex.example_com)
        [lit "abc"; lit "blog"; lit "myapi"; lit "xyz"]
  /\ ~ In Ex.example_com
          (issued (snd (deploy (Ex.calm Ex.readme_folder) (Some Ex.example_com)
                          None None Ex.fresh))).
Proof.
  apply (C4_issuance_per_app (Ex.calm Ex.readme_folder) Ex.example_com None None Ex.fresh).
  - discriminate.
  - reflexivity.
  - reflexivity.
Defined.

(** C4, as stated, fails: in a run where every command succeeds, for
    [example.com] and the single app [blog], the only issuance is the one
    for [blog.example.com]; none is invoked for [example.com], whose
    certificate the written configuration nevertheless refers to. *)
Lemma C4_root_not_issued :
  fst (deploy (Ex.calm Ex.blog_folder) (Some Ex.example_com) None None Ex.fresh)
  = Returned tt
  /\ executed (snd (deploy (Ex.calm Ex.blog_folder) (Some Ex.example_com) None None Ex.fresh))
     = [ Rsync (lit "/home/me/sites") Ex.example_com;
         Ssh Ex.example_com StopOrphans;
         Ssh Ex.example_com (EnsureCert (lit "blog") Ex.example_com []);
         Ssh Ex.example_com FixPermissions;
         Scp (lit "/tmp/nginx-apps-1700000000000.conf") Ex.example_com;
         Ssh Ex.example_com Activate ]
  /\ issued (snd (deploy (Ex.calm Ex.blog_folder) (Some Ex.example_com) None None Ex.fresh))
     = [lit "blog.example.com"]
  /\ ~ In Ex.example_com
          (issued (snd (deploy (Ex.calm Ex.blog_folder) (Some Ex.example_com)
                          None None Ex.fresh)))
  /\ In (lit "    ssl_certificate /etc/letsencrypt/live/example.com/fullchain.pem;")
        (Sh.lines (nginxConfig Ex.example_com [lit "blog"] [])).
Proof.
  split; [reflexivity|]. split; [reflexivity|]. split; [reflexivity|].
  split.
  - vm_compute. intros [H | []]. discriminate.
  - vm_compute. do 13 right. left. reflexivity.
Qed.

(** ** Upload, validation and reload *)

(** C1, as amended.  The configuration is uploaded over
    [/etc/nginx/sites-available/apps] before [nginx -t] runs.  A run that
    returns normally has had [nginx -t] accept the written configuration,
    and nginx has loaded it.  When [nginx -t] rejects the written
    configuration the run exits with status 1 without a reload, so nginx
    keeps the configuration it had loaded; the file, however, holds the
    rejected configuration. *)
Theorem C1_validate_before_reload (w : world) (domain : jsstring)
    (srv email : option jsstring) (t : target) (apps : list jsstring) :
  domain <> [] ->
  exits_zero w (Rsync (cwd_path w) (or_else srv domain)) = true ->
  allApps (cwd w) = Some apps ->
  exits_zero w (Ssh (or_else srv domain) FixPermissions) = true ->
  exits_zero w (Scp (tmpConfigPath w) (or_else srv domain)) = true ->
  (fst (deploy w (Some domain) srv email t) = Returned tt ->
     nginx_t w (Some (nginxConfig domain apps (dockerApps (cwd w) apps))) = true
     /\ loaded (server (snd (deploy w (Some domain) srv email t)))
        = Some (nginxConfig domain apps (dockerApps (cwd w) apps)))
  /\ (nginx_t w (Some (nginxConfig domain apps (dockerApps (cwd w) apps))) = false ->
        fst (deploy w (Some domain) srv email t) = Exited 1
        /\ In (Exec (Ssh (or_else srv domain) Activate) false)
              (trace (snd (deploy w (Some domain) srv email t)))
        /\ loaded (server (snd (deploy w (Some domain) srv email t))) = loaded t
        /\ sites_available_apps (server (snd (deploy w (Some domain) srv email t)))
           = Some (nginxConfig domain apps (dockerApps (cwd w) apps))).
Proof.
  intros Hd Hsync Hall Hfix Hscp. rewrite deploy_summary. unfold summary.
  destruct domain as [|u r]; [contradiction|].
  rewrite Hsync, Hall. cbv zeta. rewrite Hfix, Hscp. cbn [fst snd after server].
  unfold activated. split.
  - destruct (exits_zero w (Ssh _ Activate)), (nginx_t w _), (reload_ok w);
      cbn; intros; try discriminate; auto.
  - intros ->. rewrite andb_false_r. cbn [andb]. split; [reflexivity|]. split.
    + apply in_or_app. right. simpl. tauto.
    + destruct (exits_zero w (Ssh _ Activate)); cbn; auto.
Qed.

Lemma C1_validate_before_reload_witness :
  fst (deploy (Ex.invalid_config Ex.blog_folder) (Some Ex.example_com) None None
         Ex.deployed_before) = Exited 1
  /\ In (Exec (Ssh Ex.example_com Activate) false)
        (trace (snd (deploy (Ex.invalid_config Ex.blog_folder) (Some Ex.example_com)
                       None None Ex.deployed_before)))
  /\ loaded (server (snd (deploy (Ex.invalid_config Ex.blog_folder) (Some Ex.example_com)
                            None None Ex.deployed_before)))
     = loaded Ex.deployed_before
  /\ sites_available_apps
       (server (snd (deploy (Ex.invalid_config Ex.blog_folder) (Some Ex.example_com)
                       None None Ex.deployed_before)))
     = Some (nginxConfig Ex.example_com [lit "blog"]
               (dockerApps (cwd (Ex.invalid_config Ex.blog_folder)) [lit "blog"])).
Proof.
  apply (C1_validate_before_reload (Ex.invalid_config Ex.blog_folder) Ex.example_com
           None None Ex.deployed_before [lit "blog"]); try reflexivity.
  discriminate.
Defined.

(** C1, as stated, fails: on a target deployed to before, a run whose
    configuration [nginx -t] rejects exits with status 1 and does not
    reload, but [/etc/nginx/sites-available/apps], the file the enabled
    link points to, no longer holds what it held. *)
Lemma C1_file_overwritten :
  fst (deploy (Ex.invalid_config Ex.blog_folder) (Some Ex.example_com) None None
         Ex.deployed_before) = Exited 1
  /\ sites_available_apps Ex.deployed_before = Some Ex.old_config
  /\ nginx_t (Ex.invalid_config Ex.blog_folder) (Some Ex.old_config) = true
  /\ nginx_t (Ex.invalid_config Ex.blog_folder)
       (Some (nginxConfig Ex.example_com [lit "blog"] [])) = false
  /\ sites_available_apps
       (server (snd (deploy (Ex.invalid_config Ex.blog_folder) (Some Ex.example_com)
                       None None Ex.deployed_before)))
     = Some (nginxConfig Ex.example_com [lit "blog"] [])
  /\ nginxConfig Ex.example_com [lit "blog"] [] <> Ex.old_config
  /\ loaded (server (snd (deploy (Ex.invalid_config Ex.blog_folder) (Some Ex.example_com)
                            None None Ex.deployed_before)))
     = Some Ex.old_config.
Proof.
  do 5 (split; [reflexivity|]).
  split; [|reflexivity].
  intros H. apply (f_equal (@length _)) in H. vm_compute in H. discriminate.
Qed.

(** ** Which failures end a run *)

(** C5 on the code.  A failure of the command of step 6 ends the run:
    with an unreachable ssh session at step 6 and every other command
    succeeding, the run exits with status 1 after step 6, writes no
    configuration and never reaches the upload or the reload.  The same
    holds whenever step 6 fails.  Failures in steps 3, 4 and 5 do not end
    a run. *)
Theorem C5_step_6_is_fatal :
  (fst (deploy (Ex.step6_unreachable Ex.blog_folder) (Some Ex.example_com) None None
          Ex.deployed_before) = Exited 1
   /\ executed (snd (deploy (Ex.step6_unreachable Ex.blog_folder) (Some Ex.example_com)
                       None None Ex.deployed_before))
      = [ Rsync (lit "/home/me/sites") Ex.example_com;
          Ssh Ex.example_com StopOrphans;
          Ssh Ex.example_com (EnsureCert (lit "blog") Ex.example_com []);
          Ssh Ex.example_com FixPermissions ]
   /\ rendered (snd (deploy (Ex.step6_unreachable Ex.blog_folder) (Some Ex.example_com)
                       None None Ex.deployed_before)) = [])
  /\ (forall w domain srv email t apps,
        domain <> [] ->
        exits_zero w (Rsync (cwd_path w) (or_else srv domain)) = true ->
        allApps (cwd w) = Some apps ->
        exits_zero w (Ssh (or_else srv domain) FixPermissions) = false ->
        fst (deploy w (Some domain) srv email t) = Exited 1
        /\ rendered (snd (deploy w (Some domain) srv email t)) = []
        /\ server (snd (deploy w (Some domain) srv email t)) = t)
  /\ (forall w domain srv email t apps,
        domain <> [] ->
        exits_zero w (Rsync (cwd_path w) (or_else srv domain)) = true ->
        allApps (cwd w) = Some apps ->
        exits_zero w (Ssh (or_else srv domain) FixPermissions) = true ->
        exits_zero w (Scp (tmpConfigPath w) (or_else srv domain)) = true ->
        exits_zero w (Ssh (or_else srv domain) Activate) = true ->
        nginx_t w (Some (nginxConfig domain apps (dockerApps (cwd w) apps))) = true ->
        reload_ok w = true ->
        fst (deploy w (Some domain) srv email t) = Returned tt).
Proof.
  split; [repeat split; reflexivity|]. split.
  - intros w domain srv email t apps Hd Hsync Hall Hfix.
    rewrite deploy_summary. unfold summary.
    destruct domain as [|u r]; [contradiction|].
    rewrite Hsync, Hall. cbv zeta. rewrite Hfix. cbn [fst snd].
    rewrite rendered_front. repeat split.
  - intros w domain srv email t apps Hd Hsync Hall Hfix Hscp Hact Hval Hreload.
    rewrite deploy_summary. unfold summary.
    destruct domain as [|u r]; [contradiction|].
    rewrite Hsync, Hall. cbv zeta. rewrite Hfix, Hscp, Hact, Hval, Hreload.
    reflexivity.
Qed.

(** ** Step 4 *)

(** C3 on the code.  [runSSH] puts the script of step 4 between double
    quotes, so the shell of the deploying machine expands [$(...)],
    [$PROJECTS] and [$project] before ssh sends the text: the target
    receives a loop over no word at all and stops nothing, whatever runs
    there.  With projects a, b and c running and directories for a and c
    only, the orphan set is b, which is also what the script would stop
    were it to reach the target as written; the run stops none. *)
Theorem C3_orphans_are_not_stopped :
  Sh.lines (received plain_machine stop_orphans_script)
  = [ [];
      lit "    PROJECTS=";
      lit "    for project in ; do";
      lit "      if [ ! -d " ++ [dquote] ++ lit "/var/www/apps/" ++ [dquote] ++ lit " ]; then";
      lit "        echo " ++ [dquote] ++ lit "Stopping orphaned: " ++ [dquote];
      lit "        docker compose -p " ++ [dquote] ++ [dquote]
        ++ lit " down --remove-orphans 2>/dev/null || true";
      lit "      fi";
      lit "    done";
      lit "  " ]
  /\ (forall t, stop_orphans plain_machine t = Some [])
  /\ orphan_set_spec [lit "a"; lit "b"; lit "c"] [lit "a"; lit "c"] = [lit "b"]
  /\ run_stop_orphans (host_with [lit "a"; lit "b"; lit "c"] [lit "a"; lit "c"])
       stop_orphans_script = Some [lit "b"]
  /\ stop_orphans plain_machine (host_with [lit "a"; lit "b"; lit "c"] [lit "a"; lit "c"])
     = Some [].
Proof.
  repeat split; try reflexivity.
Qed.

(* ================================================================= *)
(** ** Reading the document and the command lines back *)

Section Reading.

Lemma strip_prefix_app (pre s : jsstring) : Sh.strip_prefix pre (pre ++ s) = Some s.
Proof.
  induction pre as [|u pre IH]; simpl; [reflexivity|]. now rewrite N.eqb_refl.
Qed.

Lemma between_mid (pre post mid : jsstring) :
  Sh.between pre post (pre ++ mid ++ post) = Some mid.
Proof.
  unfold Sh.between. rewrite strip_prefix_app, rev_app_distr, strip_prefix_app.
  simpl. now rewrite rev_involutive.
Qed.

Lemma between_miss (pre post s : jsstring) :
  Sh.strip_prefix pre s = None -> Sh.between pre post s = None.
Proof. unfold Sh.between. now intros ->. Qed.

Lemma startsWith_app (needle post : jsstring) : startsWith (needle ++ post) needle = true.
Proof.
  induction needle as [|u needle IH]; simpl; [reflexivity|].
  now rewrite N.eqb_refl.
Qed.

Lemma occurs_in_app (pre needle post : jsstring) :
  occurs_in needle (pre ++ needle ++ post) = true.
Proof.
  induction pre as [|u pre IH].
  - cbn [app]. destruct (needle ++ post) eqn:E; cbn [occurs_in].
    + destruct needle; [reflexivity | discriminate].
    + rewrite <- E, startsWith_app. reflexivity.
  - cbn [app occurs_in]. rewrite IH. apply orb_true_r.
Qed.

(** *** The lines of a [server] block *)

Lemma read_line_other (line : jsstring) (b : server_read) :
  Sh.strip_prefix (lit "    listen ") line = None ->
  Sh.strip_prefix (lit "    server_name ") line = None ->
  Sh.strip_prefix (lit "        proxy_pass ") line = None ->
  Sh.strip_prefix (lit "    root ") line = None ->
  read_line line b = b.
Proof.
  intros H1 H2 H3 H4. unfold read_line, argument.
  now rewrite !between_miss by assumption.
Qed.

Lemma read_line_listen (x : jsstring) (b : server_read) :
  read_line (lit "    listen " ++ x ++ lit ";") b
  = {| listens := listens b ++ [x]; named := named b;
       passes_to := passes_to b; serves := serves b |}.
Proof. unfold read_line, argument. now rewrite between_mid. Qed.

Lemma read_line_server_name (x : jsstring) (b : server_read) :
  read_line (lit "    server_name " ++ x ++ lit ";") b
  = {| listens := listens b; named := Some x;
       passes_to := passes_to b; serves := serves b |}.
Proof.
  unfold read_line, argument.
  rewrite (between_miss (lit "    listen ")) by reflexivity.
  now rewrite between_mid.
Qed.

Lemma read_line_proxy_pass (x : jsstring) (b : server_read) :
  read_line (lit "        proxy_pass " ++ x ++ lit ";") b
  = {| listens := listens b; named := named b;
       passes_to := Some x; serves := serves b |}.
Proof.
  unfold read_line, argument.
  rewrite (between_miss (lit "    listen ")) by reflexivity.
  rewrite (between_miss (lit "    server_name ")) by reflexivity.
  now rewrite between_mid.
Qed.

Lemma read_line_root (x : jsstring) (b : server_read) :
  read_line (lit "    root " ++ x ++ lit ";") b
  = {| listens := listens b; named := named b;
       passes_to := passes_to b; serves := Some x |}.
Proof.
  unfold read_line, argument.
  rewrite (between_miss (lit "    listen ")) by reflexivity.
  rewrite (between_miss (lit "    server_name ")) by reflexivity.
  rewrite (between_miss (lit "        proxy_pass ")) by reflexivity.
  now rewrite between_mid.
Qed.

Lemma read_line_app_name (app domain : jsstring) (b : server_read) :
  read_line (lit "    server_name " ++ app ++ lit "." ++ domain ++ lit ";") b
  = {| listens := listens b; named := Some (subject app domain);
       passes_to := passes_to b; serves := serves b |}.
Proof.
  rewrite <- (read_line_server_name (subject app domain)). unfold subject.
  now rewrite <- !app_assoc.
Qed.

Lemma read_line_http_name (domain : jsstring) (b : server_read) :
  read_line (lit "    server_name *." ++ domain ++ lit " " ++ domain ++ lit ";") b
  = {| listens := listens b; named := Some (lit "*." ++ domain ++ lit " " ++ domain);
       passes_to := passes_to b; serves := serves b |}.
Proof.
  rewrite <- (read_line_server_name (lit "*." ++ domain ++ lit " " ++ domain)).
  now rewrite <- !app_assoc.
Qed.

Lemma read_line_local_port (port : N) (b : server_read) :
  read_line (lit "        proxy_pass http://127.0.0.1:" ++ toString port ++ lit ";") b
  = {| listens := listens b; named := named b;
       passes_to := Some (local_port port); serves := serves b |}.
Proof.
  rewrite <- (read_line_proxy_pass (local_port port)). unfold local_port.
  now rewrite <- !app_assoc.
Qed.

Lemma read_line_app_root (app : jsstring) (b : server_read) :
  read_line (lit "    root /var/www/apps/" ++ app ++ lit ";") b
  = {| listens := listens b; named := named b;
       passes_to := passes_to b; serves := Some (lit "/var/www/apps/" ++ app) |}.
Proof.
  rewrite <- (read_line_root (lit "/var/www/apps/" ++ app)).
  now rewrite <- !app_assoc.
Qed.

Lemma read_outside (line : jsstring) (rest : list jsstring) :
  JS.eqb line (lit "server {") = false ->
  read_servers None (line :: rest) = read_servers None rest.
Proof. intros H. cbn [read_servers]. now rewrite H. Qed.

Lemma read_open (rest : list jsstring) :
  read_servers None (lit "server {" :: rest) = read_servers (Some nothing_read) rest.
Proof. reflexivity. Qed.

Lemma read_inside (b b' : server_read) (line : jsstring) (rest : list jsstring) :
  JS.eqb line (lit "}") = false ->
  read_line line b = b' ->
  read_servers (Some b) (line :: rest) = read_servers (Some b') rest.
Proof. intros H <-. cbn [read_servers]. now rewrite H. Qed.

Lemma read_close (b : server_read) (rest : list jsstring) :
  read_servers (Some b) (lit "}" :: rest) = b :: read_servers None rest.
Proof. reflexivity. Qed.

End Reading.

Ltac read_line_tac :=
  lazymatch goal with
  | |- read_line (lit "    server_name *." ++ _) _ = _ => apply read_line_http_name
  | |- read_line (lit "    server_name " ++ _ ++ lit "." ++ _ ++ lit ";") _ = _ =>
      apply read_line_app_name
  | |- read_line (lit "    server_name " ++ _ ++ lit ";") _ = _ =>
      apply read_line_server_name
  | |- read_line (lit "        proxy_pass http://127.0.0.1:" ++ _) _ = _ =>
      apply read_line_local_port
  | |- read_line (lit "    root /var/www/apps/" ++ _ ++ lit ";") _ = _ =>
      apply read_line_app_root
  | |- read_line (lit "    listen 80;") _ = _ => exact (read_line_listen (lit "80") _)
  | |- read_line (lit "    listen [::]:80;") _ = _ =>
      exact (read_line_listen (lit "[::]:80") _)
  | |- read_line (lit "    listen 443 ssl http2;") _ = _ =>
      exact (read_line_listen (lit "443 ssl http2") _)
  | |- read_line (lit "    listen [::]:443 ssl http2;") _ = _ =>
      exact (read_line_listen (lit "[::]:443 ssl http2") _)
  | |- read_line (lit "    root /var/www/apps/_root;") _ = _ =>
      exact (read_line_root (lit "/var/www/apps/_root") _)
  | |- _ => apply read_line_other; reflexivity
  end.

Ltac read_one :=
  first
    [ rewrite read_close
    | rewrite read_open
    | rewrite read_outside by reflexivity
    | erewrite read_inside; [ | reflexivity | read_line_tac ] ].

Section Blocks_read.

Lemma read_block (b : server_block) (rest : list jsstring) :
  read_servers None (block_lines b ++ rest) = read_of b :: read_servers None rest.
Proof.
  destruct b as [domain|domain|name domain port|name domain];
    cbn [block_lines]; unfold http_server, root_server, docker_server, static_server;
    cbn [app]; repeat read_one; reflexivity.
Qed.

Lemma read_blocks (bs : list server_block) (rest : list jsstring) :
  read_servers None (flat_map block_lines bs ++ rest)
  = map read_of bs ++ read_servers None rest.
Proof.
  induction bs as [|b bs IH]; [reflexivity|].
  cbn [flat_map map]. rewrite <- app_assoc, read_block, IH. reflexivity.
Qed.

End Blocks_read.

Section Document.

Variable domain : jsstring.
Variable docker : list jsstring.

(** With no line break in a name, the blocks read off the document are
    the readings of the blocks the loop has emitted. *)
Lemma servers_read_config (apps : list jsstring) :
  one_line domain -> Forall one_line apps ->
  servers_read (nginxConfig domain apps docker)
  = map read_of (config_blocks domain apps docker).
Proof.
  intros Hd Ha. unfold servers_read.
  rewrite nginxConfig_render, render_unlines, lines_unlines
    by now apply config_one_line.
  rewrite read_blocks. cbn. now rewrite app_nil_r.
Qed.

Lemma proxies_of_blocks (bs : list server_block) :
  (forall b, In b bs -> match b with Http d | Root d | Proxy _ d _ | Static _ d => d = domain end) ->
  flat_map (fun b => match named b, passes_to b with
                     | Some name, Some target => [(name, target)]
                     | _, _ => []
                     end)
           (map read_of bs)
  = map (fun ap => (subject (fst ap) domain, local_port (snd ap))) (proxied bs).
Proof.
  induction bs as [|b bs IH]; intros H; [reflexivity|].
  cbn [map flat_map proxied]. fold (proxied bs).
  rewrite IH by (intros; apply H; now right).
  pose proof (H b (or_introl eq_refl)) as Hb.
  destruct b; cbn; subst; reflexivity.
Qed.

Lemma app_blocks_domain (apps : list jsstring) (port : N) (b : server_block) :
  In b (app_blocks domain docker apps port) ->
  match b with Http d | Root d | Proxy _ d _ | Static _ d => d = domain end.
Proof.
  revert port. induction apps as [|a rest IH]; intros port; cbn [app_blocks]; [easy|].
  destruct (includes docker a); (intros [<- | H]; [reflexivity | exact (IH _ H)]).
Qed.

Lemma proxies_read_config (apps : list jsstring) :
  one_line domain -> Forall one_line apps ->
  proxies_read (nginxConfig domain apps docker)
  = map (fun ap => (subject (fst ap) domain, local_port (snd ap)))
        (ports_from 3000 (filter (includes docker) apps)).
Proof.
  intros Hd Ha. unfold proxies_read. rewrite servers_read_config by assumption.
  rewrite proxies_of_blocks.
  - unfold config_blocks. cbn [proxied flat_map app].
    fold (proxied (app_blocks domain docker apps 3000)).
    now rewrite proxied_app_blocks.
  - unfold config_blocks. intros b [<- | [<- | H]]; try reflexivity.
    now apply app_blocks_domain in H.
Qed.

(** The block of a Docker app holds the lines from its name to its
    port, as they are. *)
Lemma docker_server_proxies (a : jsstring) (port : N) :
  exists pre post,
    unlines (docker_server a domain port) = pre ++ proxies_to a domain port ++ post.
Proof.
  exists (unlines (firstn 5 (docker_server a domain port))),
         (unlines (skipn 12 (docker_server a domain port))).
  unfold proxies_to. rewrite <- !unlines_app. reflexivity.
Qed.

Lemma proxied_In (apps : list jsstring) (start : N) (a : jsstring) (port : N) :
  In (a, port) (proxied (app_blocks domain docker apps start)) ->
  In (Proxy a domain port) (app_blocks domain docker apps start).
Proof.
  revert start. induction apps as [|x rest IH]; intros start; cbn [app_blocks]; [easy|].
  destruct (includes docker x); cbn [proxied flat_map app In];
    fold (proxied (app_blocks domain docker rest (start + 1)));
    fold (proxied (app_blocks domain docker rest start)).
  - intros [[= -> ->] | H]; [now left | right; now apply IH].
  - intros H. right. now apply IH.
Qed.

(** Whatever the names, the document holds, for each Docker app, the
    lines that send its name to its port. *)
Lemma config_proxies_to (apps : list jsstring) (a : jsstring) (port : N) :
  In (a, port) (ports_from 3000 (filter (includes docker) apps)) ->
  occurs_in (proxies_to a domain port) (nginxConfig domain apps docker) = true.
Proof.
  intros H. rewrite <- (proxied_app_blocks domain docker) in H. apply proxied_In in H.
  apply in_split in H as (l1 & l2 & E).
  rewrite nginxConfig_render. unfold config_blocks.
  change (Http domain :: Root domain :: app_blocks domain docker apps 3000)
    with ([Http domain; Root domain] ++ app_blocks domain docker apps 3000).
  rewrite E, !render_app.
  change (render (Proxy a domain port :: l2))
    with (unlines (docker_server a domain port) ++ render l2).
  destruct (docker_server_proxies a port) as (pre & post & ->).
  replace (render [Http domain; Root domain]
           ++ render l1 ++ (pre ++ proxies_to a domain port ++ post) ++ render l2)
    with ((render [Http domain; Root domain] ++ render l1 ++ pre)
          ++ proxies_to a domain port ++ (post ++ render l2))
    by (now rewrite <- !app_assoc).
  apply occurs_in_app.
Qed.

End Document.

Section Commands.

Lemma escape_app (a b : jsstring) :
  escape_dquotes (a ++ b) = escape_dquotes a ++ escape_dquotes b.
Proof. unfold escape_dquotes. apply flat_map_app. Qed.

Lemma escape_digits (d : Decimal.uint) : escape_dquotes (JS.digits d) = JS.digits d.
Proof.
  induction d; cbn [JS.digits]; [reflexivity|..];
    change (escape_dquotes (?u :: ?r)) with ([u] ++ escape_dquotes r);
    cbn [app]; now rewrite IHd.
Qed.

(** The command line of [runSSH] for a container holds the change of
    directory and the [PORT] it was built from. *)
Lemma compose_line_starts (sshHost a : jsstring) (port : N) :
  occurs_in (starts_on a port) (command_line (Ssh sshHost (ComposeUp a port))) = true.
Proof.
  cbn [command_line script_text]. unfold ssh_line, compose_up_script.
  rewrite !escape_app. unfold toString. rewrite escape_digits.
  fold (toString port).
  change (escape_dquotes (lit "cd /var/www/apps/")) with (lit "cd /var/www/apps/").
  change (escape_dquotes (lit " && PORT=")) with (lit " && PORT=").
  change (escape_dquotes (lit " docker compose up -d --build --remove-orphans"))
    with (lit " docker compose up -d --build --remove-orphans").
  replace (lit "ssh -o StrictHostKeyChecking=no root@" ++ sshHost ++ lit " " ++ [dquote]
           ++ (lit "cd /var/www/apps/" ++ escape_dquotes a ++ lit " && PORT="
               ++ toString port ++ lit " docker compose up -d --build --remove-orphans")
           ++ [dquote])
    with ((lit "ssh -o StrictHostKeyChecking=no root@" ++ sshHost ++ lit " " ++ [dquote])
          ++ starts_on a port ++ [dquote]).
  - apply occurs_in_app.
  - unfold starts_on. now rewrite <- !app_assoc.
Qed.

(** The commands of step 3, in the order of [dockerApps]. *)
Lemma start_containers_lines (w : world) (sshHost : jsstring) (l : list jsstring)
    (t : target) :
  executed (snd (start_containers w sshHost l 3000 (initial t)))
  = map (fun ap => Ssh sshHost (ComposeUp (fst ap) (snd ap))) (ports_from 3000 l).
Proof.
  rewrite start_containers_run. unfold executed, after, initial. cbn [snd trace app].
  rewrite flat_map_map. apply flat_map_singleton.
Qed.

Lemma nth_ports_from (l : list jsstring) (i : nat) (a : jsstring) :
  nth_error l i = Some a -> In (a, 3000 + N.of_nat i) (ports_from 3000 l).
Proof.
  intros H. apply (nth_error_In _ i). now apply ports_from_nth.
Qed.

End Commands.

(* ================================================================= *)
(** ** The ports in the document and on the command lines *)

(** C2.  The loop of step 7 walks [allApps] once with a counter that
    starts at 3000: a Docker app gets the current value in its
    [proxy_pass] line and the counter moves on, a static app gets no port
    and leaves the counter as it is; so the Docker apps, in the order of
    [allApps], get 3000, 3001, ...  This is what the written text says:
    whatever the names, the document holds for the [i]-th Docker app the
    lines that send its name to port 3000 + [i], and when no name holds a
    line break the forwarding blocks read off the document are exactly
    these, one per Docker app and none for a static app.  The loop of
    step 3 puts the same numbers after [PORT=] on its command lines.  For
    the apps of the README, abc gets 3000, myapi 3001, xyz 3002 and blog
    none, in the document as on the command lines. *)
Theorem C2_port_allocation (domain : jsstring) (apps docker : list jsstring) :
  nginxConfig domain apps docker = render (config_blocks domain apps docker)
  /\ (forall app rest port, includes docker app = true ->
        app_blocks domain docker (app :: rest) port
        = Proxy app domain port :: app_blocks domain docker rest (port + 1))
  /\ (forall app rest port, includes docker app = false ->
        app_blocks domain docker (app :: rest) port
        = Static app domain :: app_blocks domain docker rest port)
  /\ proxied (config_blocks domain apps docker)
     = ports_from 3000 (filter (includes docker) apps)
  /\ (forall i app, nth_error (filter (includes docker) apps) i = Some app ->
        nth_error (proxied (config_blocks domain apps docker)) i
        = Some (app, 3000 + N.of_nat i))
  /\ (forall app port, In (app, port) (proxied (config_blocks domain apps docker)) ->
        includes docker app = true)
  /\ (forall i app, nth_error (filter (includes docker) apps) i = Some app ->
        occurs_in (proxies_to app domain (3000 + N.of_nat i))
                  (nginxConfig domain apps docker) = true)
  /\ (one_line domain -> Forall one_line apps ->
        proxies_read (nginxConfig domain apps docker)
        = map (fun ap => (subject (fst ap) domain, local_port (snd ap)))
              (ports_from 3000 (filter (includes docker) apps)))
  /\ (forall w sshHost t i app,
        nth_error docker i = Some app ->
        exists line,
          nth_error (map command_line
                       (executed (snd (start_containers w sshHost docker 3000 (initial t)))))
                    i = Some line
          /\ occurs_in (starts_on app (3000 + N.of_nat i)) line = true)
  /\ (allApps Ex.readme_folder
        = Some [lit "abc"; lit "blog"; lit "myapi"; lit "xyz"]
      /\ dockerApps Ex.readme_folder [lit "abc"; lit "blog"; lit "myapi"; lit "xyz"]
         = [lit "abc"; lit "myapi"; lit "xyz"]
      /\ config_blocks Ex.example_com [lit "abc"; lit "blog"; lit "myapi"; lit "xyz"]
           [lit "abc"; lit "myapi"; lit "xyz"]
         = [ Http Ex.example_com; Root Ex.example_com;
             Proxy (lit "abc") Ex.example_com 3000;
             Static (lit "blog") Ex.example_com;
             Proxy (lit "myapi") Ex.example_com 3001;
             Proxy (lit "xyz") Ex.example_com 3002 ]
      /\ started (snd (deploy (Ex.calm Ex.readme_folder) (Some Ex.example_com)
                         None None Ex.fresh))
         = [(lit "abc", 3000); (lit "myapi", 3001); (lit "xyz", 3002)]
      /\ map (fun b => (named b, passes_to b))
             (servers_read (nginxConfig Ex.example_com
                              [lit "abc"; lit "blog"; lit "myapi"; lit "xyz"]
                              [lit "abc"; lit "myapi"; lit "xyz"]))
         = [ (Some (lit "*.example.com example.com"), None);
             (Some (lit "example.com"), None);
             (Some (lit "abc.example.com"), Some (lit "http://127.0.0.1:3000"));
             (Some (lit "blog.example.com"), None);
             (Some (lit "myapi.example.com"), Some (lit "http://127.0.0.1:3001"));
             (Some (lit "xyz.example.com"), Some (lit "http://127.0.0.1:3002")) ]
      /\ map command_line
             (firstn 3 (skipn 1 (executed (snd (deploy (Ex.calm Ex.readme_folder)
                                                  (Some Ex.example_com)
                                                  None None Ex.fresh)))))
         = [ lit "ssh -o StrictHostKeyChecking=no root@example.com " ++ [dquote]
               ++ lit "cd /var/www/apps/abc && PORT=3000 docker compose up -d --build --remove-orphans"
               ++ [dquote];
             lit "ssh -o StrictHostKeyChecking=no root@example.com " ++ [dquote]
               ++ lit "cd /var/www/apps/myapi && PORT=3001 docker compose up -d --build --remove-orphans"
               ++ [dquote];
             lit "ssh -o StrictHostKeyChecking=no root@example.com " ++ [dquote]
               ++ lit "cd /var/www/apps/xyz && PORT=3002 docker compose up -d --build --remove-orphans"
               ++ [dquote] ]).
Proof.
  assert (Hp : proxied (config_blocks domain apps docker)
               = ports_from 3000 (filter (includes docker) apps)).
  { unfold config_blocks. simpl. apply proxied_app_blocks. }
  split; [apply nginxConfig_render|].
  split; [intros app rest port H; simpl; now rewrite H|].
  split; [intros app rest port H; simpl; now rewrite H|].
  split; [exact Hp|].
  split; [intros i app H; rewrite Hp; now apply ports_from_nth|].
  split.
  { intros app port. rewrite Hp. intros H.
    apply ports_from_In in H as [H _]. now apply filter_In in H. }
  split.
  { intros i app H. apply config_proxies_to. now apply nth_ports_from. }
  split; [now apply proxies_read_config|].
  split.
  { intros w sshHost t i app H. rewrite start_containers_lines, map_map.
    exists (command_line (Ssh sshHost (ComposeUp app (3000 + N.of_nat i)))).
    split; [|apply compose_line_starts].
    rewrite nth_error_map, (ports_from_nth _ _ _ _ H). reflexivity. }
  repeat split; vm_compute; reflexivity.
Qed.

Lemma C2_port_allocation_witness :
  nth_error (proxied (config_blocks Ex.example_com
                        [lit "abc"; lit "blog"; lit "myapi"; lit "xyz"]
                        [lit "abc"; lit "myapi"; lit "xyz"])) 1
  = Some (lit "myapi", 3001)
  /\ app_blocks Ex.example_com [lit "abc"; lit "myapi"; lit "xyz"]
       [lit "blog"; lit "myapi"] 3001
     = Static (lit "blog") Ex.example_com
       :: app_blocks Ex.example_com [lit "abc"; lit "myapi"; lit "xyz"] [lit "myapi"] 3001
  /\ app_blocks Ex.example_com [lit "abc"; lit "myapi"; lit "xyz"] [lit "myapi"] 3001
     = Proxy (lit "myapi") Ex.example_com 3001
       :: app_blocks Ex.example_com [lit "abc"; lit "myapi"; lit "xyz"] [] (3001 + 1)
  /\ includes [lit "abc"; lit "myapi"; lit "xyz"] (lit "xyz") = true
  /\ occurs_in (proxies_to (lit "myapi") Ex.example_com (3000 + N.of_nat 1))
       (nginxConfig Ex.example_com [lit "abc"; lit "blog"; lit "myapi"; lit "xyz"]
          [lit "abc"; lit "myapi"; lit "xyz"]) = true
  /\ proxies_read (nginxConfig Ex.example_com [lit "abc"; lit "blog"; lit "myapi"; lit "xyz"]
                     [lit "abc"; lit "myapi"; lit "xyz"])
     = map (fun ap => (subject (fst ap) Ex.example_com, local_port (snd ap)))
           (ports_from 3000 (filter (includes [lit "abc"; lit "myapi"; lit "xyz"])
                               [lit "abc"; lit "blog"; lit "myapi"; lit "xyz"])).
Proof.
  destruct (C2_port_allocation Ex.example_com
              [lit "abc"; lit "blog"; lit "myapi"; lit "xyz"]
              [lit "abc"; lit "myapi"; lit "xyz"])
    as (_ & Hdocker & Hstatic & _ & Hnth & Honly & Htext & Hread & _).
  split; [apply (Hnth 1%nat); reflexivity|].
  split; [apply Hstatic; reflexivity|].
  split; [apply Hdocker; reflexivity|].
  split; [apply (Honly (lit "xyz") 3002); vm_compute; auto|].
  split; [apply (Htext 1%nat); reflexivity|].
  apply Hread.
  - apply one_line_literal. reflexivity.
  - repeat constructor; apply one_line_literal; reflexivity.
Defined.

(* ================================================================= *)
(** ** The [server] blocks of the document *)

Lemma reads_as_blocks (domain : jsstring) (docker apps : list jsstring) (port : N) :
  Forall2 (reads_as domain docker) apps
          (map read_of (app_blocks domain docker apps port)).
Proof.
  revert port. induction apps as [|a rest IH]; intros port; cbn [app_blocks]; [constructor|].
  destruct (includes docker a) eqn:E; cbn [map]; constructor; try apply IH;
    unfold reads_as; rewrite E; cbn [read_of listens named passes_to serves];
    repeat split; eauto.
Qed.

(** C10, as amended.  When neither the domain nor an app name holds a
    line break, the [server] blocks read off the document are: one block
    that listens on port 80, one secured block for the root domain, and
    then one secured block per app in the order of [allApps], named after
    the app, a forwarding block when the app is in [dockerApps] and a
    file-serving block otherwise; app count plus two blocks in all.  Line
    by line: app count plus two lines open a [server], one line listens
    on port 80, one line announces the root domain, and the [proxy_pass]
    lines and the announcements of static apps are as many as the Docker
    apps and the static apps. *)
Theorem C10_server_blocks (domain : jsstring) (apps docker : list jsstring) :
  one_line domain ->
  Forall one_line apps ->
  (exists rest,
      servers_read (nginxConfig domain apps docker)
      = {| listens := [lit "80"; lit "[::]:80"];
           named := Some (lit "*." ++ domain ++ lit " " ++ domain);
           passes_to := None; serves := None |}
        :: {| listens := [lit "443 ssl http2"; lit "[::]:443 ssl http2"];
              named := Some domain;
              passes_to := None; serves := Some (lit "/var/www/apps/_root") |}
        :: rest
      /\ Forall2 (reads_as domain docker) apps rest)
  /\ length (servers_read (nginxConfig domain apps docker)) = (length apps + 2)%nat
  /\ count (JS.eqb (lit "server {")) (nginxConfig domain apps docker)
     = (length apps + 2)%nat
  /\ count (JS.eqb (lit "    listen 80;")) (nginxConfig domain apps docker) = 1%nat
  /\ count (JS.eqb (lit "# Root domain")) (nginxConfig domain apps docker) = 1%nat
  /\ count (fun l => startsWith l (lit "        proxy_pass http://127.0.0.1:"))
           (nginxConfig domain apps docker)
     = length (filter (includes docker) apps)
  /\ count (fun l => startsWith l (lit "# Static app - ")) (nginxConfig domain apps docker)
     = length (filter (fun app => negb (includes docker app)) apps).
Proof.
  intros Hd Ha.
  assert (Hread := servers_read_config domain docker apps Hd Ha).
  split.
  { exists (map read_of (app_blocks domain docker apps 3000)).
    split; [exact Hread | apply reads_as_blocks]. }
  split.
  { rewrite Hread, length_map. unfold config_blocks. simpl.
    rewrite <- (length_map app_of), app_blocks_apps, length_map. lia. }
  split; [|split; [|split; [|split]]].
  - rewrite (count_config domain docker Hd _ 1 1 1 1); trivial;
      try (intros; vm_compute; reflexivity).
    pose proof (filter_partition_length (includes docker) apps). lia.
  - rewrite (count_config domain docker Hd _ 1 0 0 0); trivial;
      try (intros; vm_compute; reflexivity); try lia.
  - rewrite (count_config domain docker Hd _ 0 1 0 0); trivial;
      try (intros; vm_compute; reflexivity); try lia.
  - rewrite (count_config domain docker Hd _ 0 0 1 0); trivial;
      try (intros; vm_compute; reflexivity); try lia.
  - rewrite (count_config domain docker Hd _ 0 0 0 1); trivial;
      try (intros; vm_compute; reflexivity); try lia.
Qed.

Lemma C10_server_blocks_witness :
  (exists rest,
      servers_read (nginxConfig Ex.example_com
                      [lit "abc"; lit "blog"; lit "myapi"; lit "xyz"]
                      [lit "abc"; lit "myapi"; lit "xyz"])
      = {| listens := [lit "80"; lit "[::]:80"];
           named := Some (lit "*." ++ Ex.example_com ++ lit " " ++ Ex.example_com);
           passes_to := None; serves := None |}
        :: {| listens := [lit "443 ssl http2"; lit "[::]:443 ssl http2"];
              named := Some Ex.example_com;
              passes_to := None; serves := Some (lit "/var/www/apps/_root") |}
        :: rest
      /\ Forall2 (reads_as Ex.example_com [lit "abc"; lit "myapi"; lit "xyz"])
                 [lit "abc"; lit "blog"; lit "myapi"; lit "xyz"] rest)
  /\ length (servers_read (nginxConfig Ex.example_com
                             [lit "abc"; lit "blog"; lit "myapi"; lit "xyz"]
                             [lit "abc"; lit "myapi"; lit "xyz"])) = 6%nat
  /\ count (JS.eqb (lit "server {"))
           (nginxConfig Ex.example_com [lit "abc"; lit "blog"; lit "myapi"; lit "xyz"]
              [lit "abc"; lit "myapi"; lit "xyz"]) = 6%nat.
Proof.
  destruct (C10_server_blocks Ex.example_com
              [lit "abc"; lit "blog"; lit "myapi"; lit "xyz"]
              [lit "abc"; lit "myapi"; lit "xyz"]) as (H1 & H2 & H3 & _).
  - apply one_line_literal. reflexivity.
  - repeat constructor; apply one_line_literal; reflexivity.
  - split; [exact H1|]. split; [exact H2 | exact H3].
Defined.

(** A directory name may hold a line break, and step 2 takes such a
    directory for an app.  For the single static app whose name is [a],
    a line break and [server {], the document has four lines that open a
    [server] for three blocks emitted, and none of the blocks read off
    it carries the name of the app. *)
Lemma C10_line_break_in_name :
  allApps Odd.folder_with_break = Some [Odd.name]
  /\ dockerApps Odd.folder_with_break [Odd.name] = []
  /\ count (JS.eqb (lit "server {")) (nginxConfig Ex.example_com [Odd.name] []) = 4%nat
  /\ (length [Odd.name] + 2)%nat = 3%nat
  /\ map named (servers_read (nginxConfig Ex.example_com [Odd.name] []))
     = [ Some (lit "*.example.com example.com"); Some (lit "example.com"); None ].
Proof. repeat split; vm_compute; reflexivity. Qed.

(* ================================================================= *)
(** ** The two walks *)

(** The commands of a run that wrote a configuration begin with [rsync]
    and the commands of step 3. *)
Lemma run_renders_commands (w : world) (domain srv email : option jsstring) (t : target)
    (doc : jsstring) :
  In doc (rendered (snd (deploy w domain srv email t))) ->
  exists d apps rest,
    domain = Some d
    /\ allApps (cwd w) = Some apps
    /\ executed (snd (deploy w domain srv email t))
       = Rsync (cwd_path w) (or_else srv d)
         :: map (fun ap => Ssh (or_else srv d) (ComposeUp (fst ap) (snd ap)))
                (ports_from 3000 (dockerApps (cwd w) apps))
         ++ rest.
Proof.
  rewrite deploy_summary. unfold summary.
  destruct domain as [[|u r]|]; try (simpl; tauto).
  destruct (exits_zero w (Rsync _ _)); [|simpl; tauto].
  destruct (allApps (cwd w)) as [apps|]; [|simpl; tauto].
  cbv zeta.
  destruct (exits_zero w (Ssh _ FixPermissions)).
  - intros _. exists (u :: r), apps.
    destruct (exits_zero w (Scp _ _)); cbn [snd]; rewrite executed_front;
      eexists; repeat split; reflexivity.
  - cbn [snd]. rewrite rendered_front. simpl. tauto.
Qed.

(** C9.  The ports given to [docker compose up] by the loop of step 3
    over [dockerApps] are the ports written into the [proxy_pass] lines by
    the loop of step 7 over [allApps]: in every run that writes a
    configuration, the containers started and the proxied apps of the
    document are the same list of pairs of app and port.  In the texts:
    for the [i]-th Docker app, the command line that follows [rsync] at
    distance [i] sets [PORT] to 3000 + [i] in the directory of the app,
    and the document holds the lines that send the name of the app to
    that same port; when no name holds a line break, the forwarding
    blocks read off the document are exactly the containers started,
    each with the port it was given. *)
Theorem C9_same_ports (w : world) (domain srv email : option jsstring) (t : target) :
  (forall d apps,
      proxied (config_blocks d apps (dockerApps (cwd w) apps))
      = ports_from 3000 (dockerApps (cwd w) apps))
  /\ (forall doc,
        In doc (rendered (snd (deploy w domain srv email t))) ->
        exists d apps,
          domain = Some d
          /\ allApps (cwd w) = Some apps
          /\ doc = render (config_blocks d apps (dockerApps (cwd w) apps))
          /\ started (snd (deploy w domain srv email t))
             = proxied (config_blocks d apps (dockerApps (cwd w) apps))
          /\ (forall i app,
                nth_error (dockerApps (cwd w) apps) i = Some app ->
                exists line,
                  nth_error (map command_line
                               (executed (snd (deploy w domain srv email t)))) (S i)
                  = Some line
                  /\ occurs_in (starts_on app (3000 + N.of_nat i)) line = true
                  /\ occurs_in (proxies_to app d (3000 + N.of_nat i)) doc = true)
          /\ (one_line d -> Forall one_line apps ->
              proxies_read doc
              = map (fun ap => (subject (fst ap) d, local_port (snd ap)))
                    (started (snd (deploy w domain srv email t))))).
Proof.
  assert (Hports : forall d apps,
             proxied (config_blocks d apps (dockerApps (cwd w) apps))
             = ports_from 3000 (dockerApps (cwd w) apps)).
  { intros d apps. unfold config_blocks. cbn [proxied flat_map app].
    fold (proxied (app_blocks d (dockerApps (cwd w) apps) apps 3000)).
    now rewrite proxied_app_blocks, filter_dockerApps. }
  split; [exact Hports|].
  intros doc Hdoc.
  destruct (run_renders_commands w domain srv email t doc Hdoc)
    as (d' & apps' & rest & Ed' & Hall' & Hexec).
  destruct (run_renders w domain srv email t doc Hdoc)
    as (d & apps & -> & Hall & Hr & Hs & _).
  injection Ed' as <-. rewrite Hall in Hall'. injection Hall' as <-.
  exists d, apps. rewrite Hr in Hdoc. destruct Hdoc as [<- | []].
  split; [reflexivity|]. split; [assumption|].
  split; [apply nginxConfig_render|].
  split; [now rewrite Hs, Hports|].
  split.
  - intros i app Hi.
    exists (command_line (Ssh (or_else srv d) (ComposeUp app (3000 + N.of_nat i)))).
    split; [|split].
    + rewrite Hexec. cbn [map nth_error]. rewrite map_app, map_map.
      rewrite nth_error_app1.
      * rewrite nth_error_map, (ports_from_nth _ _ _ _ Hi). reflexivity.
      * rewrite length_map.
        rewrite <- (length_map fst), ports_from_fst.
        apply nth_error_Some. congruence.
    + apply compose_line_starts.
    + apply config_proxies_to. rewrite filter_dockerApps. now apply nth_ports_from.
  - intros Hd Ha. rewrite Hs, proxies_read_config by assumption.
    now rewrite filter_dockerApps.
Qed.

Lemma C9_same_ports_witness :
  exists d apps,
    Some Ex.example_com = Some d
    /\ allApps (cwd (Ex.flaky Ex.readme_folder)) = Some apps
    /\ nginxConfig Ex.example_com [lit "abc"; lit "blog"; lit "myapi"; lit "xyz"]
         [lit "abc"; lit "myapi"; lit "xyz"]
       = render (config_blocks d apps (dockerApps (cwd (Ex.flaky Ex.readme_folder)) apps))
    /\ started (snd (deploy (Ex.flaky Ex.readme_folder) (Some Ex.example_com) None None Ex.fresh))
       = proxied (config_blocks d apps (dockerApps (cwd (Ex.flaky Ex.readme_folder)) apps))
    /\ (forall i app,
          nth_error (dockerApps (cwd (Ex.flaky Ex.readme_folder)) apps) i = Some app ->
          exists line,
            nth_error (map command_line
                         (executed (snd (deploy (Ex.flaky Ex.readme_folder)
                                           (Some Ex.example_com) None None Ex.fresh))))
                      (S i)
            = Some line
            /\ occurs_in (starts_on app (3000 + N.of_nat i)) line = true
            /\ occurs_in (proxies_to app d (3000 + N.of_nat i))
                 (nginxConfig Ex.example_com [lit "abc"; lit "blog"; lit "myapi"; lit "xyz"]
                    [lit "abc"; lit "myapi"; lit "xyz"]) = true)
    /\ (one_line d -> Forall one_line apps ->
        proxies_read (nginxConfig Ex.example_com [lit "abc"; lit "blog"; lit "myapi"; lit "xyz"]
                        [lit "abc"; lit "myapi"; lit "xyz"])
        = map (fun ap => (subject (fst ap) d, local_port (snd ap)))
              (started (snd (deploy (Ex.flaky Ex.readme_folder) (Some Ex.example_com)
                               None None Ex.fresh)))).
Proof.
  apply (C9_same_ports (Ex.flaky Ex.readme_folder) (Some Ex.example_com) None None Ex.fresh).
  vm_compute. left. reflexivity.
Defined.

(* ================================================================= *)
(** ** An entry that cannot be examined *)



(* ================================================================= *)
(** * Further properties *)

(** ** The command line *)

Section CommandLine.

Lemma truthy_nonempty (v : jsstring) : truthy (Some v) = true <-> v <> [].
Proof. destruct v; simpl; split; congruence. Qed.

Lemma follows_more (flag v : jsstring) (seen more : list jsstring) :
  follows flag v seen -> follows flag v (seen ++ more).
Proof.
  intros (b & a & ->). exists b, (a ++ more).
  now rewrite <- app_assoc.
Qed.

Lemma follows_last (flag v : jsstring) (seen : list jsstring) :
  follows flag v (seen ++ [flag; v]).
Proof. exists seen, []. reflexivity. Qed.

Lemma filled_more (seen more : list jsstring) (r : Cli.parsed) :
  filled seen r -> filled (seen ++ more) r.
Proof.
  intros (Hc & Hd & Hs & He).
  split; [exact Hc|].
  split; [|split]; intros v Hv;
    [destruct (Hd v Hv) | destruct (Hs v Hv) | destruct (He v Hv)];
    (split; [assumption | now apply follows_more]).
Qed.

Lemma canonical_known (arg : jsstring) :
  Cli.is_command_word arg = true ->
  In (Some (Cli.canonical arg)) known_commands.
Proof.
  unfold Cli.is_command_word, Cli.canonical, known_commands.
  intros H. repeat (apply orb_true_iff in H; destruct H as [H | H]);
    apply eqb_eq in H; subst; vm_compute; tauto.
Qed.

Lemma filled_command (seen : list jsstring) (r : Cli.parsed) (c : jsstring) :
  In (Some c) known_commands -> filled seen r -> filled seen (Cli.set_command c r).
Proof.
  intros Hc (_ & Hd & Hs & He).
  split; [exact Hc|]. split; [exact Hd|]. split; [exact Hs | exact He].
Qed.

Lemma filled_domain (seen : list jsstring) (r : Cli.parsed) (v : jsstring) :
  v <> [] -> filled seen r ->
  filled (seen ++ [lit "--domain"; v]) (Cli.set_domain v r).
Proof.
  intros Hv Hr. apply (filled_more seen [lit "--domain"; v]) in Hr.
  destruct Hr as (Hc & _ & Hs & He).
  split; [exact Hc|]. split; [|split; [exact Hs | exact He]].
  simpl. intros v' [= <-]. split; [assumption | apply follows_last].
Qed.

Lemma filled_server (seen : list jsstring) (r : Cli.parsed) (v : jsstring) :
  v <> [] -> filled seen r ->
  filled (seen ++ [lit "--server"; v]) (Cli.set_server v r).
Proof.
  intros Hv Hr. apply (filled_more seen [lit "--server"; v]) in Hr.
  destruct Hr as (Hc & Hd & _ & He).
  split; [exact Hc|]. split; [exact Hd|]. split; [|exact He].
  simpl. intros v' [= <-]. split; [assumption | apply follows_last].
Qed.

Lemma filled_email (seen : list jsstring) (r : Cli.parsed) (v : jsstring) :
  v <> [] -> filled seen r ->
  filled (seen ++ [lit "--email"; v]) (Cli.set_email v r).
Proof.
  intros Hv Hr. apply (filled_more seen [lit "--email"; v]) in Hr.
  destruct Hr as (Hc & Hd & Hs & _).
  split; [exact Hc|]. split; [exact Hd|]. split; [exact Hs|].
  simpl. intros v' [= <-]. split; [assumption | apply follows_last].
Qed.

Lemma scan_filled (n : nat) :
  forall args seen r,
    (length args <= n)%nat -> filled seen r -> filled (seen ++ args) (Cli.scan args r).
Proof.
  induction n as [|n IH]; intros [|arg rest] seen r Hlen Hr; simpl in Hlen;
    try lia; try (simpl; now rewrite app_nil_r).
  assert (Hhelp : In (Some (lit "help")) known_commands) by (vm_compute; tauto).
  assert (Hstep : forall r', filled (seen ++ [arg]) r' ->
                             filled (seen ++ arg :: rest) (Cli.scan rest r')).
  { intros r' Hr'. replace (seen ++ arg :: rest) with ((seen ++ [arg]) ++ rest)
      by now rewrite <- app_assoc.
    apply IH; [lia | assumption]. }
  cbn [Cli.scan].
  destruct (Cli.is_command_word arg) eqn:Hw.
  { apply Hstep, filled_command; [now apply canonical_known | now apply filled_more]. }
  destruct rest as [|value after].
  { destruct (Cli.is_help arg);
      [apply filled_command; [assumption|] |]; now apply filled_more. }
  assert (Hskip : forall r', filled (seen ++ [arg; value]) r' ->
                             filled (seen ++ arg :: value :: after) (Cli.scan after r')).
  { intros r' Hr'.
    replace (seen ++ arg :: value :: after) with ((seen ++ [arg; value]) ++ after)
      by now rewrite <- app_assoc.
    apply IH; [simpl in Hlen; lia | assumption]. }
  destruct (JS.eqb arg (lit "--domain") && truthy (Some value)) eqn:Hd.
  { apply andb_true_iff in Hd as [Ha Hv]. apply eqb_eq in Ha. subst arg.
    apply truthy_nonempty in Hv. now apply Hskip, filled_domain. }
  destruct (JS.eqb arg (lit "--server") && truthy (Some value)) eqn:Hs.
  { apply andb_true_iff in Hs as [Ha Hv]. apply eqb_eq in Ha. subst arg.
    apply truthy_nonempty in Hv. now apply Hskip, filled_server. }
  destruct (JS.eqb arg (lit "--email") && truthy (Some value)) eqn:He.
  { apply andb_true_iff in He as [Ha Hv]. apply eqb_eq in Ha. subst arg.
    apply truthy_nonempty in Hv. now apply Hskip, filled_email. }
  destruct (Cli.is_help arg);
    apply Hstep; [apply filled_command; [assumption|] |]; now apply filled_more.
Qed.

Lemma parseArgs_filled (argv : list jsstring) : filled argv (Cli.parseArgs argv).
Proof.
  unfold Cli.parseArgs.
  apply (scan_filled (length argv) argv []); [lia|].
  repeat split; simpl; try discriminate. tauto.
Qed.

(** An option set by [parseArgs] holds a non-empty argument, the one
    that directly follows its flag; so [domain], [server] and [email] are
    never the empty string, and the test [!domain] of the commands fails
    exactly when no [--domain] was taken. *)
Theorem parseArgs_values (argv : list jsstring) :
  (forall v, Cli.domain (Cli.parseArgs argv) = Some v ->
             v <> [] /\ follows (lit "--domain") v argv)
  /\ (forall v, Cli.server (Cli.parseArgs argv) = Some v ->
               v <> [] /\ follows (lit "--server") v argv)
  /\ (forall v, Cli.email (Cli.parseArgs argv) = Some v ->
               v <> [] /\ follows (lit "--email") v argv)
  /\ (truthy (Cli.domain (Cli.parseArgs argv)) = false <->
        Cli.domain (Cli.parseArgs argv) = None).
Proof.
  destruct (parseArgs_filled argv) as (_ & Hd & Hs & He).
  split; [exact Hd|]. split; [exact Hs|]. split; [exact He|].
  destruct (Cli.domain (Cli.parseArgs argv)) as [[|u r]|] eqn:E; simpl;
    split; intros H; try discriminate; try reflexivity.
  destruct (Hd [] eq_refl) as [Hne _]. now contradiction Hne.
Qed.

Lemma complete_cons (arg : jsstring) (rest : list jsstring) :
  rest <> [] -> complete (arg :: rest) -> complete rest.
Proof.
  unfold complete. simpl. intros Hne.
  destruct (List.rev rest) as [|l r] eqn:E; [|trivial].
  apply (f_equal (@List.rev _)) in E. rewrite rev_involutive in E. now subst.
Qed.

Lemma scan_app (n : nat) :
  forall l1 l2 r,
    (length l1 <= n)%nat -> complete l1 ->
    Cli.scan (l1 ++ l2) r = Cli.scan l2 (Cli.scan l1 r).
Proof.
  induction n as [|n IH]; intros [|arg rest] l2 r Hlen Hc; simpl in Hlen;
    try lia; try reflexivity.
  assert (Hrest : forall r', Cli.scan (rest ++ l2) r' = Cli.scan l2 (Cli.scan rest r')).
  { intros r'. destruct rest as [|x rest']; [reflexivity|].
    apply IH; [lia|]. now apply (complete_cons arg). }
  cbn [app Cli.scan].
  destruct (Cli.is_command_word arg); [apply Hrest|].
  destruct rest as [|value after].
  - (* [arg] is the last argument of [l1]: it takes no value *)
    unfold complete in Hc. simpl in Hc. unfold Cli.takes_value in Hc.
    apply orb_false_iff in Hc as [Hc He]. apply orb_false_iff in Hc as [Hd Hs].
    cbn [app]. destruct l2 as [|value after]; [reflexivity|].
    rewrite Hd, Hs, He. cbn [andb]. now destruct (Cli.is_help arg).
  - cbn [app].
    assert (Hafter : forall r', Cli.scan (after ++ l2) r' = Cli.scan l2 (Cli.scan after r')).
    { intros r'. destruct after as [|x after']; [reflexivity|].
      apply IH; [simpl in *; lia|].
      apply (complete_cons value); [discriminate|].
      now apply (complete_cons arg). }
    destruct (JS.eqb arg (lit "--domain") && truthy (Some value)); [apply Hafter|].
    destruct (JS.eqb arg (lit "--server") && truthy (Some value)); [apply Hafter|].
    destruct (JS.eqb arg (lit "--email") && truthy (Some value)); [apply Hafter|].
    destruct (Cli.is_help arg); apply (Hrest _).
Qed.

(** The main block never reaches its last branch: whatever the
    arguments, [parseArgs] leaves [command] at [null] or sets it to
    [setup], [deploy], [github-workflow] or [help], so the main block
    shows the help or calls one of the three commands and never reports
    an unknown command.  Word by word, after arguments that do not end
    in an option waiting for its value: [gh], [automate] and
    [github-workflow] set the command to [github-workflow] and reach
    [githubWorkflowCommand], [setup] and [deploy] set it to themselves,
    [--help] and [-h] set it to [help], and any other word is dropped. *)
Theorem main_never_unknown (argv : list jsstring) :
  In (Cli.command (Cli.parseArgs argv)) known_commands
  /\ (forall c, Cli.main argv <> Cli.UnknownCommand c)
  /\ (Cli.main argv = Cli.ShowHelp <->
        Cli.command (Cli.parseArgs argv) = None
        \/ Cli.command (Cli.parseArgs argv) = Some (lit "help"))
  /\ (forall word,
        complete argv ->
        (In word [lit "gh"; lit "automate"; lit "github-workflow"] ->
         Cli.parseArgs (argv ++ [word])
         = Cli.set_command (lit "github-workflow") (Cli.parseArgs argv)
         /\ Cli.main (argv ++ [word])
            = Cli.GithubWorkflow (Cli.domain (Cli.parseArgs argv))
                (Cli.server (Cli.parseArgs argv)) (Cli.email (Cli.parseArgs argv)))
        /\ (In word [lit "setup"; lit "deploy"] ->
            Cli.parseArgs (argv ++ [word]) = Cli.set_command word (Cli.parseArgs argv))
        /\ (In word [lit "--help"; lit "-h"] ->
            Cli.parseArgs (argv ++ [word]) = Cli.set_command (lit "help") (Cli.parseArgs argv))
        /\ (~ In word [lit "setup"; lit "deploy"; lit "github-workflow"; lit "gh";
                       lit "automate"; lit "--help"; lit "-h"] ->
            Cli.parseArgs (argv ++ [word]) = Cli.parseArgs argv)).
Proof.
  destruct (parseArgs_filled argv) as (Hc & _).
  split; [exact Hc|]. split; [|split].
  - unfold Cli.main. cbv zeta.
    destruct Hc as [<- | [<- | [<- | [<- | [<- | []]]]]]; cbn; discriminate.
  - unfold Cli.main. cbv zeta.
    destruct Hc as [<- | [<- | [<- | [<- | [<- | []]]]]]; cbn;
      split; intros H; try discriminate; auto;
      destruct H as [H | H]; discriminate.
  - intros word Hcomplete.
    assert (E : Cli.parseArgs (argv ++ [word]) = Cli.scan [word] (Cli.parseArgs argv)).
    { unfold Cli.parseArgs. apply (scan_app (length argv)); [lia | assumption]. }
    split; [|split; [|split]].
    + intros H.
      assert (E' : Cli.parseArgs (argv ++ [word])
                   = Cli.set_command (lit "github-workflow") (Cli.parseArgs argv)).
      { rewrite E. destruct H as [<- | [<- | [<- | []]]]; reflexivity. }
      split; [exact E'|]. unfold Cli.main. cbv zeta. rewrite E'. reflexivity.
    + intros H. rewrite E. destruct H as [<- | [<- | []]]; reflexivity.
    + intros H. rewrite E. destruct H as [<- | [<- | []]]; reflexivity.
    + intros H. rewrite E. cbn [Cli.scan].
      assert (Hne : forall l, In l [lit "setup"; lit "deploy"; lit "github-workflow";
                                    lit "gh"; lit "automate"; lit "--help"; lit "-h"] ->
                              JS.eqb word l = false).
      { intros l Hl. apply eqb_neq. intros ->. now apply H. }
      unfold Cli.is_command_word, Cli.is_help.
      rewrite !Hne by (simpl; tauto). reflexivity.
Qed.

(** Arguments are read left to right, and what follows a complete list
    of arguments is read as if it stood alone: when [before] does not
    end in an option waiting for its value, parsing [before ++ rest]
    continues the parse of [before] with [rest].  In particular a final
    [--help] then always ends in the help. *)
Theorem parseArgs_continues (before rest : list jsstring) :
  complete before ->
  Cli.parseArgs (before ++ rest) = Cli.scan rest (Cli.parseArgs before)
  /\ Cli.main (before ++ [lit "--help"]) = Cli.ShowHelp.
Proof.
  intros Hc. unfold Cli.main, Cli.parseArgs.
  rewrite !(scan_app (length before)) by (auto; lia).
  split; reflexivity.
Qed.

Lemma parseArgs_continues_witness :
  Cli.parseArgs ([lit "deploy"; lit "--domain"; lit "example.com"] ++ [lit "gh"])
  = Cli.scan [lit "gh"] (Cli.parseArgs [lit "deploy"; lit "--domain"; lit "example.com"])
  /\ Cli.main ([lit "deploy"; lit "--domain"; lit "example.com"] ++ [lit "--help"])
     = Cli.ShowHelp.
Proof.
  apply (parseArgs_continues [lit "deploy"; lit "--domain"; lit "example.com"] [lit "gh"]).
  reflexivity.
Defined.

End CommandLine.

(** ** The workflow file *)

Section Workflow.

Lemma dirname_workflow : Fs.dirname WORKFLOW_PATH = workflows_dir.
Proof. reflexivity. Qed.

Lemma ancestors_workflows : Fs.ancestors [] workflows_dir = [github_dir; workflows_dir].
Proof. reflexivity. Qed.

Lemma github_not_workflows : JS.eqb github_dir workflows_dir = false.
Proof. reflexivity. Qed.

Lemma workflows_not_github : JS.eqb workflows_dir github_dir = false.
Proof. reflexivity. Qed.

Lemma path_not_workflows : JS.eqb WORKFLOW_PATH workflows_dir = false.
Proof. reflexivity. Qed.

Lemma path_not_github : JS.eqb WORKFLOW_PATH github_dir = false.
Proof. reflexivity. Qed.

Lemma workflows_not_path : JS.eqb workflows_dir WORKFLOW_PATH = false.
Proof. reflexivity. Qed.

Lemma github_not_path : JS.eqb github_dir WORKFLOW_PATH = false.
Proof. reflexivity. Qed.

Lemma put_same (p : jsstring) (n : Fs.inode) (fs : Fs.files) : Fs.put p n fs p = Some n.
Proof. unfold Fs.put. now rewrite eqb_refl. Qed.

Lemma put_other (p q : jsstring) (n : Fs.inode) (fs : Fs.files) :
  q <> p -> Fs.put p n fs q = fs q.
Proof. intros H. unfold Fs.put. apply eqb_neq in H. now rewrite H. Qed.

End Workflow.

Global Opaque github_dir workflows_dir WORKFLOW_PATH.

Ltac paths :=
  repeat first
    [ rewrite dirname_workflow | rewrite ancestors_workflows
    | rewrite eqb_refl
    | rewrite github_not_workflows | rewrite workflows_not_github
    | rewrite path_not_workflows | rewrite path_not_github
    | rewrite workflows_not_path | rewrite github_not_path ].


Ltac known_files fs :=
  repeat match goal with
         | H : fs ?x = _ |- context [fs ?x] => rewrite H
         end.

Section WritesWorkflow.

Variables (workflow : jsstring) (last : output) (fs : Fs.files).

Let o := writes_workflow workflow last fs.

Ltac cases :=
  unfold o, writes_workflow, finish_workflow, unobstructed;
  destruct (fs workflows_dir) as [[cw|]|] eqn:Ew;
  [ | | destruct (fs github_dir) as [[cg|]|] eqn:Eg ];
  unfold Fs.put; paths; known_files fs;
  destruct (fs WORKFLOW_PATH) as [[cp|]|] eqn:Ep;
  cbn [ended files_left printed].

Lemma writes_returns : ended o = Returned tt <-> unobstructed fs = true.
Proof. cases; split; congruence. Qed.

Lemma writes_file :
  ended o = Returned tt ->
  files_left o WORKFLOW_PATH = Some (Fs.IsFile workflow)
  /\ files_left o workflows_dir = Some Fs.IsDir.
Proof. cases; intros H; try discriminate; paths; auto. Qed.

Lemma writes_reports :
  ended o = Returned tt ->
  printed o
  = (match fs workflows_dir with
     | None => [CreatedDirectory workflows_dir]
     | Some _ => []
     end)
    ++ [ match fs WORKFLOW_PATH with
         | None => CreatedFile WORKFLOW_PATH
         | Some _ => UpdatedFile WORKFLOW_PATH
         end; last ].
Proof. cases; intros H; try discriminate; reflexivity. Qed.

Lemma writes_frame (p : jsstring) :
  p <> WORKFLOW_PATH -> kept_or_made fs (files_left o) p.
Proof.
  intros Hp. apply eqb_neq in Hp. unfold kept_or_made.
  unfold o, writes_workflow, finish_workflow.
  destruct (fs workflows_dir) as [[cw|]|] eqn:Ew;
    [ | | destruct (fs github_dir) as [[cg|]|] eqn:Eg ];
    unfold Fs.put; paths; known_files fs;
    destruct (fs WORKFLOW_PATH) as [[cp|]|] eqn:Ep;
    cbn [ended files_left printed]; rewrite ?Hp; auto;
    destruct (JS.eqb p workflows_dir) eqn:E1; try (apply eqb_eq in E1; subst p);
    auto; try (right; now auto);
    destruct (JS.eqb p github_dir) eqn:E2; try (apply eqb_eq in E2; subst p);
    auto; right; now auto.
Qed.

End WritesWorkflow.

Section Rerun.

Variables (workflow : jsstring) (last : output) (fs : Fs.files).

Lemma writes_over (fs' : Fs.files) :
  fs' WORKFLOW_PATH = Some (Fs.IsFile workflow) ->
  fs' workflows_dir = Some Fs.IsDir ->
  ended (writes_workflow workflow last fs') = Returned tt
  /\ (forall p, files_left (writes_workflow workflow last fs') p = fs' p)
  /\ printed (writes_workflow workflow last fs') = [UpdatedFile WORKFLOW_PATH; last].
Proof.
  intros Hf Hd. unfold writes_workflow, finish_workflow. rewrite Hd, Hf.
  cbn [ended files_left printed app]. repeat split.
  intros p. unfold Fs.put. destruct (JS.eqb p WORKFLOW_PATH) eqn:E; [|reflexivity].
  apply eqb_eq in E. now subst p.
Qed.

Lemma writes_again :
  ended (writes_workflow workflow last fs) = Returned tt ->
  ended (writes_workflow workflow last (files_left (writes_workflow workflow last fs)))
  = Returned tt
  /\ (forall p,
        files_left (writes_workflow workflow last
                      (files_left (writes_workflow workflow last fs))) p
        = files_left (writes_workflow workflow last fs) p)
  /\ printed (writes_workflow workflow last
                (files_left (writes_workflow workflow last fs)))
     = [UpdatedFile WORKFLOW_PATH; last].
Proof.
  intros H. destruct (writes_file workflow last fs H) as [Hf Hd].
  now apply writes_over.
Qed.

End Rerun.

Lemma github_workflow_closed_form (domain : jsstring) (server email : option jsstring)
    (fs : Fs.files) :
  domain <> [] ->
  githubWorkflowCommand (Some domain) server email fs
  = writes_workflow (generateWorkflow domain server email)
      (NextSteps domain (or_else server (lit "(using domain)"))
         (or_else email (lit "(not set)")) (or_else server domain))
      fs.
Proof.
  intros Hd. destruct domain as [|u r]; [contradiction|].
  unfold githubWorkflowCommand, writes_workflow, finish_workflow.
  cbv zeta. unfold Fs.existsSync, Fs.mkdirSync_recursive, Fs.writeFileSync. paths.
  destruct (fs workflows_dir) as [[cw|]|] eqn:Ew;
    [ | | cbn [Fs.make_dirs]; destruct (fs github_dir) as [[cg|]|] eqn:Eg ];
    unfold Fs.put; paths; known_files fs; cbn [Fs.make_dirs]; paths;
    try reflexivity;
    destruct (fs WORKFLOW_PATH) as [[cp|]|] eqn:Ep; reflexivity.
Qed.

Lemma init_closed_form (domain email : jsstring) (fs : Fs.files) :
  domain <> [] -> email <> [] ->
  Init.init (Some domain) (Some email) fs
  = writes_workflow (Init.generateWorkflow domain email) (NextStepsInit domain email) fs.
Proof.
  intros Hd He. destruct domain as [|u r]; [contradiction|].
  destruct email as [|v s]; [contradiction|].
  unfold Init.init, writes_workflow, finish_workflow.
  cbn [truthy negb orb or_else]. cbv zeta.
  unfold Fs.existsSync, Fs.mkdirSync_recursive, Fs.writeFileSync. paths.
  destruct (fs workflows_dir) as [[cw|]|] eqn:Ew;
    [ | | cbn [Fs.make_dirs]; destruct (fs github_dir) as [[cg|]|] eqn:Eg ];
    unfold Fs.put; paths; known_files fs; cbn [Fs.make_dirs]; paths;
    try reflexivity;
    destruct (fs WORKFLOW_PATH) as [[cp|]|] eqn:Ep; reflexivity.
Qed.

(** [githubWorkflowCommand] with a domain returns exactly when nothing
    stands in the way of [.github/workflows/deploy.yml]; it then leaves
    that file holding [generateWorkflow(domain, server, email)] in an
    existing directory, and reports the directory when it had to make
    it, then [Created] when the file was missing and [Updated] when it
    was there. *)
Theorem github_workflow_outcome (domain : jsstring) (server email : option jsstring)
    (fs : Fs.files) :
  domain <> [] ->
  (ended (githubWorkflowCommand (Some domain) server email fs) = Returned tt
   <-> unobstructed fs = true)
  /\ (ended (githubWorkflowCommand (Some domain) server email fs) = Returned tt ->
      files_left (githubWorkflowCommand (Some domain) server email fs) WORKFLOW_PATH
      = Some (Fs.IsFile (generateWorkflow domain server email))
      /\ files_left (githubWorkflowCommand (Some domain) server email fs) workflows_dir
         = Some Fs.IsDir
      /\ printed (githubWorkflowCommand (Some domain) server email fs)
         = (match fs workflows_dir with
            | None => [CreatedDirectory workflows_dir]
            | Some _ => []
            end)
           ++ [ match fs WORKFLOW_PATH with
                | None => CreatedFile WORKFLOW_PATH
                | Some _ => UpdatedFile WORKFLOW_PATH
                end;
                NextSteps domain (or_else server (lit "(using domain)"))
                  (or_else email (lit "(not set)")) (or_else server domain) ]).
Proof.
  intros Hd. rewrite github_workflow_closed_form by assumption.
  split; [apply writes_returns|]. intros H.
  destruct (writes_file _ _ _ H) as [Hf Hw].
  split; [exact Hf|]. split; [exact Hw|]. now apply writes_reports.
Qed.

Lemma github_workflow_outcome_witness :
  ended (githubWorkflowCommand (Some Ex.example_com) None None Sample.bare) = Returned tt
  /\ files_left (githubWorkflowCommand (Some Ex.example_com) None None Sample.bare)
       WORKFLOW_PATH
     = Some (Fs.IsFile (generateWorkflow Ex.example_com None None)).
Proof.
  destruct (github_workflow_outcome Ex.example_com None None Sample.bare) as [Hr Hp].
  - discriminate.
  - assert (H : ended (githubWorkflowCommand (Some Ex.example_com) None None Sample.bare)
                = Returned tt) by (apply Hr; vm_compute; reflexivity).
    split; [exact H | apply (Hp H)].
Defined.

(** Whatever its arguments and however it ends, [githubWorkflowCommand]
    touches no path but [.github/workflows/deploy.yml], except for
    making [.github] and [.github/workflows] where they were missing; it
    removes nothing and overwrites no other file.  Without a domain it
    exits with status 1 and leaves every path as it was. *)
Theorem github_workflow_touches_nothing_else (domain server email : option jsstring)
    (fs : Fs.files) :
  (forall p, p <> WORKFLOW_PATH ->
             kept_or_made fs (files_left (githubWorkflowCommand domain server email fs)) p)
  /\ (truthy domain = false ->
      ended (githubWorkflowCommand domain server email fs) = Exited 1
      /\ forall p, files_left (githubWorkflowCommand domain server email fs) p = fs p).
Proof.
  destruct domain as [[|u r]|].
  - split; [intros p _; now left | intros _; split; reflexivity].
  - split; [|discriminate].
    rewrite github_workflow_closed_form by discriminate. apply writes_frame.
  - split; [intros p _; now left | intros _; split; reflexivity].
Qed.

(** Running [githubWorkflowCommand] a second time with the same
    arguments changes nothing: it returns again, leaves every path as
    the first run left it, and reports the file as updated. *)
Theorem github_workflow_idempotent (domain : jsstring) (server email : option jsstring)
    (fs : Fs.files) :
  domain <> [] ->
  ended (githubWorkflowCommand (Some domain) server email fs) = Returned tt ->
  ended (githubWorkflowCommand (Some domain) server email
           (files_left (githubWorkflowCommand (Some domain) server email fs)))
  = Returned tt
  /\ (forall p,
        files_left (githubWorkflowCommand (Some domain) server email
                      (files_left (githubWorkflowCommand (Some domain) server email fs))) p
        = files_left (githubWorkflowCommand (Some domain) server email fs) p)
  /\ printed (githubWorkflowCommand (Some domain) server email
                (files_left (githubWorkflowCommand (Some domain) server email fs)))
     = [ UpdatedFile WORKFLOW_PATH;
         NextSteps domain (or_else server (lit "(using domain)"))
           (or_else email (lit "(not set)")) (or_else server domain) ].
Proof.
  intros Hd. rewrite !github_workflow_closed_form by assumption. apply writes_again.
Qed.

Lemma github_workflow_idempotent_witness :
  ended (githubWorkflowCommand (Some Ex.example_com) (Some Sample.server_ip) None
           (files_left (githubWorkflowCommand (Some Ex.example_com)
                          (Some Sample.server_ip) None Sample.bare)))
  = Returned tt
  /\ printed (githubWorkflowCommand (Some Ex.example_com) (Some Sample.server_ip) None
                (files_left (githubWorkflowCommand (Some Ex.example_com)
                               (Some Sample.server_ip) None Sample.bare)))
     = [ UpdatedFile WORKFLOW_PATH;
         NextSteps Ex.example_com Sample.server_ip (lit "(not set)") Sample.server_ip ].
Proof.
  destruct (github_workflow_idempotent Ex.example_com (Some Sample.server_ip) None
              Sample.bare) as (H1 & _ & H3).
  - discriminate.
  - vm_compute. reflexivity.
  - split; [exact H1 | exact H3].
Defined.

(** [init] writes the workflow exactly when both [--domain] and
    [--email] were given and nothing stands in the way of the file;
    otherwise, with an argument missing, it exits with status 1 and
    leaves every path as it was.  When it returns, the file holds
    [generateWorkflow(domain, email)], no other file is touched, and a
    second run returns again and leaves the same files. *)
Theorem init_outcome (domain email : option jsstring) (fs : Fs.files) :
  (ended (Init.init domain email fs) = Returned tt <->
     truthy domain = true /\ truthy email = true /\ unobstructed fs = true)
  /\ (truthy domain = false \/ truthy email = false ->
      ended (Init.init domain email fs) = Exited 1
      /\ (forall p, files_left (Init.init domain email fs) p = fs p)
      /\ printed (Init.init domain email fs) = [DomainAndEmailRequired; Usage])
  /\ (ended (Init.init domain email fs) = Returned tt ->
      files_left (Init.init domain email fs) WORKFLOW_PATH
      = Some (Fs.IsFile (Init.generateWorkflow (or_else domain []) (or_else email [])))
      /\ ended (Init.init domain email (files_left (Init.init domain email fs)))
         = Returned tt
      /\ forall p,
           files_left (Init.init domain email (files_left (Init.init domain email fs))) p
           = files_left (Init.init domain email fs) p)
  /\ (forall p, p <> WORKFLOW_PATH ->
                kept_or_made fs (files_left (Init.init domain email fs)) p).
Proof.
  assert (Hmissing : truthy domain = false \/ truthy email = false ->
                     Init.init domain email fs
                     = {| ended := Exited 1; files_left := fs;
                          printed := [DomainAndEmailRequired; Usage] |}).
  { unfold Init.init. intros [-> | ->]; [reflexivity|]. now rewrite orb_true_r. }
  destruct (truthy domain) eqn:Td, (truthy email) eqn:Te;
    try (rewrite Hmissing by auto; cbn [ended files_left printed];
         split; [split; [discriminate | intros (? & ? & ?); discriminate]|];
         split; [intros _; repeat split|];
         split; [discriminate | intros p _; now left]).
  destruct domain as [[|u r]|]; try discriminate.
  destruct email as [[|v s]|]; try discriminate.
  rewrite !init_closed_form by discriminate. cbn [or_else].
  split.
  { rewrite writes_returns. tauto. }
  split; [intros [H | H]; discriminate|].
  split; [|apply writes_frame].
  intros H. destruct (writes_file _ _ _ H) as [Hf _].
  destruct (writes_again _ _ _ H) as (H1 & H2 & _). auto.
Qed.

(** ** The [setup] command *)

(** [setupCommand] runs nothing unless a domain and a server are given
    and [server-setup/setup.sh] is found in the package; it then copies
    the setup files and runs the setup script on the server only once the
    copy has succeeded; it returns when both commands succeed and exits
    with status 1 in every other case. *)
Theorem setup_runs_in_order (sw : setup_world) (domain server email : option jsstring) :
  let copy :=
    CopySetupFiles (join3 (moduleRoot sw) (lit "server-setup") (lit "setup.sh"))
      (join3 (moduleRoot sw) (lit "server-setup") (lit "nginx-apps.conf"))
      (or_else server []) in
  let script := RunSetupScript (or_else server []) (or_else domain []) (or_else email []) in
  let ready := truthy domain && truthy server && has_setup_script sw in
  (snd (setupCommand sw domain server email) = [] <-> ready = false)
  /\ (ready = true ->
      snd (setupCommand sw domain server email)
      = (copy, setup_exits_zero sw copy)
        :: (if setup_exits_zero sw copy then [(script, setup_exits_zero sw script)] else []))
  /\ (fst (setupCommand sw domain server email) = Returned tt <->
      ready && setup_exits_zero sw copy && setup_exits_zero sw script = true)
  /\ (fst (setupCommand sw domain server email) <> Returned tt ->
      fst (setupCommand sw domain server email) = Exited 1).
Proof.
  cbv zeta. unfold setupCommand, run_then.
  destruct (truthy domain), (truthy server), (has_setup_script sw);
    cbn [negb andb fst snd app];
    try (repeat split; intros; try discriminate; try reflexivity; congruence).
  destruct (setup_exits_zero sw (CopySetupFiles _ _ _));
    [destruct (setup_exits_zero sw (RunSetupScript _ _ _))|];
    cbn [fst snd app andb];
    repeat split; intros; try discriminate; try reflexivity; congruence.
Qed.

(** ** The [init] command line *)

Lemma init_scan_filled (n : nat) :
  forall args r, (length args <= n)%nat -> init_filled r -> init_filled (Init.scan args r).
Proof.
  induction n as [|n IH]; intros [|arg rest] r Hlen Hr; simpl in Hlen;
    try lia; try assumption.
  assert (Hcmd : forall c, In (Some c) [None; Some (lit "init"); Some (lit "help")] ->
                           init_filled (Init.set_command c r)).
  { intros c Hc. destruct Hr as (_ & Hd & He). now repeat split. }
  assert (Hrest : forall r', init_filled r' -> init_filled (Init.scan rest r')).
  { intros r' Hr'. apply IH; [lia | assumption]. }
  cbn [Init.scan].
  destruct (JS.eqb arg (lit "init")); [apply Hrest, Hcmd; simpl; tauto|].
  destruct rest as [|value after].
  { destruct (Cli.is_help arg); [apply Hcmd; simpl; tauto | assumption]. }
  assert (Hafter : forall r', init_filled r' -> init_filled (Init.scan after r')).
  { intros r' Hr'. apply IH; [simpl in Hlen; lia | assumption]. }
  destruct (JS.eqb arg (lit "--domain") && truthy (Some value)) eqn:Hd.
  { apply andb_true_iff in Hd as [_ Hv]. apply truthy_nonempty in Hv.
    apply Hafter. destruct Hr as (Hc & _ & He).
    split; [exact Hc|]. split; [|exact He]. simpl. now intros v [= <-]. }
  destruct (JS.eqb arg (lit "--email") && truthy (Some value)) eqn:He.
  { apply andb_true_iff in He as [_ Hv]. apply truthy_nonempty in Hv.
    apply Hafter. destruct Hr as (Hc & Hd' & _).
    split; [exact Hc|]. split; [exact Hd'|]. simpl. now intros v [= <-]. }
  destruct (Cli.is_help arg); apply Hrest; [apply Hcmd; simpl; tauto | assumption].
Qed.

(** The main block of the [init] command line never reports an unknown
    command, and it calls [init] only when the word [init] was given and
    no later [--help]; the domain and the e-mail address it passes are
    [null] or non-empty. *)
Theorem init_main_never_unknown (argv : list jsstring) :
  (forall c, Init.main argv <> Init.UnknownCommand c)
  /\ (forall d e, Init.main argv = Init.RunInit d e ->
        Init.command (Init.parseArgs argv) = Some (lit "init")
        /\ d = Init.domain (Init.parseArgs argv)
        /\ e = Init.email (Init.parseArgs argv)
        /\ d <> Some [] /\ e <> Some []).
Proof.
  assert (H : init_filled (Init.parseArgs argv)).
  { apply (init_scan_filled (length argv)); [lia|].
    repeat split; simpl; try discriminate. tauto. }
  destruct H as (Hc & Hd & He). unfold Init.main. cbv zeta.
  destruct Hc as [<- | [<- | [<- | []]]]; cbn;
    (split; [discriminate|]); intros d e; try discriminate.
  intros [= <- <-]. repeat split.
  - intros E. now apply (Hd [] E).
  - intros E. now apply (He [] E).
Qed.

(** ** Runs of [deployCommand]: where they stop and what they leave *)

Lemma no_upload_in_front (w : world) (sshHost domain emailArg : jsstring)
    (apps docker : list jsstring) (path host : jsstring) (ok : bool) :
  ~ In (Exec (Scp path host) ok) (steps_1_to_5 w sshHost domain emailArg apps docker).
Proof.
  unfold steps_1_to_5. intros [H | H]; [discriminate|].
  apply in_app_or in H as [H | [H | H]]; try discriminate;
    apply in_map_iff in H as (x & H & _); discriminate.
Qed.

(** Without a domain [deployCommand] exits with status 1 before it runs
    anything.  When [rsync] fails it exits with status 1 having run
    [rsync] only: no container is started, no certificate asked for, no
    configuration written, and the target keeps its nginx files. *)
Theorem deploy_stops_at_once (w : world) (domain srv email : option jsstring) (t : target) :
  (truthy domain = false ->
   deploy w domain srv email t = (Exited 1, initial t))
  /\ (forall d,
        domain = Some d -> d <> [] ->
        exits_zero w (Rsync (cwd_path w) (or_else srv d)) = false ->
        fst (deploy w domain srv email t) = Exited 1
        /\ executed (snd (deploy w domain srv email t)) = [Rsync (cwd_path w) (or_else srv d)]
        /\ rendered (snd (deploy w domain srv email t)) = []
        /\ tmp (snd (deploy w domain srv email t)) = []
        /\ server (snd (deploy w domain srv email t)) = t).
Proof.
  rewrite deploy_summary. unfold summary. split.
  - destruct domain as [[|u r]|]; try reflexivity. discriminate.
  - intros d -> Hd Hsync. destruct d as [|u r]; [contradiction|].
    rewrite Hsync. repeat split.
Qed.

(** A run that returns normally has run, in this order, [rsync], one
    [docker compose up] per Docker app with ports 3000, 3001, ..., the
    orphan clean-up, one [ensure-cert.sh] per app, the permission fix,
    the upload and the activation; [nginx -t] has accepted the written
    configuration; the target holds it, enabled and loaded; and the
    temporary file is gone. *)
Theorem deploy_success (w : world) (domain srv email : option jsstring) (t : target) :
  fst (deploy w domain srv email t) = Returned tt ->
  exists d apps,
    domain = Some d /\ d <> []
    /\ allApps (cwd w) = Some apps
    /\ executed (snd (deploy w domain srv email t))
       = Rsync (cwd_path w) (or_else srv d)
         :: map (fun ap => Ssh (or_else srv d) (ComposeUp (fst ap) (snd ap)))
                (ports_from 3000 (dockerApps (cwd w) apps))
         ++ Ssh (or_else srv d) StopOrphans
         :: map (fun app => Ssh (or_else srv d) (EnsureCert app d (or_else email []))) apps
         ++ [ Ssh (or_else srv d) FixPermissions;
              Scp (tmpConfigPath w) (or_else srv d);
              Ssh (or_else srv d) Activate ]
    /\ exits_zero w (Rsync (cwd_path w) (or_else srv d)) = true
    /\ exits_zero w (Ssh (or_else srv d) FixPermissions) = true
    /\ exits_zero w (Scp (tmpConfigPath w) (or_else srv d)) = true
    /\ exits_zero w (Ssh (or_else srv d) Activate) = true
    /\ reload_ok w = true
    /\ nginx_t w (Some (nginxConfig d apps (dockerApps (cwd w) apps))) = true
    /\ server (snd (deploy w domain srv email t))
       = {| sites_available_apps := Some (nginxConfig d apps (dockerApps (cwd w) apps));
            sites_enabled_apps := true;
            loaded := Some (nginxConfig d apps (dockerApps (cwd w) apps)) |}
    /\ tmp (snd (deploy w domain srv email t)) = [].
Proof.
  rewrite deploy_summary. unfold summary.
  destruct domain as [[|u r]|]; try discriminate.
  destruct (exits_zero w (Rsync _ _)) eqn:Hsync; [|discriminate].
  destruct (allApps (cwd w)) as [apps|] eqn:Hall; [|discriminate].
  cbv zeta.
  destruct (exits_zero w (Ssh _ FixPermissions)) eqn:Hfix; [|discriminate].
  destruct (exits_zero w (Scp _ _)) eqn:Hscp; [|discriminate].
  destruct (exits_zero w (Ssh _ Activate)) eqn:Hact; [|discriminate].
  destruct (nginx_t w _) eqn:Hval; [|discriminate].
  destruct (reload_ok w) eqn:Hre; [|discriminate].
  intros _. exists (u :: r), apps. cbn [fst snd andb].
  rewrite executed_front. unfold activated. rewrite Hact, Hval, Hre.
  cbn [andb]. repeat split; try assumption; try reflexivity; discriminate.
Qed.

Lemma deploy_success_witness :
  exists d apps,
    Some Ex.example_com = Some d /\ d <> []
    /\ allApps (cwd (Ex.calm Ex.readme_folder)) = Some apps
    /\ executed (snd (deploy (Ex.calm Ex.readme_folder) (Some Ex.example_com) None None
                        Ex.fresh))
       = Rsync (cwd_path (Ex.calm Ex.readme_folder)) (or_else None d)
         :: map (fun ap => Ssh (or_else None d) (ComposeUp (fst ap) (snd ap)))
                (ports_from 3000 (dockerApps (cwd (Ex.calm Ex.readme_folder)) apps))
         ++ Ssh (or_else None d) StopOrphans
         :: map (fun app => Ssh (or_else None d) (EnsureCert app d (or_else None []))) apps
         ++ [ Ssh (or_else None d) FixPermissions;
              Scp (tmpConfigPath (Ex.calm Ex.readme_folder)) (or_else None d);
              Ssh (or_else None d) Activate ]
    /\ exits_zero (Ex.calm Ex.readme_folder)
         (Rsync (cwd_path (Ex.calm Ex.readme_folder)) (or_else None d)) = true
    /\ exits_zero (Ex.calm Ex.readme_folder) (Ssh (or_else None d) FixPermissions) = true
    /\ exits_zero (Ex.calm Ex.readme_folder)
         (Scp (tmpConfigPath (Ex.calm Ex.readme_folder)) (or_else None d)) = true
    /\ exits_zero (Ex.calm Ex.readme_folder) (Ssh (or_else None d) Activate) = true
    /\ reload_ok (Ex.calm Ex.readme_folder) = true
    /\ nginx_t (Ex.calm Ex.readme_folder)
         (Some (nginxConfig d apps (dockerApps (cwd (Ex.calm Ex.readme_folder)) apps)))
       = true
    /\ server (snd (deploy (Ex.calm Ex.readme_folder) (Some Ex.example_com) None None
                      Ex.fresh))
       = {| sites_available_apps :=
              Some (nginxConfig d apps (dockerApps (cwd (Ex.calm Ex.readme_folder)) apps));
            sites_enabled_apps := true;
            loaded :=
              Some (nginxConfig d apps (dockerApps (cwd (Ex.calm Ex.readme_folder)) apps)) |}
    /\ tmp (snd (deploy (Ex.calm Ex.readme_folder) (Some Ex.example_com) None None
                   Ex.fresh)) = [].
Proof.
  apply (deploy_success (Ex.calm Ex.readme_folder) (Some Ex.example_com) None None Ex.fresh).
  reflexivity.
Defined.

(** The only local file a run writes is the temporary configuration
    file, and it removes it again unless the upload fails: after a run,
    a temporary file is left behind exactly when [scp] was run and
    failed, and it is then the written configuration. *)
Theorem temp_file_left_by_failed_upload (w : world) (domain srv email : option jsstring)
    (t : target) :
  (tmp (snd (deploy w domain srv email t)) <> [] <->
     exists host,
       In (Exec (Scp (tmpConfigPath w) host) false)
          (trace (snd (deploy w domain srv email t))))
  /\ (tmp (snd (deploy w domain srv email t)) <> [] ->
      exists doc,
        tmp (snd (deploy w domain srv email t)) = [(tmpConfigPath w, doc)]
        /\ rendered (snd (deploy w domain srv email t)) = [doc]
        /\ fst (deploy w domain srv email t) = Exited 1)
  /\ (forall path content,
        In (WriteFile path content) (trace (snd (deploy w domain srv email t))) ->
        path = tmpConfigPath w).
Proof.
  rewrite deploy_summary. unfold summary.
  assert (Hfront : forall sshHost d emailArg apps docker tail path content,
             In (WriteFile path content)
                (steps_1_to_5 w sshHost d emailArg apps docker ++ tail) ->
             In (WriteFile path content) tail).
  { intros sshHost d emailArg apps docker tail path content H.
    apply in_app_or in H as [H | H]; [|assumption]. exfalso.
    unfold steps_1_to_5 in H. destruct H as [H | H]; [discriminate|].
    apply in_app_or in H as [H | [H | H]]; try discriminate;
      apply in_map_iff in H as (x & H & _); discriminate. }
  assert (Hscp : forall sshHost d emailArg apps docker tail host,
             In (Exec (Scp (tmpConfigPath w) host) false)
                (steps_1_to_5 w sshHost d emailArg apps docker ++ tail) ->
             In (Exec (Scp (tmpConfigPath w) host) false) tail).
  { intros sshHost d emailArg apps docker tail host H.
    apply in_app_or in H as [H | H]; [|assumption].
    now apply no_upload_in_front in H. }
  destruct domain as [[|u r]|];
    try (cbn; repeat split; try tauto; intros [host []]).
  destruct (exits_zero w (Rsync _ _));
    [|cbn; repeat split; try tauto;
      [intros [host [H | []]]; discriminate | intros path content [H | []]; discriminate]].
  destruct (allApps (cwd w)) as [apps|];
    [|cbn; repeat split; try tauto;
      [intros [host [H | []]]; discriminate | intros path content [H | []]; discriminate]].
  cbv zeta.
  destruct (exits_zero w (Ssh _ FixPermissions));
    [destruct (exits_zero w (Scp _ _)) eqn:Escp|]; cbn [fst snd after tmp trace].
  - split; [|split].
    + split; [tauto|]. intros [host H]. apply Hscp in H. simpl in H.
      destruct H as [H | [H | [H | [H | [H | []]]]]]; discriminate.
    + tauto.
    + intros path content H. apply Hfront in H. simpl in H.
      destruct H as [H | [H | [H | [H | [H | []]]]]]; try discriminate.
      now injection H as <- _.
  - split; [|split].
    + split; [|discriminate]. intros _. eexists. apply in_or_app. right.
      simpl. right. right. left. reflexivity.
    + intros _. eexists. split; [reflexivity|]. split; [|reflexivity].
      fold (after (steps_1_to_5 w (or_else srv (u :: r)) (u :: r) (or_else email [])
                     apps (dockerApps (cwd w) apps)
                   ++ [Exec (Ssh (or_else srv (u :: r)) FixPermissions) true;
                       WriteFile (tmpConfigPath w)
                         (nginxConfig (u :: r) apps (dockerApps (cwd w) apps));
                       Exec (Scp (tmpConfigPath w) (or_else srv (u :: r))) false])
                  [(tmpConfigPath w, nginxConfig (u :: r) apps (dockerApps (cwd w) apps))] t).
      rewrite rendered_front. reflexivity.
    + intros path content H. apply Hfront in H. simpl in H.
      destruct H as [H | [H | [H | []]]]; try discriminate.
      now injection H as <- _.
  - split; [|split].
    + split; [tauto|]. intros [host H]. apply Hscp in H. simpl in H.
      destruct H as [H | []]; discriminate.
    + tauto.
    + intros path content H. apply Hfront in H. simpl in H.
      destruct H as [H | []]; discriminate.
Qed.

(* ================================================================= *)
(** ** App detection and the order of the directory listing *)

Lemma lookup_perm (cwd1 cwd2 : folder) (f : jsstring) :
  NoDup (readdirSync cwd1) -> Permutation cwd1 cwd2 ->
  lookup cwd1 f = lookup cwd2 f.
Proof.
  intros Hnd Hp.
  assert (Hnd2 : NoDup (readdirSync cwd2)).
  { unfold readdirSync in *. eapply Permutation_NoDup; [|exact Hnd].
    now apply Permutation_map. }
  destruct (lookup cwd1 f) as [n|] eqn:E1.
  - symmetry. apply In_lookup; [assumption|].
    apply (Permutation_in _ Hp). now apply lookup_In.
  - destruct (lookup cwd2 f) as [n|] eqn:E2; [|reflexivity].
    apply lookup_In in E2. apply (Permutation_in _ (Permutation_sym Hp)) in E2.
    apply In_lookup in E2; [congruence | assumption].
Qed.

Lemma filter_throwing_ext {A} (p q : A -> option bool) (l : list A) :
  (forall x, In x l -> p x = q x) -> filter_throwing p l = filter_throwing q l.
Proof.
  induction l as [|x l IH]; intros H; simpl; [reflexivity|].
  rewrite (H x (or_introl eq_refl)), IH; [reflexivity|].
  intros y Hy. apply H. now right.
Qed.

Lemma filter_throwing_perm {A} (p : A -> option bool) (l1 l2 : list A) :
  Permutation l1 l2 ->
  match filter_throwing p l1, filter_throwing p l2 with
  | Some a, Some b => Permutation a b
  | None, None => True
  | _, _ => False
  end.
Proof.
  induction 1 as [|x l1 l2 Hp IH|x y l|l1 l2 l3 H12 IH12 H23 IH23]; simpl.
  - constructor.
  - destruct (p x) as [b|]; [|exact I].
    destruct (filter_throwing p l1), (filter_throwing p l2); try easy.
    destruct b; [now constructor | assumption].
  - destruct (p x) as [bx|], (p y) as [by'|]; try exact I;
      destruct (filter_throwing p l); try exact I.
    destruct bx, by'; try reflexivity. apply perm_swap.
  - destruct (filter_throwing p l1), (filter_throwing p l2), (filter_throwing p l3);
      try easy. eapply Permutation_trans; eassumption.
Qed.

Lemma filter_throwing_In {A} (p : A -> option bool) (l r : list A) (x : A) :
  filter_throwing p l = Some r -> In x r -> In x l.
Proof.
  revert r. induction l as [|y l IH]; simpl; intros r.
  - intros [= <-]. easy.
  - destruct (p y) as [b|]; [|discriminate].
    destruct (filter_throwing p l) as [r'|]; [|discriminate].
    intros [= <-] Hin. specialize (IH r' eq_refl).
    destruct b; [destruct Hin as [-> | Hin]|]; auto.
Qed.

(** Strings that precede [x] or are [x] itself, seen from the other side. *)
Lemma ltb_le_trans (x y z : jsstring) :
  JS.ltb z y = false -> JS.ltb z x = true -> JS.ltb y x = true.
Proof.
  intros Hzy Hzx. destruct (JS.ltb y x) eqn:Hyx; [reflexivity|].
  destruct (JS.ltb y z) eqn:Hyz.
  - pose proof (ltb_trans _ _ _ Hyz Hzx). congruence.
  - assert (z = y) by now apply ltb_total. subst. congruence.
Qed.

Lemma insert_comm (x y : jsstring) (l : list jsstring) :
  JS.insert x (JS.insert y l) = JS.insert y (JS.insert x l).
Proof.
  induction l as [|z l IH]; simpl.
  - destruct (JS.ltb y x) eqn:Hyx, (JS.ltb x y) eqn:Hxy; try reflexivity.
    + apply ltb_asym in Hyx. congruence.
    + now rewrite (ltb_total _ _ Hyx Hxy).
  - destruct (JS.ltb z y) eqn:Hzy, (JS.ltb z x) eqn:Hzx; simpl;
      rewrite ?Hzy, ?Hzx.
    + now rewrite IH.
    + now rewrite (ltb_le_trans y x z Hzx Hzy).
    + now rewrite (ltb_le_trans x y z Hzy Hzx).
    + destruct (JS.ltb y x) eqn:Hyx, (JS.ltb x y) eqn:Hxy; try reflexivity.
      * apply ltb_asym in Hyx. congruence.
      * now rewrite (ltb_total _ _ Hyx Hxy).
Qed.

(** [sort] gives one result for all the orders of the same names. *)
Lemma sort_of_perm (a b : list jsstring) : Permutation a b -> JS.sort a = JS.sort b.
Proof.
  induction 1 as [|x a b Hp IH|x y l|a b c Hab IHab Hbc IHbc]; simpl.
  - reflexivity.
  - now rewrite IH.
  - apply insert_comm.
  - congruence.
Qed.

Lemma is_app_entry_lookup (cwd1 cwd2 : folder) (f : jsstring) :
  lookup cwd1 f = lookup cwd2 f -> is_app_entry cwd1 f = is_app_entry cwd2 f.
Proof. unfold is_app_entry, statSync_isDirectory. now intros ->. Qed.

Lemma existsSync_in_lookup (cwd1 cwd2 : folder) (app file : jsstring) :
  lookup cwd1 app = lookup cwd2 app ->
  existsSync_in cwd1 app file = existsSync_in cwd2 app file.
Proof. unfold existsSync_in. now intros ->. Qed.

(** The apps found, whether detection throws, and the apps taken for
    Docker apps do not depend on the order in which [readdirSync] lists
    the working directory: the [sort] of step 2 makes the order of the
    names the only one that counts.  So the ports and the rendered
    configuration are the same on a file system that lists its entries
    in another order. *)
Theorem detection_ignores_listing_order (cwd1 cwd2 : folder) (domain : jsstring) :
  NoDup (readdirSync cwd1) ->
  Permutation cwd1 cwd2 ->
  allApps cwd1 = allApps cwd2
  /\ (forall apps, dockerApps cwd1 apps = dockerApps cwd2 apps)
  /\ option_map (fun apps => nginxConfig domain apps (dockerApps cwd1 apps)) (allApps cwd1)
     = option_map (fun apps => nginxConfig domain apps (dockerApps cwd2 apps)) (allApps cwd2).
Proof.
  intros Hnd Hp.
  assert (Hall : allApps cwd1 = allApps cwd2).
  { unfold allApps.
    rewrite (filter_throwing_ext (is_app_entry cwd1) (is_app_entry cwd2));
      [|intros f _; apply is_app_entry_lookup; now apply lookup_perm].
    pose proof (filter_throwing_perm (is_app_entry cwd2)
                  (readdirSync cwd1) (readdirSync cwd2)) as H.
    unfold readdirSync in *. specialize (H (Permutation_map fst Hp)).
    destruct (filter_throwing _ (map fst cwd1)), (filter_throwing _ (map fst cwd2));
      try easy.
    simpl. f_equal. now apply sort_of_perm. }
  assert (Hdocker : forall apps, dockerApps cwd1 apps = dockerApps cwd2 apps).
  { intros apps. unfold dockerApps. apply filter_ext. intros app.
    apply existsSync_in_lookup. now apply lookup_perm. }
  split; [assumption|]. split; [assumption|].
  rewrite Hall. destruct (allApps cwd2) as [apps|]; [|reflexivity].
  simpl. now rewrite Hdocker.
Qed.

Lemma detection_ignores_listing_order_witness :
  allApps Ex.readme_folder = allApps (List.rev Ex.readme_folder)
  /\ (forall apps, dockerApps Ex.readme_folder apps
                   = dockerApps (List.rev Ex.readme_folder) apps)
  /\ option_map (fun apps => nginxConfig Ex.example_com apps
                               (dockerApps Ex.readme_folder apps))
       (allApps Ex.readme_folder)
     = option_map (fun apps => nginxConfig Ex.example_com apps
                                 (dockerApps (List.rev Ex.readme_folder) apps))
         (allApps (List.rev Ex.readme_folder)).
Proof.
  apply (detection_ignores_listing_order Ex.readme_folder (List.rev Ex.readme_folder)
           Ex.example_com).
  - unfold readdirSync. vm_compute.
    repeat (constructor; [simpl; intuition discriminate|]). constructor.
  - apply Permutation_rev.
Defined.

(* ================================================================= *)
(** ** A new app and the ports of the others *)

Lemma insert_first (x : jsstring) (l : list jsstring) :
  Forall (units_le x) l -> JS.insert x l = x :: l.
Proof.
  intros H. destruct l as [|y l]; [reflexivity|]. simpl.
  inversion H as [|? ? Hxy _]; subst. unfold units_le in Hxy. now rewrite Hxy.
Qed.

Lemma filter_insert (q : jsstring -> bool) (x : jsstring) (l : list jsstring) :
  StronglySorted units_le l ->
  filter q (JS.insert x l) = if q x then JS.insert x (filter q l) else filter q l.
Proof.
  induction 1 as [|y l Hs IH Hall]; simpl.
  - now destruct (q x).
  - destruct (JS.ltb y x) eqn:Hyx; simpl.
    + rewrite IH. destruct (q y), (q x); simpl; rewrite ?Hyx; reflexivity.
    + destruct (q x); [|reflexivity].
      symmetry. apply insert_first.
      assert (Hx : Forall (units_le x) (y :: l)).
      { constructor; [exact Hyx|].
        eapply Forall_impl; [|exact Hall].
        intros z Hz. now apply (units_le_trans x y z). }
      change (if q y then y :: filter q l else filter q l) with (filter q (y :: l)).
      apply Forall_forall. intros z Hz. apply filter_In in Hz as [Hz _].
      now apply (proj1 (Forall_forall _ _) Hx).
Qed.

Lemma filter_strongly_sorted (q : jsstring -> bool) (l : list jsstring) :
  StronglySorted units_le l -> StronglySorted units_le (filter q l).
Proof.
  induction 1 as [|y l Hs IH Hall]; simpl; [constructor|].
  destruct (q y); [|assumption]. constructor; [assumption|].
  apply Forall_forall. intros z Hz. apply filter_In in Hz as [Hz _].
  now apply (proj1 (Forall_forall _ _) Hall).
Qed.

Lemma ports_from_shift {A} (l : list A) (port : N) (a : A) (p : N) :
  In (a, p) (ports_from port l) -> In (a, p + 1) (ports_from (port + 1) l).
Proof.
  revert port. induction l as [|b r IH]; intros port; simpl; [easy|].
  intros [[= -> ->] | H]; [now left | right; now apply IH].
Qed.

(** Where [x] goes into a sorted list without [x], the apps before it
    keep their number and the apps after it get the next one. *)
Lemma ports_insert (x : jsstring) (l : list jsstring) (port : N) (a : jsstring) (p : N) :
  StronglySorted units_le l -> ~ In x l ->
  In (a, p) (ports_from port l) ->
  In (a, if JS.ltb x a then p + 1 else p) (ports_from port (JS.insert x l)).
Proof.
  intros Hs. revert port. induction Hs as [|y l Hs IH Hall]; intros port Hx; simpl; [easy|].
  destruct (JS.ltb y x) eqn:Hyx; simpl.
  - intros [[= -> ->] | H].
    + left. now rewrite (ltb_asym _ _ Hyx).
    + right. apply IH; [|assumption]. intros Hin. apply Hx. now right.
  - intros H.
    assert (Ha : In a (y :: l)).
    { exact (proj1 (ports_from_In (y :: l) port a p H)). }
    assert (Hxa : JS.ltb x a = true).
    { destruct (JS.ltb x a) eqn:E; [reflexivity|]. exfalso. apply Hx.
      assert (Hle : units_le x a).
      { destruct Ha as [<- | Ha]; [exact Hyx|].
        apply (units_le_trans x y a); [exact Hyx|].
        now apply (proj1 (Forall_forall _ _) Hall). }
      now rewrite (ltb_total x a E Hle). }
    rewrite Hxa. right.
    exact (ports_from_shift (y :: l) port a p H).
Qed.

Lemma lookup_new (cwd : folder) (x f : jsstring) (n : node) :
  f <> x -> lookup ((x, n) :: cwd) f = lookup cwd f.
Proof. intros H. simpl. apply eqb_neq in H. now rewrite H. Qed.

Lemma allApps_listed (cwd : folder) (apps : list jsstring) (a : jsstring) :
  allApps cwd = Some apps -> In a apps -> In a (readdirSync cwd).
Proof.
  unfold allApps. destruct (filter_throwing _ _) as [r|] eqn:E; [|discriminate].
  intros [= <-] Hin. apply (filter_throwing_In _ _ _ _ E).
  apply (Permutation_in _ (sort_perm r) Hin).
Qed.

Lemma allApps_sorted (cwd : folder) (apps : list jsstring) :
  allApps cwd = Some apps -> StronglySorted units_le apps.
Proof.
  unfold allApps. destruct (filter_throwing _ _) as [r|]; [|discriminate].
  intros [= <-]. apply sort_strongly_sorted.
Qed.

(** The ports are not tied to the apps: they are handed out again on
    every run, along the sorted list.  When a directory for a new app is
    added to the working directory, the apps are the old ones and the
    new one; a new static app leaves the Docker apps as they were, and
    a new Docker app goes into their list at its place in the order.
    For a Docker app that had port [p] (the document of the old
    directory sends its name to [p]), the document of the new directory
    sends its name to [p + 1] when the new app is a Docker app whose
    name comes before it, and to [p] otherwise, and step 3 starts its
    containers with that same [PORT].  With no line break in a name,
    the forwarding blocks read off the new document are exactly the
    Docker apps of the new directory, numbered from 3000. *)
Theorem new_app_shifts_later_ports (cwd : folder) (x : jsstring)
    (children apps : list jsstring) :
  NoDup (readdirSync cwd) ->
  ~ In x (readdirSync cwd) ->
  startsWith x (lit ".") = false ->
  includes system_folders x = false ->
  allApps cwd = Some apps ->
  exists apps',
    allApps ((x, Directory children) :: cwd) = Some apps'
    /\ (forall a, In a apps' <-> a = x \/ In a apps)
    /\ dockerApps ((x, Directory children) :: cwd) apps'
       = (if includes children (lit "docker-compose.yml")
          then JS.insert x (dockerApps cwd apps)
          else dockerApps cwd apps)
    /\ (forall a p,
          In (a, p) (ports_from 3000 (dockerApps cwd apps)) ->
          forall domain,
            occurs_in (proxies_to a domain p)
                      (nginxConfig domain apps (dockerApps cwd apps)) = true
            /\ occurs_in
                 (proxies_to a domain
                    (if includes children (lit "docker-compose.yml") && JS.ltb x a
                     then p + 1 else p))
                 (nginxConfig domain apps'
                    (dockerApps ((x, Directory children) :: cwd) apps')) = true
            /\ forall w sshHost t,
                 exists line,
                   In line
                      (map command_line
                         (executed
                            (snd (start_containers w sshHost
                                    (dockerApps ((x, Directory children) :: cwd) apps')
                                    3000 (initial t)))))
                   /\ occurs_in
                        (starts_on a
                           (if includes children (lit "docker-compose.yml") && JS.ltb x a
                            then p + 1 else p))
                        line = true)
    /\ (forall domain,
          one_line domain -> Forall one_line apps' ->
          proxies_read (nginxConfig domain apps'
                          (dockerApps ((x, Directory children) :: cwd) apps'))
          = map (fun ap => (subject (fst ap) domain, local_port (snd ap)))
                (ports_from 3000 (dockerApps ((x, Directory children) :: cwd) apps'))).
Proof.
  intros Hnd Hx Hdot Hsys Hall.
  pose proof (allApps_sorted _ _ Hall) as Hsorted.
  assert (Hnot : ~ In x apps).
  { intros Hin. apply Hx. now apply (allApps_listed _ _ _ Hall). }
  exists (JS.insert x apps).
  assert (Hall' : allApps ((x, Directory children) :: cwd) = Some (JS.insert x apps)).
  { revert Hall. unfold allApps, readdirSync.
    cbn [map fst filter_throwing].
    assert (Ex : is_app_entry ((x, Directory children) :: cwd) x = Some true).
    { unfold is_app_entry, statSync_isDirectory. cbn [lookup]. rewrite eqb_refl.
      now rewrite Hdot, Hsys. }
    rewrite Ex.
    rewrite (filter_throwing_ext (is_app_entry ((x, Directory children) :: cwd))
               (is_app_entry cwd)).
    - destruct (filter_throwing _ _) as [r|]; [|discriminate].
      simpl. now intros [= <-].
    - intros f Hf. apply is_app_entry_lookup. apply lookup_new.
      intros ->. now apply Hx. }
  assert (Hdocker : dockerApps ((x, Directory children) :: cwd) (JS.insert x apps)
                    = if includes children (lit "docker-compose.yml")
                      then JS.insert x (dockerApps cwd apps)
                      else dockerApps cwd apps).
  { unfold dockerApps. rewrite filter_insert by assumption.
    assert (Ex : existsSync_in ((x, Directory children) :: cwd) x (lit "docker-compose.yml")
                 = includes children (lit "docker-compose.yml")).
    { unfold existsSync_in. cbn [lookup]. now rewrite eqb_refl. }
    rewrite Ex.
    assert (Hf : filter (fun app => existsSync_in ((x, Directory children) :: cwd) app
                                      (lit "docker-compose.yml")) apps
                 = filter (fun app => existsSync_in cwd app (lit "docker-compose.yml")) apps).
    { apply filter_ext_in. intros a Ha. apply existsSync_in_lookup. apply lookup_new.
      intros ->. now apply Hnot. }
    now rewrite Hf. }
  assert (Hports : forall a p,
             In (a, p) (ports_from 3000 (dockerApps cwd apps)) ->
             In (a, if includes children (lit "docker-compose.yml") && JS.ltb x a
                    then p + 1 else p)
                (ports_from 3000 (dockerApps ((x, Directory children) :: cwd)
                                    (JS.insert x apps)))).
  { intros a p Hin. rewrite Hdocker.
    destruct (includes children (lit "docker-compose.yml")); [|assumption].
    cbn [andb]. apply ports_insert; [| |assumption].
    - unfold dockerApps. now apply filter_strongly_sorted.
    - unfold dockerApps. intros H. apply filter_In in H as [H _]. now apply Hnot. }
  split; [assumption|]. split; [|split; [|split]].
  - intros a. split; intros H.
    + apply (Permutation_in _ (insert_perm x apps)) in H. destruct H; auto.
    + apply (Permutation_in _ (Permutation_sym (insert_perm x apps))).
      destruct H; [left | right]; auto.
  - exact Hdocker.
  - intros a p Hin domain. split; [|split].
    + apply config_proxies_to. now rewrite filter_dockerApps.
    + apply config_proxies_to. rewrite filter_dockerApps. now apply Hports.
    + intros w sshHost t. rewrite start_containers_lines, map_map.
      eexists. split; [|apply (compose_line_starts sshHost)].
      apply (in_map (fun ap => command_line (Ssh sshHost (ComposeUp (fst ap) (snd ap))))
                    _ _ (Hports a p Hin)).
  - intros domain Hd Ha. rewrite proxies_read_config by assumption.
    now rewrite filter_dockerApps.
Qed.

Lemma new_app_shifts_later_ports_witness :
  exists apps',
    allApps ((lit "api", Ex.compose) :: Ex.readme_folder) = Some apps'
    /\ occurs_in (proxies_to (lit "myapi") Ex.example_com 3001)
         (nginxConfig Ex.example_com [lit "abc"; lit "blog"; lit "myapi"; lit "xyz"]
            (dockerApps Ex.readme_folder [lit "abc"; lit "blog"; lit "myapi"; lit "xyz"]))
       = true
    /\ occurs_in
         (proxies_to (lit "myapi") Ex.example_com
            (if includes [lit "docker-compose.yml"; lit "Dockerfile"]
                  (lit "docker-compose.yml") && JS.ltb (lit "api") (lit "myapi")
             then 3001 + 1 else 3001))
         (nginxConfig Ex.example_com apps'
            (dockerApps ((lit "api", Ex.compose) :: Ex.readme_folder) apps'))
       = true.
Proof.
  destruct (new_app_shifts_later_ports Ex.readme_folder (lit "api")
              [lit "docker-compose.yml"; lit "Dockerfile"]
              [lit "abc"; lit "blog"; lit "myapi"; lit "xyz"])
    as (apps' & Hall & _ & _ & Hmove & _).
  - unfold readdirSync. vm_compute.
    repeat (constructor; [simpl; intuition discriminate|]). constructor.
  - unfold readdirSync. vm_compute. intuition discriminate.
  - reflexivity.
  - reflexivity.
  - reflexivity.
  - exists apps'. split; [exact Hall|].
    destruct (Hmove (lit "myapi") 3001) with (domain := Ex.example_com) as (H1 & H2 & _).
    + vm_compute. auto.
    + split; [exact H1 | exact H2].
Defined.

(* ================================================================= *)
(** ** What [runSSH] hands to the target *)

(** Induction over a text two code units at a time. *)
Lemma two_step (P : jsstring -> Prop) :
  P [] -> (forall u, P [u]) -> (forall u v s, P s -> P (v :: s) -> P (u :: v :: s)) ->
  forall s, P s.
Proof.
  intros H0 H1 H2 s.
  assert (H : P s /\ forall u, P (u :: s)); [|apply H].
  induction s as [|v s [IHs IHc]]; [split; [exact H0 | exact H1]|].
  split; [apply IHc|]. intros u. apply H2; [exact IHs | apply IHc].
Qed.

Lemma escape_cons (u : code_unit) (s : jsstring) :
  escape_dquotes (u :: s)
  = (if u =? dquote then [92; dquote] else [u]) ++ escape_dquotes s.
Proof. reflexivity. Qed.

Lemma expand_ordinary (sh : Sh.shell) (u : code_unit) (s : jsstring) :
  (u =? 92) = false -> (u =? 36) = false ->
  Sh.expand sh Sh.Plain (u :: s) = u :: Sh.expand sh Sh.Plain s.
Proof. intros H92 H36. cbn [Sh.expand]. unfold Sh.plain. now rewrite H92, H36. Qed.

Lemma expand_escaped_dquote (sh : Sh.shell) (s : jsstring) :
  Sh.expand sh Sh.Plain (92 :: dquote :: s) = dquote :: Sh.expand sh Sh.Plain s.
Proof. reflexivity. Qed.

Lemma expand_kept_backslash (sh : Sh.shell) (v : code_unit) (s : jsstring) :
  (v =? 36) || (v =? 96) || (v =? 34) || (v =? 92) || (v =? newline) = false ->
  Sh.expand sh Sh.Plain (92 :: v :: s) = 92 :: v :: Sh.expand sh Sh.Plain s.
Proof.
  intros H. rewrite !orb_false_iff in H. destruct H as [[[[H36 H96] H34] H92] Hnl].
  change (Sh.expand sh Sh.Plain (92 :: v :: s))
    with (if (v =? 36) || (v =? 96) || (v =? 34) || (v =? 92)
          then v :: Sh.expand sh Sh.Plain s
          else if v =? newline then Sh.expand sh Sh.Plain s
               else 92 :: v :: Sh.expand sh Sh.Plain s).
  now rewrite H36, H96, H34, H92, Hnl.
Qed.

Lemma received_quiet (sh : Sh.shell) (s : jsstring) :
  quiet s = true -> received sh s = s.
Proof.
  unfold received. induction s as [| u | u v s IHs IHv] using two_step.
  - reflexivity.
  - cbn [quiet]. destruct (u =? 92) eqn:E92; [discriminate|]. intros H.
    apply andb_true_iff in H as [Hu _]. apply negb_true_iff in Hu.
    apply orb_false_iff in Hu as [H36 H96].
    rewrite escape_cons. destruct (u =? dquote) eqn:E34.
    + apply N.eqb_eq in E34. subst u. reflexivity.
    + cbn [app]. now rewrite expand_ordinary.
  - cbn [quiet]. destruct (u =? 92) eqn:E92.
    + apply N.eqb_eq in E92. subst u. intros H.
      apply andb_true_iff in H as [Hv Hs]. apply negb_true_iff in Hv.
      assert (H34 : (v =? dquote) = false).
      { rewrite !orb_false_iff in Hv. apply Hv. }
      rewrite !escape_cons, H34. cbn [N.eqb Pos.eqb dquote app].
      rewrite (expand_kept_backslash sh v _ Hv). now rewrite (IHs Hs).
    + intros H. apply andb_true_iff in H as [Hu Hs]. apply negb_true_iff in Hu.
      apply orb_false_iff in Hu as [H36 H96].
      specialize (IHv Hs). rewrite escape_cons.
      destruct (u =? dquote) eqn:E34.
      * apply N.eqb_eq in E34. subst u. cbn [app].
        rewrite expand_escaped_dquote. now rewrite IHv.
      * cbn [app]. rewrite expand_ordinary by assumption. now rewrite IHv.
Qed.

Lemma quiet_app (a b : jsstring) :
  quiet a = true -> quiet b = true -> quiet (a ++ b) = true.
Proof.
  intros Ha Hb. revert Ha.
  induction a as [| u | u v s IHs IHv] using two_step.
  - easy.
  - cbn [quiet app]. destruct (u =? 92); [discriminate|].
    intros H. apply andb_true_iff in H as [H _]. now rewrite H.
  - cbn [quiet app]. destruct (u =? 92).
    + intros H. apply andb_true_iff in H as [H Hs]. rewrite H. now apply IHs.
    + intros H. apply andb_true_iff in H as [H Hs]. rewrite H. now apply IHv.
Qed.

Lemma quiet_digits (d : Decimal.uint) : quiet (JS.digits d) = true.
Proof. induction d; simpl; auto. Qed.

(** Apart from the script of step 4, the double quotes of [runSSH] hand
    every remote command of a deploy to the target as it was written,
    whatever the environment of the deploying machine: the fixed texts
    hold nothing its shell would expand, and the names put into them
    arrive intact when they hold no dollar sign, no backquote and no
    backslash the shell would take away. *)
Theorem other_scripts_arrive_intact (sh : Sh.shell) (r : remote_script) :
  r <> StopOrphans ->
  Forall (fun name => quiet name = true) (names_of r) ->
  received sh (script_text r) = script_text r.
Proof.
  intros Hr Hnames. apply received_quiet.
  destruct r as [app port| |app domain emailArg| |]; cbn [script_text names_of] in *.
  - inversion Hnames as [|? ? Happ _]; subst.
    unfold compose_up_script. repeat apply quiet_app; try reflexivity; try assumption.
    apply quiet_digits.
  - now elim Hr.
  - inversion Hnames as [|? ? Happ Hrest]; subst.
    inversion Hrest as [|? ? Hdomain Hrest']; subst.
    inversion Hrest' as [|? ? Hemail _]; subst.
    unfold ensure_cert_script. repeat apply quiet_app; try reflexivity; assumption.
  - reflexivity.
  - reflexivity.
Qed.

Lemma other_scripts_arrive_intact_witness :
  received plain_machine (script_text (ComposeUp (lit "abc") 3000))
  = script_text (ComposeUp (lit "abc") 3000).
Proof.
  apply (other_scripts_arrive_intact plain_machine (ComposeUp (lit "abc") 3000)).
  - discriminate.
  - repeat constructor.
Defined.
